(** * vtt-to-op47: WebVTT cues to OP-47 / WST teletext packets

    A shallow embedding of the encoder pipeline of the repository
    (x26-encoder.js, wst-encoder.js, titling-engine.js, vtt-parser.js and
    the scheduler and HTTP handler of vtt-titling-server.js), followed by
    the properties stated about it.

    Conventions.
    - A JavaScript string is the list of its UTF-16 code units ([list Z]);
      [length] is then the JavaScript [.length].
    - A JavaScript number that the code uses as an integer (a column, a mode,
      a byte) is a [Z]; a time in seconds is a binary64 float ([PrimFloat]).
    - A call that can throw returns a [result]. *)

From Stdlib Require Import ZArith Floats Uint63.
From stdpp Require Import base option list sorting gmap strings.

Set Warnings "-register-all".
Local Open Scope Z_scope.

(** ** JavaScript strings *)

Module JS.

Abbreviation jsstring := (list Z) (only parsing).

(** An ASCII literal as a JavaScript string. *)
Fixpoint lit (s : string) : jsstring :=
  match s with
  | EmptyString => []
  | String a s' => Z.of_nat (Ascii.nat_of_ascii a) :: lit s'
  end.

Definition is_high_surrogate (u : Z) : bool := (0xD800 <=? u) && (u <=? 0xDBFF).
Definition is_low_surrogate (u : Z) : bool := (0xDC00 <=? u) && (u <=? 0xDFFF).

(** [Array.from(str)]: the string iterator yields one string per code point, a
    well-formed surrogate pair together and any other code unit alone. *)
Fixpoint Array_from (s : jsstring) : list jsstring :=
  match s with
  | [] => []
  | h :: t =>
      match t with
      | l :: t' =>
          if is_high_surrogate h && is_low_surrogate l
          then [h; l] :: Array_from t'
          else [h] :: Array_from t
      | [] => [[h]]
      end
  end.

(** [arr.join("")] *)
Definition join_empty (arr : list jsstring) : jsstring := concat arr.

(** [s.codePointAt(0)] for a non-empty string ([undefined] is not modelled:
    every caller passes an element of [Array.from]). *)
Definition codePointAt0 (s : jsstring) : Z :=
  match s with
  | h :: l :: _ =>
      if is_high_surrogate h && is_low_surrogate l
      then 0x10000 + (h - 0xD800) * 0x400 + (l - 0xDC00)
      else h
  | h :: _ => h
  | [] => 0
  end.

(** [s.charCodeAt(0) & 0x7f]; on the empty string [charCodeAt] is NaN and the
    bitwise and gives 0. *)
Definition charCodeAt0_and_7f (s : jsstring) : Z :=
  match s with
  | [] => 0
  | c :: _ => Z.land c 0x7f
  end.

(** [s.substring(0, n)] for [0 <= n] *)
Definition substring0 (n : nat) (s : jsstring) : jsstring := take n s.

(** [arr.slice(a, b)] for [0 <= a <= b] *)
Definition slice {A} (a b : nat) (l : list A) : list A := take (b - a) (drop a l).

(** UTF-8 bytes of one code point. *)
Definition utf8 (cp : Z) : list Z :=
  if cp <? 0x80 then [cp]
  else if cp <? 0x800 then
    [Z.lor 0xC0 (Z.shiftr cp 6); Z.lor 0x80 (Z.land cp 0x3F)]
  else if cp <? 0x10000 then
    [Z.lor 0xE0 (Z.shiftr cp 12);
     Z.lor 0x80 (Z.land (Z.shiftr cp 6) 0x3F);
     Z.lor 0x80 (Z.land cp 0x3F)]
  else
    [Z.lor 0xF0 (Z.shiftr cp 18);
     Z.lor 0x80 (Z.land (Z.shiftr cp 12) 0x3F);
     Z.lor 0x80 (Z.land (Z.shiftr cp 6) 0x3F);
     Z.lor 0x80 (Z.land cp 0x3F)].

(** [new TextEncoder().encode(s)]: UTF-8, a lone surrogate becoming U+FFFD. *)
Definition TextEncoder_encode (s : jsstring) : list Z :=
  concat (map (fun ch =>
                 let cp := codePointAt0 ch in
                 if is_high_surrogate cp || is_low_surrogate cp
                 then utf8 0xFFFD else utf8 cp)
              (Array_from s)).

(** [Uint8Array.from(values)] stores every value modulo 256. *)
Definition Uint8Array_from (l : list Z) : list Z := map (fun x => x `mod` 256) l.

(** What a call gives: a value, or the exception it throws. *)
Inductive result (A : Type) : Type :=
| Ok (a : A)
| Throws (error : string).
Arguments Ok {A} a.
Arguments Throws {A} error.

Definition bind {A B} (r : result A) (k : A -> result B) : result B :=
  match r with
  | Ok a => k a
  | Throws e => Throws e
  end.

(** [rows.map(f)] where [f] may throw: left to right, stopping at the first
    exception. [i] is the index of the first element. *)
Fixpoint map_result {A B} (f : nat -> A -> result B) (i : nat) (l : list A)
  : result (list B) :=
  match l with
  | [] => Ok []
  | x :: l' =>
      bind (f i x) (fun y => bind (map_result f (S i) l') (fun ys => Ok (y :: ys)))
  end.

End JS.

Import JS.

(** ** The parity codec (parity.js) and bit-utils.js

    Neither file is among the sources: the encoders below take the three
    functions of parity.js as an interface. *)

Class ParityCodec := {
  hammingEncodeNybble : Z -> Z;
  hammingEncode24 : Z -> list Z;
  applyParity : list Z -> list Z
}.

(** Modelled from the spec: bit-utils.js is missing; "Field widths: address 6
    bits, mode 5 bits, data 7 bits", so [bitmask n] is the mask of the [n] low
    bits. *)
Definition bitmask (n : Z) : Z := Z.shiftl 1 n - 1.

(** ** x26-encoder.js *)

Module X26.

Definition Mode_SetActivePosition : Z := 0x04.
Definition Mode_DiacriticBase : Z := 0x11.
Definition Mode_G2Character : Z := 0x0f.
Definition Mode_TerminationMarker : Z := 0x1F.

Definition DiacriticIndex_Acute : Z := 2.
Definition DiacriticIndex_Ring : Z := 10.
Definition DiacriticIndex_Caron : Z := 15.

Record G2Set := { lower : list Z; upper : list Z }.

Definition G2_default : G2Set :=
  {| lower := [0x62; 0x64; 0x65; 0x6e; 0x72; 0x73; 0x74; 0x7a];
     upper := [0x42; 0x44; 0x45; 0x4e; 0x52; 0x53; 0x54; 0x5a] |}.

(** The own properties of the frozen object [G2_CARON_SETS]. *)
Definition G2_CARON_SETS : gmap string G2Set :=
  <["iso88592" :=
      {| lower := [0x68; 0x6f; 0x6c; 0x72; 0x78; 0x39; 0x3b; 0x2e];
         upper := [0x48; 0x4f; 0x4c; 0x52; 0x58; 0x28; 0x2b; 0x2c] |}]>
  (<["alt2" :=
      {| lower := [0x68; 0x6a; 0x6b; 0x70; 0x78; 0x79; 0x7a; 0x7e];
         upper := [0x48; 0x4a; 0x4b; 0x50; 0x58; 0x59; 0x5a; 0x5e] |}]>
  (<["alt1" :=
      {| lower := [0x63; 0x64; 0x65; 0x6e; 0x72; 0x73; 0x74; 0x79];
         upper := [0x43; 0x44; 0x45; 0x4e; 0x52; 0x53; 0x54; 0x59] |}]>
  (<["default" := G2_default]> ∅))).

(** č ď ě ň ř š ť ž and their capitals, each one code unit. *)
Definition CARON_LETTERS : list jsstring :=
  [[0x10D]; [0x10F]; [0x11B]; [0x148]; [0x159]; [0x161]; [0x165]; [0x17E]].
Definition CARON_LETTERS_UC : list jsstring :=
  [[0x10C]; [0x10E]; [0x11A]; [0x147]; [0x158]; [0x160]; [0x164]; [0x17D]].

(** [arr.indexOf(x)], [None] for -1. *)
Fixpoint indexOf (x : jsstring) (arr : list jsstring) : option nat :=
  match arr with
  | [] => None
  | y :: arr' => if decide (y = x) then Some 0%nat else S <$> indexOf x arr'
  end.

Record Entry := {
  base : jsstring;
  diacritic : Z;
  g2 : option Z;
  useCompose : bool;
  caronDiacriticIndex : option Z
}.

(** The constructor options; an absent option is [None]. *)
Record Opts := {
  opts_caronEncoding : option string;
  opts_caronDiacriticIndex : option Z;
  opts_g2Variant : option string
}.

Definition no_opts : Opts :=
  {| opts_caronEncoding := None; opts_caronDiacriticIndex := None; opts_g2Variant := None |}.

(** á é í ó ú ý ů and capitals: letter, base letter, diacritic index. *)
Definition acuteRing : list (jsstring * jsstring * Z) :=
  [([0xE1], lit "a", DiacriticIndex_Acute); ([0xE9], lit "e", DiacriticIndex_Acute);
   ([0xED], lit "i", DiacriticIndex_Acute); ([0xF3], lit "o", DiacriticIndex_Acute);
   ([0xFA], lit "u", DiacriticIndex_Acute); ([0xFD], lit "y", DiacriticIndex_Acute);
   ([0x16F], lit "u", DiacriticIndex_Ring);
   ([0xC1], lit "A", DiacriticIndex_Acute); ([0xC9], lit "E", DiacriticIndex_Acute);
   ([0xCD], lit "I", DiacriticIndex_Acute); ([0xD3], lit "O", DiacriticIndex_Acute);
   ([0xDA], lit "U", DiacriticIndex_Acute); ([0xDD], lit "Y", DiacriticIndex_Acute);
   ([0x16E], lit "U", DiacriticIndex_Ring)].

Definition caronBase : gmap jsstring jsstring :=
  list_to_map
    [([0x10D], lit "c"); ([0x10F], lit "d"); ([0x11B], lit "e"); ([0x148], lit "n");
     ([0x159], lit "r"); ([0x161], lit "s"); ([0x165], lit "t"); ([0x17E], lit "z")].
Definition caronBaseUC : gmap jsstring jsstring :=
  list_to_map
    [([0x10C], lit "C"); ([0x10E], lit "D"); ([0x11A], lit "E"); ([0x147], lit "N");
     ([0x158], lit "R"); ([0x160], lit "S"); ([0x164], lit "T"); ([0x17D], lit "Z")].

Definition caronG2 (g2Set : G2Set) (char : jsstring) : option Z :=
  match indexOf char CARON_LETTERS with
  | Some i => lower g2Set !! i
  | None =>
      match indexOf char CARON_LETTERS_UC with
      | Some j => upper g2Set !! j
      | None => None
      end
  end.

(** The three loops of [buildCzechMap], each [map.set] an insertion. *)
Definition setCarons (caronEncoding : string) (caronDiacriticIndex : Z) (g2Set : G2Set)
    (bases : gmap jsstring jsstring) (letters : list jsstring)
    (map : gmap jsstring Entry) : gmap jsstring Entry :=
  foldl (fun m ch =>
           let g2 := if bool_decide (caronEncoding = "g2"%string)
                     then caronG2 g2Set ch else None in
           <[ch := {| base := default [] (bases !! ch);
                      diacritic := DiacriticIndex_Caron;
                      g2 := g2;
                      useCompose := bool_decide (caronEncoding = "compose"%string);
                      caronDiacriticIndex := Some caronDiacriticIndex |}]> m)
        map letters.

(** The names that every plain object inherits from [Object.prototype]. *)
Definition Object_prototype_keys : list string :=
  ["constructor"; "toString"; "toLocaleString"; "valueOf"; "hasOwnProperty";
   "isPrototypeOf"; "propertyIsEnumerable"; "__proto__"; "__defineGetter__";
   "__defineSetter__"; "__lookupGetter__"; "__lookupSetter__"]%string.

(** [G2_CARON_SETS[g2Variant] ?? G2_CARON_SETS.default]. The object is a plain
    one, so the lookup also finds the inherited properties: functions (the
    prototype itself for [__proto__]), which are not nullish and have neither
    [lower] nor [upper]. [None] stands for such a value. *)
Definition g2SetFor (g2Variant : string) : option G2Set :=
  match G2_CARON_SETS !! g2Variant with
  | Some g2Set => Some g2Set
  | None =>
      if bool_decide (g2Variant ∈ Object_prototype_keys) then None else Some G2_default
  end.

(** The loops of [buildCzechMap] once the options are read. [g2Set] is read
    by [caronG2], which is called in g2 mode only. *)
Definition czechMapWith (caronEncoding : string) (caronDiacriticIndex : Z)
    (g2Set : G2Set) : gmap jsstring Entry :=
  let map :=
    foldl (fun m '(ch, b, diac) =>
             <[ch := {| base := b; diacritic := diac; g2 := None;
                        useCompose := true; caronDiacriticIndex := None |}]> m)
          ∅ acuteRing in
  let map := setCarons caronEncoding caronDiacriticIndex g2Set caronBase CARON_LETTERS map in
  setCarons caronEncoding caronDiacriticIndex g2Set caronBaseUC CARON_LETTERS_UC map.

(** In g2 mode with a [g2Set] that is no set, [g2Set.lower[i]] reads a
    property of [undefined] at the first caron letter: a TypeError. In the
    other modes [g2Set] is not read. *)
Definition buildCzechMap (opts : Opts) : result (gmap jsstring Entry) :=
  let caronEncoding := default "compose"%string (opts_caronEncoding opts) in
  let caronDiacriticIndex := Z.max 1 (Z.min 15 (default 15 (opts_caronDiacriticIndex opts))) in
  let g2Variant := default "default"%string (opts_g2Variant opts) in
  match g2SetFor g2Variant with
  | Some g2Set => Ok (czechMapWith caronEncoding caronDiacriticIndex g2Set)
  | None =>
      if bool_decide (caronEncoding = "g2"%string)
      then Throws "TypeError: Cannot read properties of undefined"
      else Ok (czechMapWith caronEncoding caronDiacriticIndex G2_default)
  end.

Definition packEnhancement (mode address data : Z) : Z :=
  Z.lor (Z.lor (Z.land address (bitmask 6))
               (Z.shiftl (Z.land mode (bitmask 5)) 6))
        (Z.shiftl (Z.land data (bitmask 7)) 11).

Record Triplet := { mode : Z; address : Z; data : Z }.

(** The private fields of an encoder: [#enhancements], [#packets] ([None]
    while not materialised) and [#czechMap]. *)
Record X26Encoder := {
  enhancements : list Triplet;
  packets : option (list (list Z));
  czechMap : gmap jsstring Entry
}.

(** [new X26Encoder(opts)]: the constructor throws when [buildCzechMap] does. *)
Definition new_X26Encoder (opts : Opts) : result X26Encoder :=
  bind (buildCzechMap opts)
       (fun czechMap => Ok {| enhancements := []; packets := None; czechMap := czechMap |}).

(** ETS 300 706 12.3.2: row 24 = address 40, rows 1-23 = addresses 41-63. *)
Definition rowAddress (rowLocation : Z) : Z :=
  if bool_decide (rowLocation = 24) then 40 else 40 + rowLocation.

(** What the row keeps at a mapped column. *)
Definition rowCell (entry : Entry) : jsstring :=
  match g2 entry with
  | Some _ => lit " "
  | None => base entry
  end.

(** The triplet pushed for a mapped character at column [col]. *)
Definition charTriplet (entry : Entry) (col : nat) : Triplet :=
  if useCompose entry then
    let idx := default (diacritic entry) (caronDiacriticIndex entry) in
    {| mode := Mode_DiacriticBase + (idx - 1);
       address := Z.of_nat col;
       data := charCodeAt0_and_7f (base entry) |}
  else
    match g2 entry with
    | Some code =>
        {| mode := Mode_G2Character; address := Z.of_nat col; data := Z.land code 0x7f |}
    | None =>
        {| mode := Mode_DiacriticBase + (diacritic entry - 1);
           address := Z.of_nat col;
           data := charCodeAt0_and_7f (base entry) |}
    end.

(** The [for] loop of [encodeRow] from column [col] on: the rest of the row as
    rewritten, and the enhancement list after the pushes. *)
Fixpoint encodeRow_loop (czechMap : gmap jsstring Entry) (rowLocation : Z)
    (col : nat) (row : list jsstring) (firstEnhancement : bool)
    (enh : list Triplet) : list jsstring * list Triplet :=
  match row with
  | [] => ([], enh)
  | char :: row' =>
      match czechMap !! char with
      | None =>
          let '(out, enh') :=
            encodeRow_loop czechMap rowLocation (S col) row' firstEnhancement enh in
          (char :: out, enh')
      | Some entry =>
          let enh1 :=
            if firstEnhancement
            then enh ++ [{| mode := Mode_SetActivePosition;
                            address := rowAddress rowLocation;
                            data := 0 |}]
            else enh in
          let enh2 := enh1 ++ [charTriplet entry col] in
          let '(out, enh') :=
            encodeRow_loop czechMap rowLocation (S col) row' false enh2 in
          (rowCell entry :: out, enh')
      end
  end.

Definition encodeRow (this : X26Encoder) (str : jsstring) (rowLocation : Z)
  : X26Encoder * jsstring :=
  let '(row, enh) :=
    encodeRow_loop (czechMap this) rowLocation 0 (Array_from str) true (enhancements this) in
  ({| enhancements := enh; packets := packets this; czechMap := czechMap this |},
   join_empty row).

Section WithCodec.
Context `{ParityCodec}.

Definition encodeX26Packet (packetNumber : nat) (enhancements : list Triplet) : list Z :=
  let result := [hammingEncodeNybble (Z.of_nat packetNumber)] in
  let result :=
    foldl (fun result enhancement =>
             result ++ hammingEncode24
               (packEnhancement (mode enhancement) (address enhancement) (data enhancement)))
          result enhancements in
  if bool_decide (length enhancements < 13)%nat then
    let fillers := (13 - length enhancements)%nat in
    foldl (fun result i =>
             result ++ hammingEncode24
               (packEnhancement Mode_TerminationMarker 0x3f
                  (if bool_decide (i = fillers) then 0xff else 0x00)))
          result (seq 1 fillers)
  else result.

(** The getter: [Math.ceil(n / 13)] packets, built once and then kept. *)
Definition enhancementPackets (this : X26Encoder) : X26Encoder * list (list Z) :=
  match packets this with
  | Some ps => (this, ps)
  | None =>
      let rowsNeeded := ((length (enhancements this) + 12) / 13)%nat in
      let ps :=
        foldl (fun ps i =>
                 ps ++ [encodeX26Packet i
                          (slice (i * 13) ((i + 1) * 13) (enhancements this))])
              [] (seq 0 rowsNeeded) in
      ({| enhancements := enhancements this; packets := Some ps;
          czechMap := czechMap this |}, ps)
  end.

End WithCodec.

End X26.

(** ** wst-encoder.js *)

Module WST.

(** [Array(n).fill(' ').join('')]: [Array(n)] throws a RangeError on a negative
    length. *)
Definition spaces (n : Z) : result jsstring :=
  if n <? 0 then Throws "RangeError: Invalid array length"
  else Ok (replicate (Z.to_nat n) 0x20).

(** Czech diacritical -> base letter. *)
Definition CZECH_TO_BASE : gmap jsstring jsstring :=
  list_to_map
    [([0xE1], lit "a"); ([0x10D], lit "c"); ([0x10F], lit "d"); ([0xE9], lit "e");
     ([0x11B], lit "e"); ([0xED], lit "i"); ([0x148], lit "n"); ([0xF3], lit "o");
     ([0x159], lit "r"); ([0x161], lit "s"); ([0x165], lit "t"); ([0xFA], lit "u");
     ([0x16F], lit "u"); ([0xFD], lit "y"); ([0x17E], lit "z");
     ([0xC1], lit "A"); ([0x10C], lit "C"); ([0x10E], lit "D"); ([0xC9], lit "E");
     ([0x11A], lit "E"); ([0xCD], lit "I"); ([0x147], lit "N"); ([0xD3], lit "O");
     ([0x158], lit "R"); ([0x160], lit "S"); ([0x164], lit "T"); ([0xDA], lit "U");
     ([0x16E], lit "U"); ([0xDD], lit "Y"); ([0x17D], lit "Z")].

Definition toBaseLetters (str : jsstring) : jsstring :=
  join_empty
    (map (fun c =>
            match CZECH_TO_BASE !! c with
            | Some b => b
            | None => if codePointAt0 c <=? 0x7F then c else lit "?"
            end)
         (Array_from str)).

(** The private fields of an encoder, as the constructor leaves them. The
    constructor takes the caron options as given, without a check; only a
    value read from the environment is checked, see [new_WSTEncoder]. *)
Record WSTEncoder := {
  magazine : Z;
  page : Z;
  startRow : Z;
  doubleHeight : bool;
  diacriticsEncoding : string;
  x26Opts : X26.Opts
}.

(** The variables of [process.env] that the constructor reads, [None] when
    unset. [CARON_DIACRITIC_INDEX] is [parseInt(env.CARON_DIACRITIC_INDEX, 10)],
    [None] also when that is NaN. *)
Record Env := {
  CARON_ENCODING : option string;
  CARON_DIACRITIC_INDEX : option Z;
  G2_VARIANT : option string
}.

(** [new WSTEncoder()], every argument absent: the caron options come from
    the environment, the encoding and the variant only when they are one of
    the known names. *)
Definition new_WSTEncoder (env : Env) : WSTEncoder :=
  let cEnc :=
    match CARON_ENCODING env with
    | Some e =>
        if bool_decide (e = "compose"%string) || bool_decide (e = "g2"%string)
        then Some e else None
    | None => None
    end in
  let g2 :=
    match G2_VARIANT env with
    | Some v =>
        if bool_decide (v ∈ ["default"; "alt1"; "alt2"; "iso88592"]%string)
        then Some v else None
    | None => None
    end in
  {| magazine := 0; page := 0x01; startRow := 19; doubleHeight := false;
     diacriticsEncoding := "x26";
     x26Opts := {| X26.opts_caronEncoding := cEnc;
                   X26.opts_caronDiacriticIndex := CARON_DIACRITIC_INDEX env;
                   X26.opts_g2Variant := g2 |} |}.

(** [new WSTEncoder()] with no caron option in the environment. *)
Definition default_WSTEncoder : WSTEncoder :=
  {| magazine := 0; page := 0x01; startRow := 19; doubleHeight := false;
     diacriticsEncoding := "x26"; x26Opts := X26.no_opts |}.

(** The template literal of a display row, cut to 40 code units. *)
Definition boxedText (text : jsstring) : result jsstring :=
  bind (spaces (40 - Z.of_nat (length text)))
       (fun pad => Ok (substring0 40 ([0x0b; 0x0b] ++ text ++ [0x0a; 0x0a] ++ pad))).

(** [textBytes] of a row in latin2 mode: the payload before parity. *)
Definition latin2TextBytes (text : jsstring) : result (list Z) :=
  bind (boxedText text) (fun boxed => Ok (TextEncoder_encode (toBaseLetters boxed))).

(** [textBytes] of a row in x26 mode, with the X/26 encoder after the row. *)
Definition x26TextBytes (x26encoder : X26.X26Encoder) (text : jsstring) (rowLocation : Z)
  : result (X26.X26Encoder * list Z) :=
  bind (boxedText text)
       (fun boxed =>
          let '(x26encoder', textData) := X26.encodeRow x26encoder boxed rowLocation in
          Ok (x26encoder', TextEncoder_encode textData)).

Section WithCodec.
Context `{ParityCodec}.

Definition encodePrefix (magazine packet : Z) : list Z :=
  let x := Z.land magazine 0x07 in
  let y := Z.land packet 0x1F in
  let byte4 := hammingEncodeNybble (x + Z.shiftl (Z.land y 1) 3) in
  let byte5 := hammingEncodeNybble (Z.shiftr y 1) in
  Uint8Array_from [0x55; 0x55; 0x27; byte4; byte5].

Definition encodeHeaderPacket (magazine page pageSubCode : Z) (erase : bool) : list Z :=
  let header := encodePrefix magazine 0 in
  let pageUnits := Z.land page 0xF in
  let pageTens := Z.land (Z.shiftr page 4) 0xF in
  let s1 := Z.land pageSubCode 0xF in
  let s2 := Z.land (Z.shiftr pageSubCode 4) 0x7 in
  let s3 := Z.land (Z.shiftr pageSubCode 8) 0xF in
  let s4 := Z.land (Z.shiftr pageSubCode 12) 0x3 in
  let s2 := if erase then Z.lor s2 (Z.shiftl 1 3) else s2 in
  let s4 := Z.lor s4 (Z.shiftl 1 3) in
  let cb1 := Z.lor (Z.lor 0 1) (Z.shiftl 1 1) in
  let cb2 := 0 in
  let pageControls :=
    Uint8Array_from
      (map (fun nybble => hammingEncodeNybble (Z.land nybble 0xF))
           [pageUnits; pageTens; s1; s2; s3; s4; cb1; cb2]) in
  let chars := Uint8Array_from (replicate 32 0x20) in
  Uint8Array_from (header ++ pageControls ++ chars).

Definition encodeDummy (this : WSTEncoder) : list (list Z) :=
  [encodeHeaderPacket (magazine this) 0xFF 0x3F7E false].

(** The [rows.map] of the x26 branch: the X/26 encoder is shared by the rows. *)
Fixpoint x26RowPackets (this : WSTEncoder) (startRow : Z) (i : nat)
    (rows : list jsstring) (x26encoder : X26.X26Encoder)
  : result (X26.X26Encoder * list (list Z)) :=
  match rows with
  | [] => Ok (x26encoder, [])
  | text :: rows' =>
      let prefix := encodePrefix (magazine this) (startRow + Z.of_nat i) in
      bind (x26TextBytes x26encoder text (startRow + Z.of_nat i))
           (fun '(x26encoder', textBytes) =>
              let payload := applyParity textBytes in
              bind (x26RowPackets this startRow (S i) rows' x26encoder')
                   (fun '(x26encoder'', packets) =>
                      Ok (x26encoder'', Uint8Array_from (prefix ++ payload) :: packets)))
  end.

Definition encodeDisplayRows (this : WSTEncoder) (startRow : Z) (rows : list jsstring)
  : result (list (list Z)) :=
  if bool_decide (diacriticsEncoding this = "latin2"%string) then
    map_result
      (fun i text =>
         let prefix := encodePrefix (magazine this) (startRow + Z.of_nat i) in
         bind (latin2TextBytes text)
              (fun textBytes =>
                 let payload := applyParity textBytes in
                 Ok (Uint8Array_from (prefix ++ payload))))
      0 rows
  else
    bind (X26.new_X26Encoder (x26Opts this))
         (fun x26encoder =>
            bind (x26RowPackets this startRow 0 rows x26encoder)
                 (fun '(x26encoder, rowPackets) =>
                    let enhancementPackets :=
                      map (fun enhancement =>
                             let prefix := encodePrefix (magazine this) 26 in
                             Uint8Array_from (prefix ++ enhancement))
                          (X26.enhancementPackets x26encoder).2 in
                    Ok (enhancementPackets ++ rowPackets))).

(** [rows] is [None] when the argument is missing; [startRowOpt] is the
    [startRow] of the options argument. *)
Definition encodeSubtitle (this : WSTEncoder) (rows : option (list jsstring))
    (startRowOpt : option Z) : result (list (list Z)) :=
  let startRow := default (startRow this) startRowOpt in
  let headerPacket := encodeHeaderPacket (magazine this) (page this) 0 true in
  match rows with
  | None | Some [] => Ok [headerPacket]
  | Some rows =>
      bind (encodeDisplayRows this startRow rows)
           (fun rowPackets => Ok (headerPacket :: rowPackets))
  end.

End WithCodec.

End WST.

(** ** Numbers that are times *)

Definition float_of_Z (z : Z) : float := PrimFloat.of_uint63 (Uint63.of_Z z).
Definition float_of_nat (n : nat) : float := float_of_Z (Z.of_nat n).

(** ** Regular-expression classes used by the parser and the segmenter *)

Module Re.

(** [\s], which is also what [trim] strips: white space and line terminators. *)
Definition is_ws (c : Z) : bool :=
  ((9 <=? c) && (c <=? 13)) || (c =? 0x20) || (c =? 0xA0) || (c =? 0x1680)
  || ((0x2000 <=? c) && (c <=? 0x200A)) || (c =? 0x2028) || (c =? 0x2029)
  || (c =? 0x202F) || (c =? 0x205F) || (c =? 0x3000) || (c =? 0xFEFF).

(** [\d] *)
Definition is_digit (c : Z) : bool := (48 <=? c) && (c <=? 57).

Fixpoint trimStart (s : jsstring) : jsstring :=
  match s with
  | [] => []
  | c :: s' => if is_ws c then trimStart s' else s
  end.

Definition trimEnd (s : jsstring) : jsstring :=
  foldr (fun c acc =>
           match acc with
           | [] => if is_ws c then [] else [c]
           | _ => c :: acc
           end) [] s.

Definition trim (s : jsstring) : jsstring := trimEnd (trimStart s).

(** [s.replace(/\s+/g, ' ')]; [in_ws] says that the previous code unit was
    white space. *)
Fixpoint replace_ws_runs (in_ws : bool) (s : jsstring) : jsstring :=
  match s with
  | [] => []
  | c :: s' =>
      if is_ws c
      then (if in_ws then replace_ws_runs true s' else 0x20 :: replace_ws_runs true s')
      else c :: replace_ws_runs false s'
  end.

(** [s.split(/\s+/)]; [cur] is the piece being read. *)
Fixpoint split_ws_from (cur : jsstring) (in_ws : bool) (s : jsstring) : list jsstring :=
  match s with
  | [] => [cur]
  | c :: s' =>
      if is_ws c
      then (if in_ws then split_ws_from [] true s' else cur :: split_ws_from [] true s')
      else split_ws_from (cur ++ [c]) false s'
  end.
Definition split_ws (s : jsstring) : list jsstring := split_ws_from [] false s.

(** [s.split(/\r?\n/)] *)
Fixpoint split_lines_from (cur : jsstring) (s : jsstring) : list jsstring :=
  match s with
  | [] => [cur]
  | c :: s' =>
      if c =? 10 then cur :: split_lines_from [] s'
      else
        match s' with
        | d :: s'' =>
            if (c =? 13) && (d =? 10) then cur :: split_lines_from [] s''
            else split_lines_from (cur ++ [c]) s'
        | [] => [cur ++ [c]]
        end
  end.
Definition split_lines (s : jsstring) : list jsstring := split_lines_from [] s.

(** [arr.join(' ')] *)
Fixpoint join_space (arr : list jsstring) : jsstring :=
  match arr with
  | [] => []
  | [x] => x
  | x :: arr' => x ++ 0x20 :: join_space arr'
  end.

(** One literal code unit at the head. *)
Definition expect (c : Z) (s : jsstring) : option jsstring :=
  match s with
  | x :: s' => if x =? c then Some s' else None
  | [] => None
  end.

(** [(\d{2})] at the head: [parseInt] of the group, and the rest. *)
Definition digits2 (s : jsstring) : option (Z * jsstring) :=
  match s with
  | a :: b :: s' =>
      if is_digit a && is_digit b then Some ((a - 48) * 10 + (b - 48), s') else None
  | _ => None
  end.

(** [(\d{3})] at the head. *)
Definition digits3 (s : jsstring) : option (Z * jsstring) :=
  match s with
  | a :: b :: c :: s' =>
      if is_digit a && is_digit b && is_digit c
      then Some ((a - 48) * 100 + (b - 48) * 10 + (c - 48), s') else None
  | _ => None
  end.

End Re.

(** ** vtt-parser.js *)

Module VTT.
Import Re.

Record Cue := { start : float; end_ : float; text : jsstring }.

(** [\d{2}:\d{2}\.\d{3}] with the hours group [h] already decided. *)
Definition minSecMs (h : option Z) (s : jsstring)
  : option (option Z * Z * Z * Z * jsstring) :=
  '(m, s) ← digits2 s; s ← expect 58 s;
  '(sec, s) ← digits2 s; s ← expect 46 s;
  '(ms, s) ← digits3 s;
  Some (h, m, sec, ms, s).

(** [(?:(\d{2}):)?(\d{2}):(\d{2})\.(\d{3})]: the optional group is tried
    first, then skipped. After [dd:dd] the next code unit is [:] in the first
    case and [.] in the second, so at most one of the two matches and the rest
    of the expression cannot make the matcher come back. *)
Definition timestamp (s : jsstring) : option (option Z * Z * Z * Z * jsstring) :=
  match ('(h, s') ← digits2 s; s' ← expect 58 s'; minSecMs (Some h) s') with
  | Some r => Some r
  | None => minSecMs None s
  end.

Definition toSeconds (h : option Z) (m s ms : Z) : float :=
  ((match h with Some h => float_of_Z h * 3600 | None => 0 end
    + float_of_Z m * 60) + float_of_Z s + float_of_Z ms / 1000)%float.

(** [timeLine.match(timeRegex)], giving [start] and [end]. *)
Definition matchTime (line : jsstring) : option (float * float) :=
  '(h1, m1, s1, ms1, s) ← timestamp line;
  s ← expect 45 (trimStart s); s ← expect 45 s; s ← expect 62 s;
  '(h2, m2, s2, ms2, _) ← timestamp (trimStart s);
  Some (toSeconds h1 m1 s1 ms1, toSeconds h2 m2 s2 ms2).

(** [\d{2}(:\d{2}){1,2}\.\d{3}] of the header-skipping test: two repetitions
    first, then one. *)
Definition timestampTest (s : jsstring) : option jsstring :=
  '(_, s) ← digits2 s; s ← expect 58 s; '(_, s) ← digits2 s;
  match (s' ← expect 58 s; '(_, s') ← digits2 s'; s' ← expect 46 s';
         '(_, s') ← digits3 s'; Some s') with
  | Some r => Some r
  | None => s ← expect 46 s; '(_, s) ← digits3 s; Some s
  end.

Definition testTime (line : jsstring) : bool :=
  bool_decide (is_Some (
    s ← timestampTest line;
    s ← expect 45 (trimStart s); s ← expect 45 s; s ← expect 62 s;
    timestampTest (trimStart s))).

(** The first [while]: skip the lines before the first timing line. *)
Fixpoint skipHeader (lines : list jsstring) : list jsstring :=
  match lines with
  | [] => []
  | l :: lines' => if testTime l then lines else skipHeader lines'
  end.

(** The cue that the text lines of one timing line give, if any. *)
Definition pushCue (start end_ : float) (textLines : list jsstring) : list Cue :=
  let text := trim (replace_ws_runs false (join_space textLines)) in
  match text with
  | [] => []
  | _ => [{| start := start; end_ := end_; text := text |}]
  end.

(** The inner [while] of the cue loop, over the lines that follow a timing
    line: it gathers the trimmed lines up to the first blank one, pushes the
    cue, and goes on after the blank line with [next], the outer loop. *)
Section CollectText.
Variable next : list jsstring -> list Cue.
Variables start end_ : float.

Fixpoint collectText (textLines : list jsstring) (lines : list jsstring) : list Cue :=
  match lines with
  | [] => pushCue start end_ textLines
  | l :: lines' =>
      match trim l with
      | [] => pushCue start end_ textLines ++ next lines'
      | t => collectText (textLines ++ [t]) lines'
      end
  end.

End CollectText.

(** The second [while]: [lines] are the lines from index [i] on. *)
Fixpoint parseCues (lines : list jsstring) : list Cue :=
  match lines with
  | [] => []
  | timeLine :: lines' =>
      match matchTime timeLine with
      | None => parseCues lines'
      | Some (start, end_) => collectText parseCues start end_ [] lines'
      end
  end.

Definition parseVTT (vttContent : jsstring) : list Cue :=
  parseCues (skipHeader (split_lines vttContent)).

End VTT.

(** ** titling-engine.js *)

Module Titling.
Import Re.

Definition MAX_LINES : nat := 2.
Definition CHARS_PER_LINE : nat := 38.

Record Segment := { start : float; end_ : float; lines : list jsstring }.

(** [text.split(/\s+/).filter(Boolean)] *)
Definition words (text : jsstring) : list jsstring :=
  filter (fun w => w ≠ []) (split_ws text).

(** One turn of the loop of [wrapLines], on the pair of [line] and [result]. *)
Definition wrapStep (maxChars : nat) (st : jsstring * list jsstring) (word : jsstring)
  : jsstring * list jsstring :=
  let '(line, result) := st in
  let next := match line with [] => word | _ => line ++ [0x20] ++ word end in
  if bool_decide (length next ≤ maxChars)%nat then (next, result)
  else
    (if bool_decide (length word ≤ maxChars)%nat then word else take maxChars word,
     match line with [] => result | _ => result ++ [line] end).

Definition wrapLines (text : jsstring) (maxChars : nat) : list jsstring :=
  let '(line, result) := foldl (wrapStep maxChars) ([], []) (words text) in
  match line with [] => result | _ => result ++ [line] end.

(** The first loop of [cueToSegments]: the lines of each segment. *)
Definition chunkLines (allLines : list jsstring) : list (list jsstring) :=
  map (fun k => map (take CHARS_PER_LINE)
                    (slice (k * MAX_LINES) (k * MAX_LINES + MAX_LINES) allLines))
      (seq 0 ((length allLines + 1) / 2)).

(** The timing loop: [elapsed] is the start of the next segment. *)
Fixpoint layOut (duration : float) (totalChars : nat) (elapsed : float)
    (chunks : list (list jsstring)) : list Segment :=
  match chunks with
  | [] => []
  | chunk :: chunks' =>
      let segChars := length (join_empty chunk) in
      let segDuration :=
        (duration * (float_of_nat segChars / float_of_nat totalChars))%float in
      {| start := elapsed; end_ := (elapsed + segDuration)%float; lines := chunk |}
        :: layOut duration totalChars (elapsed + segDuration)%float chunks'
  end.

Definition cueToSegments (cue : VTT.Cue) : list Segment :=
  let start := VTT.start cue in
  let end_ := VTT.end_ cue in
  let duration := (end_ - start)%float in
  let allLines := wrapLines (VTT.text cue) CHARS_PER_LINE in
  match chunkLines allLines with
  | [] => []
  | [chunk] => [{| start := start; end_ := end_; lines := chunk |}]
  | chunks =>
      let totalChars := length (join_empty allLines) in
      let segments := layOut duration totalChars start chunks in
      alter (fun s => {| start := Titling.start s; end_ := end_; lines := lines s |})
            (length segments - 1)%nat segments
  end.

Definition cuesToSegments (cues : list VTT.Cue) : list Segment :=
  foldl (fun out cue => out ++ cueToSegments cue) [] cues.

End Titling.

(** ** vtt-titling-server.js: the scheduler and the HTTP handler *)

Module Server.

Definition GAP_BEFORE_CLEAR_S : float := 2%float.

(** The module-level variables. [tickTimer] is [true] while the interval
    timer is set. *)
Record State := {
  segments : list Titling.Segment;
  lastShownSegmentIndex : Z;
  tickTimer : bool;
  timeMode : string;
  autonomousStartAt : float;
  autonomousStartWall : float
}.

Definition initial : State :=
  {| segments := []; lastShownSegmentIndex := -1; tickTimer := false;
     timeMode := "osc"; autonomousStartAt := 0%float; autonomousStartWall := 0%float |}.

(** The calls made on the Caspar client. *)
Inductive Command :=
| clearTitle
| sendTitle (lines : list jsstring).

(** What the outside gives during one call: [Date.now()], the reading of the
    OSC time source ([None] for [null]) and [fs.readFile]. *)
Record World := {
  now : float;
  oscTime : option float;
  readFile : jsstring -> result jsstring
}.

Definition setLastShown (st : State) (i : Z) : State :=
  {| segments := segments st; lastShownSegmentIndex := i; tickTimer := tickTimer st;
     timeMode := timeMode st; autonomousStartAt := autonomousStartAt st;
     autonomousStartWall := autonomousStartWall st |}.

Definition getCurrentTime (st : State) (w : World) : option float :=
  if bool_decide (timeMode st = "autonomous"%string)
  then Some (autonomousStartAt st + (now w - autonomousStartWall st) / 1000)%float
  else oscTime w.

(** The index of the first segment with [t >= start && t < end], or -1. *)
Fixpoint findCurrent (t : float) (i : Z) (segs : list Titling.Segment) : Z :=
  match segs with
  | [] => -1
  | s :: segs' =>
      if PrimFloat.leb (Titling.start s) t && PrimFloat.ltb t (Titling.end_ s)
      then i else findCurrent t (i + 1) segs'
  end.

(** [segments.find((s) => s.start > t)?.start] *)
Fixpoint nextSegmentStart (t : float) (segs : list Titling.Segment) : option float :=
  match segs with
  | [] => None
  | s :: segs' =>
      if PrimFloat.ltb t (Titling.start s) then Some (Titling.start s)
      else nextSegmentStart t segs'
  end.

Definition tick (st : State) (w : World) : State * list Command :=
  match getCurrentTime st w with
  | None => (st, [])
  | Some t =>
      match segments st with
      | [] =>
          if bool_decide (0 <= lastShownSegmentIndex st)
          then (setLastShown st (-1), [clearTitle])
          else (st, [])
      | _ =>
          let currentIndex := findCurrent t 0 (segments st) in
          if bool_decide (0 <= currentIndex) then
            if bool_decide (currentIndex ≠ lastShownSegmentIndex st) then
              match segments st !! Z.to_nat currentIndex with
              | Some seg => (setLastShown st currentIndex, [sendTitle (Titling.lines seg)])
              | None => (st, [])
              end
            else (st, [])
          else
            let gapToNext :=
              match nextSegmentStart t (segments st) with
              | Some nextStart => (nextStart - t)%float
              | None => infinity
              end in
            if bool_decide (0 <= lastShownSegmentIndex st) then
              if PrimFloat.ltb GAP_BEFORE_CLEAR_S gapToNext
              then (setLastShown st (-1), [clearTitle])
              else (st, [])
            else (st, [])
      end
  end.

Definition startTitling (st : State) : State :=
  {| segments := segments st; lastShownSegmentIndex := lastShownSegmentIndex st;
     tickTimer := true; timeMode := timeMode st;
     autonomousStartAt := autonomousStartAt st;
     autonomousStartWall := autonomousStartWall st |}.

Definition stopTitling (st : State) : State * list Command :=
  ({| segments := segments st; lastShownSegmentIndex := -1; tickTimer := false;
      timeMode := timeMode st; autonomousStartAt := autonomousStartAt st;
      autonomousStartWall := autonomousStartWall st |}, [clearTitle]).

(** A value of [JSON.parse]; an object is the list of its own properties, each
    key once. *)
Inductive json :=
| JNull
| JBool (b : bool)
| JNum (x : float)
| JStr (s : jsstring)
| JArr (items : list json)
| JObj (fields : list (jsstring * json)).

Definition lookupField (key : jsstring) (fields : list (jsstring * json)) : option json :=
  snd <$> find (fun kv => bool_decide (kv.1 = key)) fields.

(** [data.key]: [None] for [undefined]; reading a property of [null] throws. *)
Definition getProp (key : jsstring) (data : json) : result (option json) :=
  match data with
  | JNull => Throws "TypeError: Cannot read properties of null"
  | JObj fields => Ok (lookupField key fields)
  | _ => Ok None
  end.

(** [a ?? b] on a property that was read. *)
Definition nullish (a b : option json) : option json :=
  match a with
  | None | Some JNull => b
  | _ => a
  end.

(** [v === undefined] and [v === "s"] on a property that was read. *)
Definition isUndefined (v : option json) : bool :=
  match v with None => true | Some _ => false end.
Definition isString (s : jsstring) (v : option json) : bool :=
  match v with
  | Some (JStr s') => bool_decide (s' = s)
  | _ => false
  end.

(** What [loadVTT] returns. *)
Record Loaded := {
  loaded_cues : nat;
  loaded_segments : nat;
  loaded_timeMode : string;
  loaded_startAt : option float
}.

(** [timeModeOpt] and [startAtOpt] are the fields of [options]; a rejected
    [readFile] rejects the call before any variable is written. *)
Definition loadVTT (st : State) (w : World) (vttPath : jsstring)
    (timeModeOpt : option json) (startAtOpt : option float) : result (State * Loaded) :=
  bind (readFile w vttPath)
       (fun content =>
          let cues := VTT.parseVTT content in
          let segments := Titling.cuesToSegments cues in
          let timeMode :=
            if isString (lit "autonomous") timeModeOpt
            then "autonomous"%string else "osc"%string in
          let autonomous := bool_decide (timeMode = "autonomous"%string) in
          let startAt :=
            if autonomous then default 0%float startAtOpt else autonomousStartAt st in
          let st' :=
            startTitling
              {| segments := segments; lastShownSegmentIndex := -1;
                 tickTimer := tickTimer st; timeMode := timeMode;
                 autonomousStartAt := startAt;
                 autonomousStartWall :=
                   if autonomous then now w else autonomousStartWall st |} in
          Ok (st', {| loaded_cues := length cues; loaded_segments := length segments;
                      loaded_timeMode := timeMode;
                      loaded_startAt := if autonomous then Some startAt else None |})).

(** The request once its URL is parsed and its body read: the method, the
    path of the URL and [JSON.parse(body || '{}')], [None] when that throws. *)
Record Request := {
  method : string;
  pathname : string;
  parsedBody : option json
}.

(** The JSON document of a response. *)
Inductive Body :=
| ErrorBody (error : jsstring)
| LoadedBody (loaded : Loaded)
| StoppedBody.

Record Response := { statusCode : Z; body : Body }.

Definition respond (st : State) (code : Z) (b : Body)
  : State * list Command * result Response :=
  (st, [], Ok {| statusCode := code; body := b |}).

(** The message about a bad [timeMode]; 34 is the double quote. *)
Definition timeModeError : jsstring :=
  lit "timeMode must be " ++ [34] ++ lit "osc" ++ [34] ++ lit " or "
  ++ [34] ++ lit "autonomous" ++ [34].

(** The routes of the handler of [http.createServer], from its second
    statement on: [req] holds the pathname that [new URL] gave and, for a
    request to start titling, the parsed body. An exception that escapes
    leaves the request without a response. *)
Definition handle (st : State) (w : World) (req : Request)
  : State * list Command * result Response :=
  if bool_decide (method req = "POST"%string)
     && (bool_decide (pathname req = "/titling"%string)
         || bool_decide (pathname req = "/titling/"%string))
  then
    match parsedBody req with
    | None => respond st 400 (ErrorBody (lit "Invalid JSON"))
    | Some data =>
        match getProp (lit "vttPath") data, getProp (lit "path") data,
              getProp (lit "timeMode") data, getProp (lit "startAt") data with
        | Ok vttPath0, Ok path, Ok timeModeOpt, Ok startAt =>
            match nullish vttPath0 path with
            | Some (JStr (c :: p)) =>
                let vttPath := c :: p in
                if negb (isUndefined timeModeOpt)
                   && negb (isString (lit "osc") timeModeOpt)
                   && negb (isString (lit "autonomous") timeModeOpt)
                then respond st 400 (ErrorBody timeModeError)
                else
                  match loadVTT st w vttPath timeModeOpt
                          (match startAt with Some (JNum x) => Some x | _ => None end) with
                  | Ok (st', result) => respond st' 200 (LoadedBody result)
                  | Throws message => respond st 400 (ErrorBody (lit message))
                  end
            | _ => respond st 400 (ErrorBody (lit "Missing vttPath"))
            end
        | _, _, _, _ => (st, [], Throws "TypeError: Cannot read properties of null")
        end
    end
  else if (bool_decide (method req = "POST"%string)
           || bool_decide (method req = "DELETE"%string))
          && bool_decide (pathname req = "/titling/stop"%string)
  then
    let '(st', cmds) := stopTitling st in
    (st', cmds, Ok {| statusCode := 200; body := StoppedBody |})
  else respond st 404 (ErrorBody (lit "Not found")).

(** The request as it arrives. [url] is the outcome of the handler's first
    statement, [new URL(req.url || '', `http://${req.headers.host}`)]: the
    pathname, or the TypeError of an invalid URL. [readBody] is the outcome
    of reading the chunks of the body, which fails when the stream does, and
    of [JSON.parse]. *)
Record IncomingMessage := {
  im_method : string;
  im_url : result string;
  im_readBody : result (option json)
}.

(** The whole handler: neither the URL nor the reading of the body is inside
    a [try], and the body is read on the route that starts titling only. *)
Definition requestListener (st : State) (w : World) (req : IncomingMessage)
  : State * list Command * result Response :=
  match im_url req with
  | Throws error => (st, [], Throws error)
  | Ok pathname =>
      if bool_decide (im_method req = "POST"%string)
         && (bool_decide (pathname = "/titling"%string)
             || bool_decide (pathname = "/titling/"%string))
      then
        match im_readBody req with
        | Throws error => (st, [], Throws error)
        | Ok parsedBody =>
            handle st w {| method := im_method req; pathname := pathname;
                           parsedBody := parsedBody |}
        end
      else
        handle st w {| method := im_method req; pathname := pathname;
                       parsedBody := None |}
  end.

End Server.

(** ** osc-time-source.js *)

Module OSC.

Definition DEFAULT_TIME_ADDRESS : jsstring :=
  lit "/channel/1/stage/layer/1/foreground/file/time".

(** A JavaScript value as the receiver tells them apart: a number, a string,
    or anything else ([null], [undefined], an object, ...). *)
Inductive Value :=
| VNumber (x : float)
| VString (s : jsstring)
| VOther.

(** [s.replace(/\/+$/, '')]: the string without its trailing slashes. *)
Definition stripSlashes (s : jsstring) : jsstring :=
  foldr (fun c acc =>
           match acc with
           | [] => if c =? 47 then [] else [c]
           | _ => c :: acc
           end) [] s.

(** [a.endsWith(b)] *)
Definition endsWith (a b : jsstring) : bool :=
  bool_decide (length b ≤ length a)%nat
  && bool_decide (drop (length a - length b) a = b).

(** The variables that the closures of [createOSCTimeSource] share. *)
Record Source := {
  timeAddressNorm : jsstring;
  matchBySuffix : bool;
  currentTimeSeconds : option float
}.

(** [timeAddress] is the address after the defaults: the option, else the
    environment variable, else [DEFAULT_TIME_ADDRESS]. *)
Definition createOSCTimeSource (timeAddress : jsstring) : Source :=
  let timeAddressNorm := stripSlashes timeAddress in
  {| timeAddressNorm := timeAddressNorm;
     matchBySuffix := endsWith timeAddressNorm (lit "/time");
     currentTimeSeconds := None |}.

Definition addressMatches (src : Source) (addr : Value) : bool :=
  match addr with
  | VString (c :: s) =>
      let a := stripSlashes (c :: s) in
      bool_decide (a = timeAddressNorm src)
      || (matchBySuffix src && endsWith a (lit "/time"))
      || endsWith a (timeAddressNorm src)
  | _ => false
  end.

(** An element of [el.args]: a plain value, or an object with its [value]
    property ([None] when it has none or it is [undefined]). *)
Inductive Arg :=
| ArgValue (v : Value)
| ArgObject (value : option Value).

(** [a && a.value !== undefined ? a.value : a] *)
Definition argValue (a : Arg) : Value :=
  match a with
  | ArgValue v => v
  | ArgObject (Some v) => v
  | ArgObject None => VOther
  end.

(** An element of a bundle: an array, an object with a string [address] and
    an array [args], or anything else. *)
Inductive Element :=
| ElArray (msg : list Value)
| ElMessage (address : jsstring) (args : list Arg)
| ElOther.

Section WithParseFloat.

(** The global [parseFloat]. *)
Variable parseFloat : jsstring -> float.

Definition parseTimeArg (v : Value) : option float :=
  match v with
  | VNumber x => if PrimFloat.is_nan x then None else Some x
  | VString s =>
      let n := parseFloat s in
      if PrimFloat.is_nan n then None else Some n
  | VOther => None
  end.

(** [msg] is the array of the message: the address, then the arguments. *)
Definition handleMessage (src : Source) (msg : list Value) : Source :=
  let address := default VOther (msg !! 0%nat) in
  if negb (addressMatches src address) then src
  else
    match msg !! 1%nat with
    | Some arg =>
        match parseTimeArg arg with
        | Some v =>
            {| timeAddressNorm := timeAddressNorm src;
               matchBySuffix := matchBySuffix src;
               currentTimeSeconds := Some v |}
        | None => src
        end
    | None => src
    end.

(** The handler of a bundle, on [bundle.elements || []]. *)
Definition handleBundle (src : Source) (elements : list Element) : Source :=
  foldl (fun src el =>
           match el with
           | ElArray msg => handleMessage src msg
           | ElMessage address args =>
               handleMessage src ([VString address] ++ map argValue args)
           | ElOther => src
           end)
        src elements.

Definition getTime (src : Source) : option float := currentTimeSeconds src.

End WithParseFloat.

End OSC.

(** ** caspar-client.js *)

Module Caspar.

(** The private fields that the two sending methods read. [socket] is [None]
    for [null], else whether the socket is destroyed. The field [#encoder] is
    [new WSTEncoder()], which depends on the environment [env] only. *)
Record CasparClient := {
  channelLayer : jsstring;
  socket : option bool;
  env : WST.Env
}.

Definition encoder (this : CasparClient) : WST.WSTEncoder := WST.new_WSTEncoder (env this).

Definition connected (this : CasparClient) : bool :=
  match socket this with
  | Some destroyed => negb destroyed
  | None => false
  end.

Section WithCodec.
Context `{ParityCodec}.

(** [Buffer.from(data).toString('base64')] *)
Variable base64 : list Z -> jsstring.

(** The AMCP line for the packets. *)
Definition applyCommand (this : CasparClient) (packets : list (list Z)) : jsstring :=
  let payload := Re.join_space (map base64 packets) in
  lit "APPLY " ++ channelLayer this ++ lit " OP47 " ++ payload ++ [13; 10].

(** What a call writes to the socket, if anything. *)
Definition sendTitle (this : CasparClient) (lines : list jsstring)
  : result (option jsstring) :=
  if negb (connected this) then Ok None
  else
    bind (WST.encodeSubtitle (encoder this) (Some lines) None)
         (fun packets => Ok (Some (applyCommand this packets))).

Definition clearTitle (this : CasparClient) : result (option jsstring) :=
  if negb (connected this) then Ok None
  else
    bind (WST.encodeSubtitle (encoder this) (Some []) None)
         (fun packets => Ok (Some (applyCommand this packets))).

(** A call that the scheduler makes on the client. *)
Definition perform (this : CasparClient) (cmd : Server.Command)
  : result (option jsstring) :=
  match cmd with
  | Server.clearTitle => clearTitle this
  | Server.sendTitle lines => sendTitle this lines
  end.

End WithCodec.

End Caspar.

(** * Properties *)

(** ** Loops that push onto an array *)

Lemma foldl_push_concat {A B} (f : A → list B) (l : list A) : ∀ init,
  foldl (fun r x => r ++ f x) init l = init ++ concat (map f l).
Proof.
  induction l as [|x l IH]; intros init; simpl.
  - by rewrite app_nil_r.
  - by rewrite IH, <- app_assoc.
Qed.

Lemma foldl_push_map {A B} (f : A → B) (l : list A) : ∀ init,
  foldl (fun r x => r ++ [f x]) init l = init ++ map f l.
Proof.
  induction l as [|x l IH]; intros init; simpl.
  - by rewrite app_nil_r.
  - by rewrite IH, <- app_assoc.
Qed.

Lemma map_const_seq {B} (f : nat → B) (y : B) : ∀ k j,
  (∀ i, i ∈ seq j k → f i = y) → map f (seq j k) = replicate k y.
Proof.
  induction k as [|k IH]; intros j Hf; simpl; [done|].
  rewrite Hf by (apply elem_of_seq; lia). f_equal. apply IH.
  intros i Hi. apply Hf. apply elem_of_seq in Hi. apply elem_of_seq. lia.
Qed.

(** ** The X/26 enhancement encoder *)

(** ** Bit fields *)

Lemma land_shiftl_disjoint (a b k : Z) :
  0 ≤ k → 0 ≤ a < 2 ^ k → Z.land a (Z.shiftl b k) = 0.
Proof.
  intros Hk Ha. apply Z.bits_inj'. intros n Hn.
  rewrite Z.land_spec, Z.bits_0.
  destruct (Z.lt_ge_cases n k) as [Hlt|Hge].
  - by rewrite (Z.shiftl_spec_low b k n), andb_false_r.
  - assert (Z.testbit a n = false) as ->; [|done].
    apply Z.testbit_false; [done|].
    rewrite Z.div_small; [done|]. split; [lia|].
    apply Z.lt_le_trans with (2 ^ k); [lia|]. apply Z.pow_le_mono_r; lia.
Qed.

Lemma lor_shiftl_add (a b k : Z) :
  0 ≤ k → 0 ≤ a < 2 ^ k → Z.lor a (Z.shiftl b k) = a + b * 2 ^ k.
Proof.
  intros Hk Ha. rewrite <- (Z.shiftl_mul_pow2 b k) by done.
  rewrite <- (Z.add_lor_land a (Z.shiftl b k)).
  rewrite land_shiftl_disjoint by done. lia.
Qed.

Lemma land_mask_range (x k : Z) : 0 ≤ k → 0 ≤ Z.land x (bitmask k) < 2 ^ k.
Proof.
  intros Hk. unfold bitmask. rewrite Z.shiftl_1_l.
  change (2 ^ k - 1) with (Z.pred (2 ^ k)). rewrite <- Z.ones_equiv.
  rewrite Z.land_ones by done. apply Z.mod_pos_bound. by apply Z.pow_pos_nonneg.
Qed.

Module X26Facts.
Import X26.

(** The mapped characters of a row from column [col] on: column and entry,
    in column order. *)
Fixpoint mappedFrom (m : gmap jsstring Entry) (col : nat) (row : list jsstring)
  : list (nat * Entry) :=
  match row with
  | [] => []
  | ch :: row' =>
      match m !! ch with
      | Some e => (col, e) :: mappedFrom m (S col) row'
      | None => mappedFrom m (S col) row'
      end
  end.
Definition mappedColumns (m : gmap jsstring Entry) (row : list jsstring) :=
  mappedFrom m 0 row.

Definition diacriticIndexOf (e : Entry) : Z :=
  default (diacritic e) (caronDiacriticIndex e).

Definition setActivePosition (rowLocation : Z) : Triplet :=
  {| mode := 0x04;
     address := if bool_decide (rowLocation = 24) then 40 else 40 + rowLocation;
     data := 0 |}.

(** The termination markers that pad a packet: data 0x00, the last one 0xFF. *)
Definition terminationFillers (n : nat) : list Triplet :=
  match n with
  | O => []
  | S k => replicate k {| mode := 0x1F; address := 0x3F; data := 0x00 |}
           ++ [{| mode := 0x1F; address := 0x3F; data := 0xFF |}]
  end.

(** The row "Loď čeří" framed as a display row. *)
Definition sampleBoxedRow : jsstring :=
  [0x0b; 0x0b] ++ lit "Lo" ++ [0x10F] ++ lit " " ++ [0x10D] ++ lit "e" ++ [0x159; 0xED].

(** The table that [buildCzechMap] returns when it returns one: the default
    set stands in for a variant that names no set. *)
Definition czechTable (opts : Opts) : gmap jsstring Entry :=
  czechMapWith (default "compose"%string (opts_caronEncoding opts))
               (Z.max 1 (Z.min 15 (default 15 (opts_caronDiacriticIndex opts))))
               (default G2_default (G2_CARON_SETS !! default "default"%string (opts_g2Variant opts))).

(** The encoder that [new X26Encoder(opts)] returns when it returns one. *)
Definition builtEncoder (opts : Opts) : X26Encoder :=
  {| enhancements := []; packets := None; czechMap := czechTable opts |}.

Lemma buildCzechMap_Ok (opts : Opts) (m : gmap jsstring Entry) :
  buildCzechMap opts = Ok m → m = czechTable opts.
Proof.
  unfold buildCzechMap, czechTable, g2SetFor. cbv zeta.
  destruct (G2_CARON_SETS !! _) as [g2Set|]; cbn [default]; [by intros [= <-]|].
  case_bool_decide; [|by intros [= <-]].
  case_bool_decide; [done|by intros [= <-]].
Qed.

(** The names of the four sets are no inherited names. *)
Lemma G2_CARON_SETS_own (g2Variant : string) :
  is_Some (G2_CARON_SETS !! g2Variant) → g2Variant ∉ Object_prototype_keys.
Proof.
  intros [g2Set Hv]. unfold G2_CARON_SETS in Hv.
  repeat (apply lookup_insert_Some in Hv as [[<- _]|[_ Hv]];
          [unfold Object_prototype_keys;
           intros Hin; repeat (apply elem_of_cons in Hin as [?|Hin]; [done|]);
           by apply elem_of_nil in Hin|]).
  by rewrite lookup_empty in Hv.
Qed.

(** [buildCzechMap] throws exactly when the carons are asked in G2 and the
    variant is an inherited name; otherwise it returns [czechTable]. *)
Lemma buildCzechMap_cases (opts : Opts) :
  let rejected := default "compose"%string (opts_caronEncoding opts) = "g2"%string
                  ∧ default "default"%string (opts_g2Variant opts) ∈ Object_prototype_keys in
  (rejected
   ∧ buildCzechMap opts = Throws "TypeError: Cannot read properties of undefined")
  ∨ (¬ rejected ∧ buildCzechMap opts = Ok (czechTable opts)).
Proof.
  cbv zeta. unfold buildCzechMap, czechTable, g2SetFor. cbv zeta.
  destruct (G2_CARON_SETS !! _) as [g2Set|] eqn:Hv; cbn [default].
  - right. split; [|done]. intros [_ Hin].
    by apply (G2_CARON_SETS_own _ (mk_is_Some _ _ Hv)).
  - case_bool_decide as Hin; [|right; split; [by intros [_ ?]|done]].
    case_bool_decide as Henc; [by left|]. right. split; [by intros [? _]|done].
Qed.

Lemma buildCzechMap_no_opts : buildCzechMap no_opts = Ok (czechTable no_opts).
Proof. reflexivity. Qed.

Lemma new_X26Encoder_no_opts : new_X26Encoder no_opts = Ok (builtEncoder no_opts).
Proof. reflexivity. Qed.

Lemma elem_of_mappedFrom m row : ∀ col c e,
  (c, e) ∈ mappedFrom m col row ↔
  ∃ ch, (col ≤ c)%nat ∧ row !! (c - col)%nat = Some ch ∧ m !! ch = Some e.
Proof.
  induction row as [|x row IH]; intros col c e; simpl.
  - split; [by intros ?%elem_of_nil|]. by intros (? & _ & ? & _).
  - assert (Hrec : (c, e) ∈ mappedFrom m (S col) row ↔
             ∃ ch, (col < c)%nat ∧ row !! (c - S col)%nat = Some ch ∧ m !! ch = Some e).
    { rewrite IH. split; intros (ch & ? & ? & ?); exists ch; split_and!; auto; lia. }
    destruct (m !! x) as [e0|] eqn:Hx.
    + rewrite elem_of_cons, Hrec. split.
      * intros [[= -> ->]|(ch & ? & Hl & ?)].
        -- exists x. rewrite Nat.sub_diag. auto.
        -- exists ch. split_and!; [lia| |done].
           replace (c - col)%nat with (S (c - S col)) by lia. done.
      * intros (ch & Hle & Hl & Hm).
        destruct (decide (c = col)) as [->|Hne].
        -- rewrite Nat.sub_diag in Hl. simpl in Hl. left. congruence.
        -- right. exists ch. split_and!; [lia| |done].
           replace (c - col)%nat with (S (c - S col)) in Hl by lia. done.
    + rewrite Hrec. split.
      * intros (ch & ? & Hl & ?). exists ch. split_and!; [lia| |done].
        replace (c - col)%nat with (S (c - S col)) by lia. done.
      * intros (ch & Hle & Hl & Hm).
        destruct (decide (c = col)) as [->|Hne].
        -- rewrite Nat.sub_diag in Hl. simpl in Hl. congruence.
        -- exists ch. split_and!; [lia| |done].
           replace (c - col)%nat with (S (c - S col)) in Hl by lia. done.
Qed.

Lemma mappedColumns_lookup m row c e :
  (c, e) ∈ mappedColumns m row ↔ ∃ ch, row !! c = Some ch ∧ m !! ch = Some e.
Proof.
  unfold mappedColumns. rewrite elem_of_mappedFrom. rewrite Nat.sub_0_r.
  split; intros (ch & H); exists ch; [tauto|]. split; [lia|done].
Qed.

Lemma mappedFrom_sorted m row : ∀ col,
  StronglySorted lt (map fst (mappedFrom m col row))
  ∧ Forall (fun c => (col ≤ c)%nat) (map fst (mappedFrom m col row)).
Proof.
  induction row as [|x row IH]; intros col; simpl; [by split; constructor|].
  destruct (IH (S col)) as [Hsorted Hge].
  assert (Hge' : Forall (fun c => (col < c)%nat) (map fst (mappedFrom m (S col) row)))
    by (eapply Forall_impl; [exact Hge|]; simpl; lia).
  destruct (m !! x); simpl.
  - split; constructor; try done.
    eapply Forall_impl; [exact Hge'|]. simpl. lia.
  - split; [done|]. eapply Forall_impl; [exact Hge'|]. simpl. lia.
Qed.

Lemma encodeRow_loop_enhancements m rl row : ∀ col first enh,
  (encodeRow_loop m rl col row first enh).2 =
  enh ++ (if first then match mappedFrom m col row with
                        | [] => []
                        | _ => [setActivePosition rl]
                        end
          else [])
      ++ map (fun ce => charTriplet ce.2 ce.1) (mappedFrom m col row).
Proof.
  induction row as [|x row IH]; intros col first enh; simpl.
  - destruct first; by rewrite !app_nil_r.
  - destruct (m !! x) as [e|] eqn:Hx.
    + destruct (encodeRow_loop m rl (S col) row false _) as [out enh'] eqn:Hl.
      apply (f_equal snd) in Hl. rewrite IH in Hl. simpl in *. subst enh'.
      destruct first; simpl; by rewrite <- !app_assoc.
    + destruct (encodeRow_loop m rl (S col) row first enh) as [out enh'] eqn:Hl.
      apply (f_equal snd) in Hl. rewrite IH in Hl. simpl in *. by subst enh'.
Qed.

(** Case analysis on a successful lookup [Hl] in the table: one goal per
    letter, left to [tac]. *)
Ltac czech_cases Hl tac :=
  unfold czechTable, czechMapWith in Hl; cbv zeta in Hl;
  set (enc := default _ (opts_caronEncoding _)) in Hl;
  set (i := Z.max 1 _) in Hl;
  set (gs := default G2_default _) in Hl;
  assert (Hi : 1 ≤ i ≤ 15) by lia;
  clearbody enc i gs;
  cbv [setCarons foldl acuteRing CARON_LETTERS CARON_LETTERS_UC] in Hl;
  repeat (apply lookup_insert_Some in Hl as [[<- <-]|[_ Hl]]; [tac|]);
  by rewrite lookup_empty in Hl.

(** Every entry of the table: the key is one code unit above ASCII, the base
    one ASCII letter, and the diacritic indices are in 1..15. *)
Lemma buildCzechMap_entry opts ch e :
  czechTable opts !! ch = Some e →
  ∃ u b, ch = [u] ∧ 0xC1 ≤ u ≤ 0x17E
         ∧ base e = [b] ∧ 0x41 ≤ b ≤ 0x7A
         ∧ 1 ≤ diacriticIndexOf e ≤ 15
         ∧ 2 ≤ diacritic e ≤ 15.
Proof.
  intros Hl.
  czech_cases Hl
    ltac:(vm_compute (base _); unfold diacriticIndexOf; simpl;
          unfold DiacriticIndex_Caron, DiacriticIndex_Acute, DiacriticIndex_Ring;
          do 2 eexists; split; [reflexivity|]; split; [lia|];
          split; [reflexivity|lia]).
Qed.

(** The row that [encodeRow] returns keeps the unmapped characters and has the
    cell of the entry at the mapped ones. *)
Lemma encodeRow_loop_row m rl row : ∀ col first enh,
  (encodeRow_loop m rl col row first enh).1 =
  map (fun ch => match m !! ch with Some e => rowCell e | None => ch end) row.
Proof.
  induction row as [|x row IH]; intros col first enh; simpl; [done|].
  destruct (m !! x) as [e|] eqn:Hx.
  - destruct (encodeRow_loop m rl (S col) row false _) as [out enh'] eqn:Hl.
    apply (f_equal fst) in Hl. rewrite IH in Hl. simpl in *. by subst out.
  - destruct (encodeRow_loop m rl (S col) row first enh) as [out enh'] eqn:Hl.
    apply (f_equal fst) in Hl. rewrite IH in Hl. simpl in *. by subst out.
Qed.

Lemma charTriplet_mode_not_SetActivePosition opts ch e c :
  czechTable opts !! ch = Some e → mode (charTriplet e c) ≠ 0x04.
Proof.
  intros (u & b & _ & _ & _ & _ & Hi & Hd)%buildCzechMap_entry.
  unfold charTriplet, diacriticIndexOf, Mode_DiacriticBase, Mode_G2Character in *.
  destruct (useCompose e); [simpl; lia|].
  destruct (g2 e); simpl; lia.
Qed.

(** C1. For a row with at least one character of the composition table and
    a row location in 1..24, [encodeRow] pushes exactly one SetActivePosition
    triplet (mode 0x04, data 0, address 40 for row 24 and 40 + row otherwise)
    and then, in column order, one triplet per mapped character, whose address
    is the 0-based column; when the entry is composed its mode is
    0x11 + (diacritic index - 1) and its data the 7-bit ASCII code of the base
    letter. *)
Theorem encodeRow_pushes_position_then_one_triplet_per_mapped_column
    (opts : Opts) (this : X26Encoder) (str : jsstring) (rowLocation : Z) :
  buildCzechMap opts = Ok (czechMap this) →
  1 ≤ rowLocation ≤ 24 →
  (∃ ch, ch ∈ Array_from str ∧ is_Some (czechMap this !! ch)) →
  let mapped := mappedColumns (czechMap this) (Array_from str) in
  (∀ c e, (c, e) ∈ mapped ↔
          ∃ ch, Array_from str !! c = Some ch ∧ czechMap this !! ch = Some e)
  ∧ StronglySorted lt (map fst mapped)
  ∧ ∃ tail : list Triplet,
    enhancements (encodeRow this str rowLocation).1
      = enhancements this ++ setActivePosition rowLocation :: tail
    ∧ Forall (fun t => mode t ≠ 0x04) tail
    ∧ length tail = length mapped
    ∧ ∀ (k c : nat) (e : Entry),
        mapped !! k = Some (c, e) →
        ∃ t b, tail !! k = Some t
             ∧ address t = Z.of_nat c
             ∧ base e = [b] ∧ 0 ≤ b < 128
             ∧ (useCompose e = true →
                mode t = 0x11 + (diacriticIndexOf e - 1)
                ∧ 1 ≤ diacriticIndexOf e ≤ 15
                ∧ data t = b).
Proof.
  intros Hmap%buildCzechMap_Ok Hrow (ch & Hin & [e0 He0]) mapped.
  subst mapped. unfold mappedColumns.
  set (mapped := mappedFrom (czechMap this) 0 (Array_from str)).
  split; [apply mappedColumns_lookup|]. split; [apply mappedFrom_sorted|].
  exists (map (fun ce => charTriplet ce.2 ce.1) mapped).
  assert (Hne : mapped ≠ []).
  { apply list_elem_of_lookup in Hin as [c Hc].
    assert ((c, e0) ∈ mapped) as Hm; [|by intros Heq; rewrite Heq in Hm; apply elem_of_nil in Hm].
    apply elem_of_mappedFrom. exists ch. rewrite Nat.sub_0_r. split_and!; [lia|done..]. }
  split_and!.
  - unfold encodeRow.
    pose proof (encodeRow_loop_enhancements (czechMap this) rowLocation
                  (Array_from str) 0 true (enhancements this)) as Hl.
    destruct (encodeRow_loop _ _ _ _ _ _) as [row enh]. simpl in *.
    rewrite Hl. fold mapped. clearbody mapped. by destruct mapped.
  - apply Forall_map, Forall_forall. intros [c e] Hce. simpl.
    apply elem_of_mappedFrom in Hce as (x & _ & _ & Hx).
    rewrite Hmap in Hx. eapply charTriplet_mode_not_SetActivePosition; eauto.
  - by rewrite length_map.
  - intros k c e Hk.
    assert ((c, e) ∈ mapped) as (x & _ & _ & Hx)%elem_of_mappedFrom
      by (eapply list_elem_of_lookup_2; eauto).
    rewrite Hmap in Hx.
    apply buildCzechMap_entry in Hx as (u & b & _ & _ & Hb & Hrange & Hidx & _).
    exists (charTriplet e c), b. rewrite list_lookup_fmap, Hk. simpl.
    split; [done|]. split.
    { unfold charTriplet. destruct (useCompose e); [done|]. by destruct (g2 e). }
    split; [done|]. split; [lia|].
    + intros Hc. unfold charTriplet. rewrite Hc. simpl.
      unfold diacriticIndexOf, Mode_DiacriticBase. rewrite Hb. simpl.
      split; [done|]. split; [exact Hidx|]. change 127 with (Z.ones 7). rewrite Z.land_ones by lia.
      apply Z.mod_small. lia.
Qed.
Lemma encodeRow_witness :
  ∃ this tail,
    new_X26Encoder no_opts = Ok this
    ∧ enhancements (encodeRow this sampleBoxedRow 19).1 = setActivePosition 19 :: tail
    ∧ length tail = 4%nat.
Proof.
  destruct (encodeRow_pushes_position_then_one_triplet_per_mapped_column
              no_opts (builtEncoder no_opts) sampleBoxedRow 19)
    as (_ & _ & tail & H1 & _ & H3 & _).
  - reflexivity.
  - lia.
  - exists [0x10F]. split.
    + apply list_elem_of_lookup_2 with 4%nat. reflexivity.
    + apply (bool_decide_unpack _). vm_compute. exact I.
  - exists (builtEncoder no_opts), tail. split; [reflexivity|].
    split; [exact H1|]. rewrite H3. vm_compute. reflexivity.
Defined.

(** The 18-bit word of a triplet, written out: the address in bits 0-5, the
    mode in bits 6-10, the data in bits 11-17. *)
Definition tripletWord (t : Triplet) : Z :=
  Z.land (address t) 0x3F + 64 * Z.land (mode t) 0x1F + 2048 * Z.land (data t) 0x7F.

(** The packed triplet as a sum of its three masked fields. *)
Lemma packEnhancement_sum (mode address data : Z) :
  packEnhancement mode address data
  = Z.land address 0x3F + Z.land mode 0x1F * 64 + Z.land data 0x7F * 2048.
Proof.
  unfold packEnhancement.
  pose proof (land_mask_range address 6 ltac:(lia)) as Ha.
  pose proof (land_mask_range mode 5 ltac:(lia)) as Hm.
  pose proof (land_mask_range data 7 ltac:(lia)) as Hd.
  change (bitmask 6) with 0x3F in *. change (bitmask 5) with 0x1F in *.
  change (bitmask 7) with 0x7F in *.
  rewrite (lor_shiftl_add (Z.land address 0x3F) _ 6) by lia.
  rewrite (lor_shiftl_add _ (Z.land data 0x7F) 11) by lia.
  lia.
Qed.

Lemma packEnhancement_word (t : Triplet) :
  packEnhancement (mode t) (address t) (data t) = tripletWord t.
Proof. rewrite packEnhancement_sum. unfold tripletWord. lia. Qed.

Section WithCodec.
Context `{ParityCodec}.

(** The three bytes of one triplet. *)
Definition encodeTriplet (t : Triplet) : list Z :=
  hammingEncode24 (packEnhancement (mode t) (address t) (data t)).

Lemma filler_loop (n : nat) :
  map (fun i : nat => hammingEncode24
         (packEnhancement Mode_TerminationMarker 0x3f
            (if bool_decide (i = n) then 0xff else 0x00)))
      (seq 1 n)
  = map encodeTriplet (terminationFillers n).
Proof.
  destruct n as [|k]; [done|].
  unfold terminationFillers. rewrite seq_S, !map_app. simpl.
  rewrite bool_decide_eq_true_2 by done. f_equal.
  change (map encodeTriplet (replicate k ?x)) with (encodeTriplet <$> replicate k x).
  rewrite fmap_replicate.
  apply map_const_seq. intros i Hi. apply elem_of_seq in Hi.
  by rewrite bool_decide_eq_false_2 by lia.
Qed.

Lemma encodeX26Packet_triplets (packetNumber : nat) (chunk : list Triplet) :
  (length chunk ≤ 13)%nat →
  encodeX26Packet packetNumber chunk
  = hammingEncodeNybble (Z.of_nat packetNumber)
    :: concat (map encodeTriplet (chunk ++ terminationFillers (13 - length chunk))).
Proof.
  intros Hlen. unfold encodeX26Packet.
  rewrite (foldl_push_concat encodeTriplet). simpl.
  case_bool_decide as Hlt.
  - rewrite foldl_push_concat, filler_loop. simpl.
    by rewrite map_app, concat_app.
  - replace (13 - length chunk)%nat with 0%nat by lia. simpl.
    by rewrite app_nil_r.
Qed.

Lemma length_slice {A} (l : list A) (a b : nat) :
  length (slice a b l) = Nat.min (b - a) (length l - a).
Proof. unfold slice. by rewrite length_take, length_drop. Qed.

(** C2. Every X/26 packet of the getter is the Hamming 8/4 designation code
    followed by exactly 13 Hamming 24/18 code words: those of the triplets of
    its chunk, then those of termination markers (mode 0x1F, address 0x3F)
    with data 0x00 except the last one, with data 0xFF; a chunk of 13
    triplets gets no filler. The word of a triplet is its address in bits
    0-5, its mode in bits 6-10 and the low 7 bits of its data in bits 11-17,
    so the word of a filler is 0x7FF and that of the last filler 0x3FFFF,
    all ones: of the data 0xFF the 7-bit field holds 0x7F. *)
Theorem x26_packet_is_chunk_then_termination_fillers
    (enh : list Triplet) (m : gmap jsstring Entry) :
  let packets :=
    (enhancementPackets {| enhancements := enh; packets := None; czechMap := m |}).2 in
  length packets = ((length enh + 12) / 13)%nat
  ∧ ∀ i : nat, (i < length packets)%nat →
      let chunk := slice (i * 13) ((i + 1) * 13) enh in
      let fillers := terminationFillers (13 - length chunk) in
      (1 ≤ length chunk ≤ 13)%nat
      ∧ length (chunk ++ fillers) = 13%nat
      ∧ (length chunk = 13%nat → fillers = [])
      ∧ packets !! i
        = Some (hammingEncodeNybble (Z.of_nat i)
                  :: concat (map (fun t => hammingEncode24 (tripletWord t))
                                 (chunk ++ fillers)))
      ∧ map tripletWord fillers
        = match (13 - length chunk)%nat with
          | O => []
          | S k => replicate k 0x7FF ++ [0x3FFFF]
          end
      ∧ Forall (fun t => 0 ≤ tripletWord t < 2 ^ 18
                         ∧ tripletWord t `mod` 64 = address t `mod` 64
                         ∧ (tripletWord t / 64) `mod` 32 = mode t `mod` 32
                         ∧ tripletWord t / 2048 = data t `mod` 128)
               (chunk ++ fillers).
Proof.
  cbv zeta. unfold enhancementPackets. cbn [packets enhancements snd].
  rewrite (foldl_push_map (fun i => encodeX26Packet i (slice (i * 13) ((i + 1) * 13) enh))).
  rewrite app_nil_l, length_map, length_seq. split; [done|].
  intros i Hi.
  assert (Hdiv : (13 * ((length enh + 12) / 13) ≤ length enh + 12)%nat)
    by (apply Nat.Div0.mul_div_le).
  set (q := ((length enh + 12) / 13)%nat) in *. clearbody q.
  assert (Hchunk : (1 ≤ length (slice (i * 13) ((i + 1) * 13) enh) ≤ 13)%nat)
    by (rewrite length_slice; lia).
  split; [done|]. split.
  { rewrite length_app. destruct (13 - _)%nat as [|k] eqn:Hk; simpl.
    - lia.
    - rewrite length_app, length_replicate. simpl. lia. }
  split.
  { intros ->. done. }
  split.
  { change (map ?f ?l !! i) with ((f <$> l) !! i).
    rewrite list_lookup_fmap, lookup_seq_lt by done. simpl.
    rewrite encodeX26Packet_triplets by lia. do 3 f_equal.
    apply map_ext. intros t. unfold encodeTriplet. by rewrite packEnhancement_word. }
  split.
  { destruct (13 - _)%nat as [|k]; [done|]. unfold terminationFillers.
    rewrite map_app. cbn [map].
    change (map tripletWord (replicate k ?x)) with (tripletWord <$> replicate k x).
    by rewrite fmap_replicate. }
  apply Forall_forall. intros t _. unfold tripletWord.
  pose proof (land_mask_range (address t) 6 ltac:(lia)) as Ha.
  pose proof (land_mask_range (mode t) 5 ltac:(lia)) as Hm.
  pose proof (land_mask_range (data t) 7 ltac:(lia)) as Hd.
  change (bitmask 6) with 0x3F in *. change (bitmask 5) with 0x1F in *.
  change (bitmask 7) with 0x7F in *.
  assert (Hae : Z.land (address t) 0x3F = address t `mod` 64)
    by (change 0x3F with (Z.ones 6); by rewrite Z.land_ones by lia).
  assert (Hme : Z.land (mode t) 0x1F = mode t `mod` 32)
    by (change 0x1F with (Z.ones 5); by rewrite Z.land_ones by lia).
  assert (Hde : Z.land (data t) 0x7F = data t `mod` 128)
    by (change 0x7F with (Z.ones 7); by rewrite Z.land_ones by lia).
  rewrite <- Hae, <- Hme, <- Hde.
  set (a := Z.land (address t) 0x3F) in *. set (mo := Z.land (mode t) 0x1F) in *.
  set (d := Z.land (data t) 0x7F) in *. clearbody a mo d.
  change (2 ^ 18) with 262144. change (2 ^ 6) with 64 in *.
  change (2 ^ 5) with 32 in *. change (2 ^ 7) with 128 in *.
  repeat split; try lia; Z.div_mod_to_equations; lia.
Qed.

(** Once built, the packets are kept: the getter gives them again. *)
Lemma enhancementPackets_cached (this : X26Encoder) (ps : list (list Z)) :
  packets this = Some ps → enhancementPackets this = (this, ps).
Proof. intros Hps. unfold enhancementPackets. by rewrite Hps. Qed.

(** The data field has 7 bits: packed, the 0xFF of the last filler is 0x7F. *)
Lemma packEnhancement_last_filler :
  packEnhancement 0x1F 0x3F 0xFF = packEnhancement 0x1F 0x3F 0x7F
  ∧ packEnhancement 0x1F 0x3F 0xFF = 0x3FFFF.
Proof. split; reflexivity. Qed.

End WithCodec.

End X26Facts.

(** ** JavaScript strings *)

Lemma Array_from_no_surrogate (s : jsstring) :
  Forall (fun c => is_high_surrogate c = false) s →
  Array_from s = map (fun c => [c]) s.
Proof.
  induction 1 as [|c s Hc Hs IH]; [done|].
  simpl. rewrite Hc. simpl. destruct s; [done|]. by rewrite IH.
Qed.

(** An element of [Array.from(s)] is one code unit or a surrogate pair. *)
Lemma Array_from_elements (s : jsstring) :
  Forall (fun ch => (∃ c, ch = [c])
                    ∨ (∃ h l, ch = [h; l] ∧ is_high_surrogate h = true
                              ∧ is_low_surrogate l = true))
         (Array_from s).
Proof.
  induction s as [s IH] using (induction_ltof1 _ (@length Z)). unfold ltof in IH.
  destruct s as [|h [|l s]]; simpl.
  - constructor.
  - repeat constructor. eauto.
  - destruct (is_high_surrogate h && is_low_surrogate l) eqn:Hp.
    + apply andb_true_iff in Hp as [? ?].
      constructor; [right; eauto|]. apply IH. simpl. lia.
    + constructor; [left; eauto|]. apply (IH (l :: s)). simpl. lia.
Qed.

Lemma utf8_ascii (c : Z) : c < 0x80 → utf8 c = [c].
Proof. intros Hc. unfold utf8. by destruct (Z.ltb_spec c 0x80); [|lia]. Qed.

Lemma TextEncoder_encode_ascii (s : jsstring) :
  Forall (fun c => c < 0x80) s → TextEncoder_encode s = s.
Proof.
  intros Hs. unfold TextEncoder_encode.
  rewrite Array_from_no_surrogate.
  2:{ eapply Forall_impl; [exact Hs|]. intros c Hc. unfold is_high_surrogate. simpl in Hc.
      destruct (Z.leb_spec 0xD800 c); [lia|done]. }
  rewrite map_map. induction Hs as [|c s Hc Hs IH]; [done|].
  cbn [map concat]. rewrite IH. cbn [codePointAt0].
  unfold is_high_surrogate, is_low_surrogate.
  destruct (Z.leb_spec 0xD800 c); [lia|]. destruct (Z.leb_spec 0xDC00 c); [lia|].
  simpl. by rewrite utf8_ascii.
Qed.

(** A row whose every character is rewritten to one ASCII code unit encodes
    to one byte per character. *)
Lemma encode_rewritten_row (f : jsstring → jsstring) (g : jsstring → Z)
    (row : list jsstring) :
  Forall (fun ch => f ch = [g ch] ∧ g ch < 0x80) row →
  TextEncoder_encode (join_empty (map f row)) = map g row.
Proof.
  intros Hrow.
  assert (Hjoin : join_empty (map f row) = map g row).
  { unfold join_empty. induction Hrow as [|ch row [Hf _] _ IH]; [done|].
    simpl. by rewrite Hf, IH. }
  rewrite Hjoin. apply TextEncoder_encode_ascii.
  apply Forall_map. eapply Forall_impl; [exact Hrow|]. by intros ch [_ ?].
Qed.

Lemma Array_from_cons_cons (h l : Z) (s : jsstring) :
  Array_from (h :: l :: s)
  = if is_high_surrogate h && is_low_surrogate l
    then [h; l] :: Array_from s
    else [h] :: Array_from (l :: s).
Proof. done. Qed.

Lemma concat_Array_from (s : jsstring) : concat (Array_from s) = s.
Proof.
  induction s as [s IH] using (induction_ltof1 _ (@length Z)). unfold ltof in IH.
  destruct s as [|h [|l s]]; [done..|]. rewrite Array_from_cons_cons.
  destruct (is_high_surrogate h && is_low_surrogate l).
  - cbn [concat app]. rewrite IH; [done|]. simpl. lia.
  - cbn [concat app]. rewrite (IH (l :: s)); [done|]. simpl. lia.
Qed.

(** A rewriting of code units that keeps the surrogates apart from the rest
    commutes with the splitting into characters. *)
Lemma Array_from_map (u : Z → Z) (s : jsstring) :
  (∀ c, is_high_surrogate (u c) = is_high_surrogate c) →
  (∀ c, is_low_surrogate (u c) = is_low_surrogate c) →
  Array_from (map u s) = map (map u) (Array_from s).
Proof.
  intros Hh Hl.
  induction s as [s IH] using (induction_ltof1 _ (@length Z)). unfold ltof in IH.
  destruct s as [|h [|l s]]; [done..|]. cbn [map].
  rewrite !Array_from_cons_cons, Hh, Hl.
  destruct (is_high_surrogate h && is_low_surrogate l).
  - cbn [map]. rewrite IH; [done|]. simpl. lia.
  - cbn [map]. rewrite <- (IH (l :: s)); [done|]. simpl. lia.
Qed.

Lemma concat_map_map {A B} (f : A → B) (ls : list (list A)) :
  concat (map (map f) ls) = map f (concat ls).
Proof. induction ls as [|l ls IH]; simpl; [done|]. by rewrite IH, map_app. Qed.

(** Consecutive slices of [k] elements, put end to end, are the array. *)
Lemma concat_slices_of (k : nat) {A} (n : nat) : ∀ l : list A,
  (0 < k)%nat → (length l ≤ k * n)%nat →
  concat (map (fun i => slice (i * k) ((i + 1) * k) l) (seq 0 n)) = l.
Proof.
  induction n as [|n IH]; intros l Hk Hlen.
  - destruct l; [done|]. simpl in Hlen. lia.
  - cbn [seq map concat]. rewrite <- seq_shift, map_map.
    rewrite (map_ext _ (fun i => slice (i * k) ((i + 1) * k) (drop k l))).
    + rewrite IH by (rewrite ?length_drop; lia).
      unfold slice. rewrite drop_0.
      replace ((0 + 1) * k - 0 * k)%nat with k by lia. apply take_drop.
    + intros i. unfold slice. rewrite drop_drop.
      replace ((S i + 1) * k - S i * k)%nat with k by lia.
      replace ((i + 1) * k - i * k)%nat with k by lia.
      done.
Qed.

Lemma zip_with_seq_map {A B} (f : nat → A → B) (g : nat → A) (n : nat) : ∀ j,
  zip_with f (seq j n) (map g (seq j n)) = map (fun i => f i (g i)) (seq j n).
Proof. induction n as [|n IH]; intros j; simpl; [done|]. by rewrite IH. Qed.

Lemma Array_from_cons_plain (c : Z) (s : jsstring) :
  is_high_surrogate c = false → Array_from (c :: s) = [c] :: Array_from s.
Proof. intros Hc. destruct s as [|l s]; [done|]. by rewrite Array_from_cons_cons, Hc. Qed.

(** Splitting a string where no surrogate pair is cut. *)
Lemma Array_from_app (s1 s2 : jsstring) :
  match s2 with c :: _ => is_low_surrogate c = false | [] => True end →
  Array_from (s1 ++ s2) = Array_from s1 ++ Array_from s2.
Proof.
  intros Hs2. induction s1 as [s1 IH] using (induction_ltof1 _ (@length Z)).
  unfold ltof in IH. destruct s1 as [|h [|l s1]].
  - done.
  - destruct s2 as [|c s2]; [done|].
    change ([h] ++ c :: s2) with (h :: c :: s2).
    by rewrite Array_from_cons_cons, Hs2, andb_false_r.
  - change ((h :: l :: s1) ++ s2) with (h :: l :: (s1 ++ s2)).
    rewrite !Array_from_cons_cons.
    destruct (is_high_surrogate h && is_low_surrogate l).
    + rewrite IH by (simpl; lia). done.
    + change (l :: (s1 ++ s2)) with ((l :: s1) ++ s2).
      rewrite (IH (l :: s1)) by (simpl; lia). done.
Qed.

(** ** The WST page encoder *)

Module WSTFacts.
Import WST.

(** What latin2 mode emits for one character of the row. *)
Definition latin2Byte (ch : jsstring) : Z :=
  match CZECH_TO_BASE !! ch with
  | Some b => hd 0 b
  | None => if codePointAt0 ch <=? 0x7F then codePointAt0 ch else 0x3F
  end.

(** What x26 mode leaves in the row for the code unit [c]. *)
Definition x26Byte (czechMap : gmap jsstring X26.Entry) (c : Z) : Z :=
  match czechMap !! [c] with
  | Some e => hd 0 (X26.rowCell e)
  | None => c
  end.

(** The framed row of the specification: the two start markers, the text as
    rewritten by [cell], the two end markers, then spaces. *)
Definition framedRowOf (cell : Z → Z) (text : jsstring) (pad : nat) : list Z :=
  [0x0b; 0x0b] ++ map cell text ++ [0x0a; 0x0a] ++ replicate pad 0x20.
Definition framedRow (cell : Z → Z) (text : jsstring) : list Z :=
  framedRowOf cell text (36 - length text).

(** "Loď če" and a row of 37 letters "A". *)
Definition sampleRow : jsstring := lit "Lo" ++ [0x10F] ++ lit " " ++ [0x10D] ++ lit "e".
Definition row37 : jsstring := replicate 37 0x41.

(** A codec that adds no redundancy, to run the encoders on examples. *)
Definition plainCodec : ParityCodec :=
  {| hammingEncodeNybble := fun n => n;
     hammingEncode24 := fun v => [Z.land v 0xFF; Z.land (Z.shiftr v 8) 0xFF; Z.shiftr v 16];
     applyParity := fun l => l |}.

(** The encoder can reach its rows: it is in latin2 mode, or
    [new X26Encoder] accepts its caron options. *)
Definition optionsAccepted (this : WSTEncoder) : Prop :=
  diacriticsEncoding this = "latin2"%string
  ∨ ∃ czechMap, X26.buildCzechMap (x26Opts this) = Ok czechMap.


(** The environment with no caron variable set. *)
Definition no_env : Env :=
  {| CARON_ENCODING := None; CARON_DIACRITIC_INDEX := None; G2_VARIANT := None |}.

(** [new WSTEncoder()] has caron options that [new X26Encoder] accepts,
    whatever the environment holds: the constructor keeps a variant of the
    environment only when it is one of the four names. *)
Lemma new_WSTEncoder_accepted (env : Env) : optionsAccepted (new_WSTEncoder env).
Proof.
  right.
  destruct (X26Facts.buildCzechMap_cases (x26Opts (new_WSTEncoder env)))
    as [[[_ Hin] _]|[_ ->]]; [|by eexists].
  exfalso. revert Hin. unfold new_WSTEncoder. cbn [x26Opts X26.opts_g2Variant].
  destruct (G2_VARIANT env) as [v|]; [case_bool_decide as Hv|]; cbn [default].
  - apply X26Facts.G2_CARON_SETS_own.
    repeat (apply elem_of_cons in Hv as [->|Hv]; [by eexists|]).
    by apply elem_of_nil in Hv.
  - apply X26Facts.G2_CARON_SETS_own. by eexists.
  - apply X26Facts.G2_CARON_SETS_own. by eexists.
Qed.

Lemma new_WSTEncoder_no_env : new_WSTEncoder no_env = default_WSTEncoder.
Proof. reflexivity. Qed.

Lemma boxedText_short (text : jsstring) :
  (length text ≤ 40)%nat →
  boxedText text
  = Ok (take 40 ([0x0b; 0x0b] ++ text ++ [0x0a; 0x0a]
                   ++ replicate (40 - length text) 0x20)).
Proof.
  intros Hlen. unfold boxedText, spaces.
  destruct (Z.ltb_spec (40 - Z.of_nat (length text)) 0) as [?|_]; [lia|].
  replace (Z.to_nat (40 - Z.of_nat (length text))) with (40 - length text)%nat by lia.
  done.
Qed.

Lemma boxedText_long (text : jsstring) :
  (40 < length text)%nat →
  boxedText text = Throws "RangeError: Invalid array length".
Proof.
  intros Hlen. unfold boxedText, spaces.
  destruct (Z.ltb_spec (40 - Z.of_nat (length text)) 0) as [_|?]; [done|lia].
Qed.

Lemma CZECH_TO_BASE_entry ch b :
  CZECH_TO_BASE !! ch = Some b → ∃ u c, ch = [u] ∧ 0xC1 ≤ u ≤ 0x17E ∧ b = [c] ∧ 0x41 ≤ c ≤ 0x7A.
Proof.
  intros Hl. apply elem_of_list_to_map_2 in Hl.
  repeat (apply elem_of_cons in Hl as [[= -> ->]|Hl];
          [do 2 eexists; split; [reflexivity|]; split; [lia|];
           split; [vm_compute; reflexivity|lia]|]).
  by apply elem_of_nil in Hl.
Qed.

(** The letters of the composition table are those of [CZECH_TO_BASE], with
    the same base letters. *)
Lemma buildCzechMap_CZECH_TO_BASE opts ch e :
  X26Facts.czechTable opts !! ch = Some e → CZECH_TO_BASE !! ch = Some (X26.base e).
Proof.
  intros Hl. X26Facts.czech_cases Hl ltac:(vm_compute; reflexivity).
Qed.

Lemma latin2Byte_ascii ch : latin2Byte ch < 0x80.
Proof.
  unfold latin2Byte. destruct (CZECH_TO_BASE !! ch) as [b|] eqn:Hb.
  - apply CZECH_TO_BASE_entry in Hb as (u & c & _ & _ & -> & ?). simpl. lia.
  - destruct (Z.leb_spec (codePointAt0 ch) 0x7F); lia.
Qed.

Lemma toBaseLetters_bytes (s : jsstring) :
  TextEncoder_encode (toBaseLetters s) = map latin2Byte (Array_from s).
Proof.
  unfold toBaseLetters. apply encode_rewritten_row.
  eapply Forall_impl; [apply Array_from_elements|].
  intros ch Hch. split; [|apply latin2Byte_ascii].
  unfold latin2Byte. destruct (CZECH_TO_BASE !! ch) as [b|] eqn:Hb.
  - by apply CZECH_TO_BASE_entry in Hb as (u & c & _ & _ & -> & ?).
  - destruct Hch as [[c ->]|(h & l & -> & Hh & Hl)]; simpl.
    + by destruct (c <=? 127).
    + rewrite Hh, Hl. simpl. unfold is_high_surrogate, is_low_surrogate in *.
      destruct (Z.leb_spec (65536 + (h - 55296) * 1024 + (l - 56320)) 127); [lia|done].
Qed.

Lemma Forall_framed (P : Z → Prop) (text : jsstring) (n : nat) :
  P 0x0b → P 0x0a → P 0x20 → Forall P text →
  Forall P ([0x0b; 0x0b] ++ text ++ [0x0a; 0x0a] ++ replicate n 0x20).
Proof.
  intros Hb Ha Hs Ht. repeat apply Forall_app_2; try done.
  - by repeat constructor.
  - by repeat constructor.
  - by apply Forall_replicate.
Qed.

Lemma map_framed (f : Z → Z) (text : jsstring) (n : nat) :
  f 0x0b = 0x0b → f 0x0a = 0x0a → f 0x20 = 0x20 →
  map f ([0x0b; 0x0b] ++ text ++ [0x0a; 0x0a] ++ replicate n 0x20)
  = framedRowOf f text n.
Proof.
  intros Hb Ha Hs. unfold framedRowOf. rewrite !map_app. simpl. rewrite Hb, Ha.
  do 3 f_equal. change (map f (replicate n 32)) with (f <$> replicate n 32).
  by rewrite fmap_replicate, Hs.
Qed.

Lemma boxedText_36 (text : jsstring) :
  (length text ≤ 36)%nat →
  boxedText text
  = Ok ([0x0b; 0x0b] ++ text ++ [0x0a; 0x0a] ++ replicate (36 - length text) 0x20).
Proof.
  intros Hlen. rewrite boxedText_short by lia. f_equal.
  replace (40 - length text)%nat with ((36 - length text) + 4)%nat by lia.
  rewrite replicate_add.
  rewrite !app_assoc. apply take_app_length'.
  rewrite !length_app, length_replicate. simpl. lia.
Qed.

Lemma CZECH_TO_BASE_letter ch b :
  CZECH_TO_BASE !! ch = Some b →
  ∃ u c, ch = [u] ∧ 0x7F < u ∧ b = [c] ∧ (0x41 ≤ c ≤ 0x5A ∨ 0x61 ≤ c ≤ 0x7A).
Proof.
  intros Hl. apply elem_of_list_to_map_2 in Hl.
  repeat (apply elem_of_cons in Hl as [[= -> ->]|Hl];
          [do 2 eexists; split; [reflexivity|]; split; [lia|];
           split; [vm_compute; reflexivity|lia]|]).
  by apply elem_of_nil in Hl.
Qed.

(** An ASCII code unit is its own byte. *)
Lemma latin2Byte_code_unit (c : Z) : c ≤ 0x7F → latin2Byte [c] = c.
Proof.
  intros Hc. unfold latin2Byte.
  destruct (CZECH_TO_BASE !! [c]) as [b|] eqn:Hb.
  - apply CZECH_TO_BASE_entry in Hb as (u & ? & [= ->] & ? & _). lia.
  - cbn [codePointAt0]. by destruct (Z.leb_spec c 0x7F); [|lia].
Qed.

(** C7, as amended. In latin2 mode, for a row of at most 40 code units, the
    payload before parity is 0x0B 0x0B, then one byte per character of the
    first 38 code units of the row (the whole row when it has no more), then
    what is left of 0x0A 0x0A and of the spaces within 40 code units. The
    byte of a character is its base ASCII letter for the letters of the Czech
    table, the character itself for a code point up to 0x7F, and "?" (0x3F)
    for every other character, accented letters outside the table included. *)
Theorem latin2_payload_folds_table_letters_only (text : jsstring) :
  (length text ≤ 40)%nat →
  latin2TextBytes text
  = Ok ([0x0b; 0x0b] ++ map latin2Byte (Array_from (take 38 text))
        ++ take (38 - length text) ([0x0a; 0x0a] ++ replicate (40 - length text) 0x20))
  ∧ ((length text ≤ 38)%nat → take 38 text = text)
  ∧ (∀ c, c ≤ 0x7F → latin2Byte [c] = c)
  ∧ (∀ ch b, CZECH_TO_BASE !! ch = Some b →
       ∃ u c, ch = [u] ∧ 0x7F < u ∧ b = [c]
              ∧ (0x41 ≤ c ≤ 0x5A ∨ 0x61 ≤ c ≤ 0x7A) ∧ latin2Byte ch = c)
  ∧ (∀ ch, CZECH_TO_BASE !! ch = None → 0x7F < codePointAt0 ch → latin2Byte ch = 0x3F).
Proof.
  intros Hlen.
  split; [|split; [by apply take_ge|split; [apply latin2Byte_code_unit|split]]].
  - unfold latin2TextBytes. rewrite boxedText_short by done. cbn [bind].
    rewrite toBaseLetters_bytes. f_equal.
    set (tail := [0x0a; 0x0a] ++ replicate (40 - length text) 0x20).
    assert (Htail : Forall (fun c => c ≤ 0x7F) (take (38 - length text) tail)).
    { apply Forall_take. subst tail. repeat constructor; try lia.
      apply Forall_replicate. lia. }
    change (take 40 ([0x0b; 0x0b] ++ text ++ tail))
      with (0x0b :: 0x0b :: take 38 (text ++ tail)).
    rewrite take_app, !Array_from_cons_plain by done.
    rewrite Array_from_app.
    + cbn [map app]. rewrite !latin2Byte_code_unit by lia. do 2 f_equal.
      rewrite map_app. f_equal.
      rewrite Array_from_no_surrogate.
      * rewrite map_map. clear -Htail.
        induction Htail as [|c r Hc _ IH]; [done|].
        cbn [map]. by rewrite IH, latin2Byte_code_unit.
      * eapply Forall_impl; [exact Htail|]. intros c Hc. unfold is_high_surrogate.
        cbn beta in Hc. destruct (Z.leb_spec 0xD800 c); [lia|done].
    + destruct (take (38 - length text) tail) as [|c r] eqn:Hr; [done|].
      apply Forall_cons in Htail as [Hc _]. unfold is_low_surrogate.
      destruct (Z.leb_spec 0xDC00 c); [lia|done].
  - intros ch b Hb. unfold latin2Byte. rewrite Hb.
    apply CZECH_TO_BASE_letter in Hb as (u & c & -> & ? & -> & ?).
    exists u, c. by split_and!.
  - intros ch Hnone Hcp. unfold latin2Byte. rewrite Hnone.
    by destruct (Z.leb_spec (codePointAt0 ch) 0x7F); [lia|].
Qed.

(** C3, as amended. For a text of at most 36 code units made of ASCII
    characters and letters of the composition table, the payload before
    parity is 0x0B 0x0B, the text with each table letter replaced (by its
    base letter; in x26 mode by a space when the letter is sent as a G2
    character), 0x0A 0x0A, then spaces: exactly 40 bytes. ASCII characters
    are kept as they are. *)
Theorem display_row_payload_of_short_text
    (opts : X26.Opts) (x26encoder : X26.X26Encoder) (text : jsstring) (rowLocation : Z) :
  X26.buildCzechMap opts = Ok (X26.czechMap x26encoder) →
  (length text ≤ 36)%nat →
  Forall (fun c => 0 ≤ c ≤ 0x7F ∨ is_Some (X26.czechMap x26encoder !! [c])) text →
  latin2TextBytes text = Ok (framedRow (fun c => latin2Byte [c]) text)
  ∧ (∃ x26encoder',
       x26TextBytes x26encoder text rowLocation
       = Ok (x26encoder', framedRow (x26Byte (X26.czechMap x26encoder)) text))
  ∧ (∀ cell, length (framedRow cell text) = 40%nat)
  ∧ Forall (fun c => 0 ≤ c ≤ 0x7F →
                     latin2Byte [c] = c ∧ x26Byte (X26.czechMap x26encoder) c = c) text.
Proof.
  intros Hmap%X26Facts.buildCzechMap_Ok Hlen Htext. rewrite Hmap in Htext.
  assert (Hnosur : Forall (fun c => is_high_surrogate c = false)
            ([0x0b; 0x0b] ++ text ++ [0x0a; 0x0a] ++ replicate (36 - length text) 0x20)).
  { apply Forall_framed; try done.
    eapply Forall_impl; [exact Htext|]. intros c [Hc|[e He]]; unfold is_high_surrogate.
    - destruct (Z.leb_spec 0xD800 c); [lia|done].
    - apply X26Facts.buildCzechMap_entry in He as (u & b & [= ->] & ? & _).
      destruct (Z.leb_spec 0xD800 u); [lia|done]. }
  assert (Hkeys : ∀ c, c ≤ 0x7F → X26Facts.czechTable opts !! [c] = None).
  { intros c Hc. destruct (X26Facts.czechTable opts !! [c]) as [e|] eqn:He; [|done].
    apply X26Facts.buildCzechMap_entry in He as (u & b & [= ->] & ? & _). lia. }
  assert (Hkeys2 : ∀ c, c ≤ 0x7F → CZECH_TO_BASE !! [c] = None).
  { intros c Hc. destruct (CZECH_TO_BASE !! [c]) as [e|] eqn:He; [|done].
    apply CZECH_TO_BASE_entry in He as (u & b & [= ->] & ? & _). lia. }
  assert (Hcell : ∀ c, 0 ≤ c ≤ 0x7F ∨ is_Some (X26Facts.czechTable opts !! [c]) →
            match X26.czechMap x26encoder !! [c] with
            | Some e => X26.rowCell e
            | None => [c]
            end = [x26Byte (X26.czechMap x26encoder) c]
            ∧ x26Byte (X26.czechMap x26encoder) c < 0x80).
  { intros c Hc. unfold x26Byte. rewrite Hmap.
    destruct (X26Facts.czechTable opts !! [c]) as [e|] eqn:He.
    - apply X26Facts.buildCzechMap_entry in He as (u & b & _ & _ & Hb & ? & _).
      unfold X26.rowCell. destruct (X26.g2 e); [done|]. rewrite Hb. simpl. split; [done|lia].
    - destruct Hc as [?|[? [=]]]. split; [done|lia]. }
  split; [|split; [|split]].
  - unfold latin2TextBytes. rewrite boxedText_36 by done. unfold JS.bind.
    rewrite toBaseLetters_bytes, Array_from_no_surrogate by done.
    rewrite map_map. by rewrite (map_framed (fun c => latin2Byte [c])).
  - unfold x26TextBytes. rewrite boxedText_36 by done. unfold JS.bind, X26.encodeRow.
    pose proof (X26Facts.encodeRow_loop_row (X26.czechMap x26encoder) rowLocation
      (Array_from ([0x0b; 0x0b] ++ text ++ [0x0a; 0x0a]
                     ++ replicate (36 - length text) 0x20)) 0 true
      (X26.enhancements x26encoder)) as Hrow.
    destruct (X26.encodeRow_loop _ _ _ _ _ _) as [row enh]. cbn [fst] in Hrow. subst row.
    eexists. do 2 f_equal.
    rewrite Array_from_no_surrogate by done.
    rewrite (encode_rewritten_row _ (fun ch => x26Byte (X26.czechMap x26encoder) (hd 0 ch))).
    + rewrite map_map. simpl.
      apply (map_framed (x26Byte (X26.czechMap x26encoder)));
        unfold x26Byte; by rewrite Hmap, Hkeys.
    + apply Forall_map, Forall_framed; cbn beta; cbn [hd]; try (apply Hcell; lia).
      eapply Forall_impl; [exact Htext|]. intros c Hc. by apply Hcell.
  - intros cell. unfold framedRow, framedRowOf.
    rewrite !length_app, length_map, length_replicate. simpl. lia.
  - apply Forall_forall. intros c _ Hc. unfold latin2Byte, x26Byte.
    rewrite Hmap, Hkeys, Hkeys2 by lia. simpl.
    by destruct (Z.leb_spec c 127); [|lia].
Qed.

Lemma latin2_payload_witness :
  latin2TextBytes sampleRow
  = Ok ([0x0b; 0x0b] ++ lit "Lod ce" ++ [0x0a; 0x0a] ++ replicate 30 0x20).
Proof.
  destruct (latin2_payload_folds_table_letters_only sampleRow) as (Hbytes & _).
  - vm_compute. lia.
  - rewrite Hbytes. vm_compute. reflexivity.
Defined.

(** C7 fails as stated: "ö" is a letter outside the table and is sent as "?",
    not as "o". *)
Lemma latin2_payload_question_mark_for_o_umlaut :
  latin2TextBytes [0xF6] = Ok ([0x0b; 0x0b; 0x3F; 0x0a; 0x0a] ++ replicate 35 0x20)
  ∧ 0x3F ≠ 0x6F.
Proof. split; [vm_compute; reflexivity|discriminate]. Qed.

Lemma display_row_payload_witness :
  latin2TextBytes sampleRow
  = Ok ([0x0b; 0x0b] ++ lit "Lod ce" ++ [0x0a; 0x0a] ++ replicate 30 0x20)
  ∧ ∃ x26encoder x26encoder',
      X26.new_X26Encoder X26.no_opts = Ok x26encoder
      ∧ x26TextBytes x26encoder sampleRow 19
        = Ok (x26encoder',
              [0x0b; 0x0b] ++ lit "Lod ce" ++ [0x0a; 0x0a] ++ replicate 30 0x20).
Proof.
  destruct (display_row_payload_of_short_text X26.no_opts
              (X26Facts.builtEncoder X26.no_opts) sampleRow 19)
    as (H1 & (x26encoder' & H2) & _).
  - reflexivity.
  - vm_compute. lia.
  - let r := eval vm_compute in sampleRow in change sampleRow with r.
    repeat (constructor;
            [first [left; lia
                   | right; apply (bool_decide_unpack _); vm_compute; exact I]|]).
    constructor.
  - split; [exact H1|]. exists (X26Facts.builtEncoder X26.no_opts), x26encoder'.
    split; [reflexivity|exact H2].
Defined.

(** C3 fails as stated: a text of 37 code units leaves room for one end
    marker only. *)
Lemma display_row_payload_loses_end_marker :
  latin2TextBytes row37 = Ok ([0x0b; 0x0b] ++ row37 ++ [0x0a])
  ∧ (∃ x26encoder,
       X26.new_X26Encoder X26.no_opts = Ok x26encoder
       ∧ x26TextBytes x26encoder row37 19
         = Ok (x26encoder, [0x0b; 0x0b] ++ row37 ++ [0x0a]))
  ∧ ∀ pad, [0x0b; 0x0b] ++ row37 ++ [0x0a] ≠ [0x0b; 0x0b] ++ row37 ++ [0x0a; 0x0a] ++ pad.
Proof.
  split; [vm_compute; reflexivity|].
  split; [eexists; split; [reflexivity|vm_compute; reflexivity]|].
  intros pad Heq. apply (f_equal (fun l => l !! 40%nat)) in Heq.
  vm_compute in Heq. discriminate.
Qed.

(** In x26 mode a letter outside the table stays in the row and takes two
    bytes: 41 bytes for the row "ö". *)
Example x26_payload_of_o_umlaut_has_41_bytes :
  ∃ x26encoder bytes,
    X26.new_X26Encoder X26.no_opts = Ok x26encoder
    ∧ x26TextBytes x26encoder [0xF6] 19 = Ok (x26encoder, bytes)
    ∧ length bytes = 41%nat.
Proof. eexists _, _. split; [reflexivity|]. split; vm_compute; reflexivity. Qed.

(** In latin2 mode a surrogate pair becomes one "?": 39 bytes. *)
Example latin2_payload_of_astral_has_39_bytes :
  ∃ bytes, latin2TextBytes [0xD83D; 0xDE00] = Ok bytes ∧ length bytes = 39%nat.
Proof. eexists. split; vm_compute; reflexivity. Qed.

Lemma latin2TextBytes_long (text : jsstring) :
  (40 < length text)%nat →
  latin2TextBytes text = Throws "RangeError: Invalid array length".
Proof. intros Hlen. unfold latin2TextBytes. by rewrite boxedText_long. Qed.

Lemma latin2TextBytes_short (text : jsstring) :
  (length text ≤ 40)%nat → ∃ textBytes, latin2TextBytes text = Ok textBytes.
Proof.
  intros Hlen. unfold latin2TextBytes. rewrite boxedText_short by done. by eexists.
Qed.

Lemma x26TextBytes_long (x26encoder : X26.X26Encoder) (text : jsstring) (rowLocation : Z) :
  (40 < length text)%nat →
  x26TextBytes x26encoder text rowLocation = Throws "RangeError: Invalid array length".
Proof. intros Hlen. unfold x26TextBytes. by rewrite boxedText_long. Qed.

Lemma x26TextBytes_short (x26encoder : X26.X26Encoder) (text : jsstring) (rowLocation : Z) :
  (length text ≤ 40)%nat → ∃ r, x26TextBytes x26encoder text rowLocation = Ok r.
Proof.
  intros Hlen. unfold x26TextBytes. rewrite boxedText_short by done. cbn [bind].
  destruct (X26.encodeRow _ _ _). by eexists.
Qed.

Section WithCodec.
Context `{ParityCodec}.

(** C4. With no rows (an empty list, or no list at all) [encodeSubtitle]
    returns exactly one packet, the header: the 5-byte prefix, the eight
    Hamming 8/4 nibbles (the fourth is 8: sub-code 0 with the erase bit C4
    set) and 32 bytes 0x20, 45 bytes in all. *)
Theorem encodeSubtitle_no_rows_is_erase_header (this : WSTEncoder) (startRowOpt : option Z) :
  let header :=
    [0x55; 0x55; 0x27;
     hammingEncodeNybble (Z.land (magazine this) 0x07) `mod` 256;
     hammingEncodeNybble 0 `mod` 256]
    ++ map (fun nybble => hammingEncodeNybble nybble `mod` 256)
           [Z.land (page this) 0xF; Z.land (Z.shiftr (page this) 4) 0xF;
            0; 8; 0; 8; 3; 0]
    ++ replicate 32 0x20 in
  encodeSubtitle this None startRowOpt = Ok [header]
  ∧ encodeSubtitle this (Some []) startRowOpt = Ok [header]
  ∧ length header = 45%nat.
Proof.
  assert (Hh : encodeHeaderPacket (magazine this) (page this) 0 true
               = [0x55; 0x55; 0x27;
     hammingEncodeNybble (Z.land (magazine this) 0x07) `mod` 256;
     hammingEncodeNybble 0 `mod` 256]
    ++ map (fun nybble => hammingEncodeNybble nybble `mod` 256)
           [Z.land (page this) 0xF; Z.land (Z.shiftr (page this) 4) 0xF;
            0; 8; 0; 8; 3; 0]
    ++ replicate 32 0x20).
  { unfold encodeHeaderPacket, encodePrefix, Uint8Array_from. simpl.
    assert (Hmask : ∀ x, Z.land (Z.land x 15) 15 = Z.land x 15)
      by (intros x; rewrite <- Z.land_assoc; reflexivity).
    by rewrite Z.add_0_r, !Z.mod_mod, !Hmask by done. }
  cbv zeta. unfold encodeSubtitle. rewrite Hh. done.
Qed.

(** The dummy page is the header of page 0xFF with sub-code 0x3F7E and no
    erase bit. With the six code words of Hamming 8/4 that it uses and
    magazine 0, it is the [op47-dummy-header] of the README
    (VVUnFRXq6v0v6pteFSAg..., base64). *)
Lemma encodeDummy_is_README_header (this : WSTEncoder) :
  magazine this = 0 →
  hammingEncodeNybble 0 = 0x15 → hammingEncodeNybble 3 = 0x5E →
  hammingEncodeNybble 7 = 0x2F → hammingEncodeNybble 11 = 0x9B →
  hammingEncodeNybble 14 = 0xFD → hammingEncodeNybble 15 = 0xEA →
  encodeDummy this
  = [[0x55; 0x55; 0x27; 0x15; 0x15; 0xEA; 0xEA; 0xFD; 0x2F; 0xEA; 0x9B; 0x5E; 0x15]
     ++ replicate 32 0x20].
Proof.
  intros Hmag H0 H3 H7 H11 H14 H15.
  unfold encodeDummy, encodeHeaderPacket, encodePrefix, Uint8Array_from.
  rewrite Hmag. cbv -[hammingEncodeNybble Z.modulo].
  by rewrite H0, H3, H7, H11, H14, H15.
Qed.

Lemma x26RowPackets_long (this : WSTEncoder) (startRow : Z) (rows : list jsstring) :
  ∀ i x26encoder,
    Exists (fun text => (40 < length text)%nat) rows →
    x26RowPackets this startRow i rows x26encoder
    = Throws "RangeError: Invalid array length".
Proof.
  induction rows as [|text rows IH]; intros i x26encoder Hex.
  - by apply Exists_nil in Hex.
  - cbn [x26RowPackets].
    destruct (decide (40 < length text)%nat) as [Hlong|Hshort].
    + by rewrite x26TextBytes_long.
    + destruct (x26TextBytes_short x26encoder text (startRow + Z.of_nat i))
        as ([x26' textBytes] & ->); [lia|].
      apply Exists_cons in Hex as [?|Hex]; [done|].
      cbn [bind]. by rewrite IH.
Qed.

Lemma x26RowPackets_short (this : WSTEncoder) (startRow : Z) (rows : list jsstring) :
  ∀ i x26encoder,
    Forall (fun text => (length text ≤ 40)%nat) rows →
    ∃ r, x26RowPackets this startRow i rows x26encoder = Ok r.
Proof.
  induction rows as [|text rows IH]; intros i x26encoder Hall.
  - by eexists.
  - apply Forall_cons in Hall as [Hlen Hall]. cbn [x26RowPackets].
    destruct (x26TextBytes_short x26encoder text (startRow + Z.of_nat i))
      as ([x26' textBytes] & ->); [done|].
    destruct (IH (S i) x26' Hall) as ([x26'' ps] & Hrest).
    cbn [bind]. rewrite Hrest. by eexists.
Qed.

Lemma latin2Rows_long (f : nat → list Z → list Z) (rows : list jsstring) : ∀ i,
  Exists (fun text => (40 < length text)%nat) rows →
  map_result (fun i text => bind (latin2TextBytes text) (fun textBytes => Ok (f i textBytes)))
             i rows
  = Throws "RangeError: Invalid array length".
Proof.
  induction rows as [|text rows IH]; intros i Hex.
  - by apply Exists_nil in Hex.
  - cbn [map_result].
    destruct (decide (40 < length text)%nat) as [Hlong|Hshort].
    + by rewrite latin2TextBytes_long.
    + destruct (latin2TextBytes_short text) as (textBytes & ->); [lia|].
      apply Exists_cons in Hex as [?|Hex]; [done|].
      cbn [bind]. by rewrite IH.
Qed.

Lemma latin2Rows_short (f : nat → list Z → list Z) (rows : list jsstring) : ∀ i,
  Forall (fun text => (length text ≤ 40)%nat) rows →
  ∃ ps, map_result (fun i text => bind (latin2TextBytes text)
                                       (fun textBytes => Ok (f i textBytes)))
                   i rows = Ok ps.
Proof.
  induction rows as [|text rows IH]; intros i Hall.
  - by eexists.
  - apply Forall_cons in Hall as [Hlen Hall]. cbn [map_result].
    destruct (latin2TextBytes_short text) as (textBytes & ->); [done|].
    destruct (IH (S i) Hall) as (ps & Hrest).
    cbn [bind]. rewrite Hrest. by eexists.
Qed.

(** The X/26 branch once the encoder is built. *)
Lemma encodeDisplayRows_x26 (this : WSTEncoder) (startRow : Z) (rows : list jsstring)
    (czechMap : gmap jsstring X26.Entry) :
  diacriticsEncoding this ≠ "latin2"%string →
  X26.buildCzechMap (x26Opts this) = Ok czechMap →
  encodeDisplayRows this startRow rows
  = bind (x26RowPackets this startRow 0 rows
            {| X26.enhancements := []; X26.packets := None; X26.czechMap := czechMap |})
         (fun '(x26encoder, rowPackets) =>
            Ok (map (fun enhancement =>
                       Uint8Array_from (encodePrefix (magazine this) 26 ++ enhancement))
                    (X26.enhancementPackets x26encoder).2
                ++ rowPackets)).
Proof.
  intros Hmode Hmap. unfold encodeDisplayRows, X26.new_X26Encoder.
  rewrite bool_decide_eq_false_2 by done. by rewrite Hmap.
Qed.

Lemma encodeDisplayRows_rejected (this : WSTEncoder) (startRow : Z) (rows : list jsstring)
    (error : string) :
  diacriticsEncoding this ≠ "latin2"%string →
  X26.buildCzechMap (x26Opts this) = Throws error →
  encodeDisplayRows this startRow rows = Throws error.
Proof.
  intros Hmode Hmap. unfold encodeDisplayRows, X26.new_X26Encoder.
  rewrite bool_decide_eq_false_2 by done. by rewrite Hmap.
Qed.

(** Rows of at most 40 code units are encoded, a longer one is not. *)
Lemma encodeSubtitle_short_rows
    (this : WSTEncoder) (rows : list jsstring) (startRowOpt : option Z) :
  optionsAccepted this →
  Forall (fun text => (length text ≤ 40)%nat) rows →
  ∃ packets, encodeSubtitle this (Some rows) startRowOpt = Ok packets.
Proof.
  intros Hopts Hall. unfold encodeSubtitle.
  destruct rows as [|text rows]; [by eexists|].
  destruct (decide (diacriticsEncoding this = "latin2"%string)) as [Hmode|Hmode].
  - unfold encodeDisplayRows. rewrite bool_decide_eq_true_2 by done.
    destruct (latin2Rows_short
                (fun i textBytes =>
                   Uint8Array_from (encodePrefix (magazine this)
                                      (default (startRow this) startRowOpt + Z.of_nat i)
                                    ++ applyParity textBytes))
                (text :: rows) 0 Hall) as (ps & Hps).
    rewrite Hps. by eexists.
  - destruct Hopts as [?|[czechMap Hmap]]; [done|].
    rewrite (encodeDisplayRows_x26 _ _ _ czechMap) by done.
    destruct (x26RowPackets_short this (default (startRow this) startRowOpt)
                (text :: rows) 0
                {| X26.enhancements := []; X26.packets := None;
                   X26.czechMap := czechMap |} Hall)
      as ([x26' ps] & ->).
    by eexists.
Qed.

Lemma encodeSubtitle_long_row
    (this : WSTEncoder) (rows : list jsstring) (startRowOpt : option Z) :
  optionsAccepted this →
  Exists (fun text => (40 < length text)%nat) rows →
  encodeSubtitle this (Some rows) startRowOpt = Throws "RangeError: Invalid array length".
Proof.
  intros Hopts Hex. unfold encodeSubtitle.
  destruct rows as [|text rows]; [by apply Exists_nil in Hex|].
  destruct (decide (diacriticsEncoding this = "latin2"%string)) as [Hmode|Hmode].
  - unfold encodeDisplayRows. rewrite bool_decide_eq_true_2 by done.
    by rewrite (latin2Rows_long
                  (fun i textBytes => Uint8Array_from (_ ++ applyParity textBytes))).
  - destruct Hopts as [?|[czechMap Hmap]]; [done|].
    rewrite (encodeDisplayRows_x26 _ _ _ czechMap) by done.
    by rewrite x26RowPackets_long.
Qed.


End WithCodec.



End WSTFacts.

(** ** The VTT parser *)

Module VTTFacts.
Import Re VTT.

(** What the parser guarantees of a cue: the text is trimmed and not empty. *)
Definition cueTextOk (cue : Cue) : Prop :=
  text cue ≠ [] ∧ trim (text cue) = text cue.

(** A timing line whose end is before its start. *)
Definition backwardCue : jsstring :=
  lit "00:00:05.000 --> 00:00:01.000" ++ [10] ++ lit "Hello".

Lemma trimStart_head (s : jsstring) :
  trimStart s = [] ∨ ∃ c r, trimStart s = c :: r ∧ is_ws c = false.
Proof.
  induction s as [|c s IH]; simpl; [by left|].
  destruct (is_ws c) eqn:Hc; [done|]. right. eauto.
Qed.

Lemma trimStart_id (c : Z) (r : jsstring) : is_ws c = false → trimStart (c :: r) = c :: r.
Proof. intros Hc. simpl. by rewrite Hc. Qed.

Lemma trimEnd_cons (c : Z) (s : jsstring) :
  trimEnd (c :: s)
  = match trimEnd s with
    | [] => if is_ws c then [] else [c]
    | acc => c :: acc
    end.
Proof. unfold trimEnd. simpl. by destruct (foldr _ _ _). Qed.

Lemma trimEnd_head (c : Z) (r : jsstring) :
  is_ws c = false → ∃ r', trimEnd (c :: r) = c :: r'.
Proof.
  intros Hc. rewrite trimEnd_cons. destruct (trimEnd r); rewrite ?Hc; eauto.
Qed.

Lemma trimEnd_idemp (s : jsstring) : trimEnd (trimEnd s) = trimEnd s.
Proof.
  induction s as [|c s IH]; [done|].
  rewrite trimEnd_cons. destruct (trimEnd s) as [|d acc] eqn:Hs.
  - destruct (is_ws c) eqn:Hc; [done|]. rewrite trimEnd_cons. simpl. by rewrite Hc.
  - rewrite trimEnd_cons, IH. done.
Qed.

Lemma trim_idemp (s : jsstring) : trim (trim s) = trim s.
Proof.
  unfold trim. destruct (trimStart_head s) as [->|(c & r & -> & Hc)]; [done|].
  destruct (trimEnd_head c r Hc) as (r' & Hr).
  rewrite Hr, trimStart_id by done. rewrite <- Hr. apply trimEnd_idemp.
Qed.

Lemma pushCue_ok (start end_ : float) (textLines : list jsstring) :
  Forall cueTextOk (pushCue start end_ textLines).
Proof.
  unfold pushCue. destruct (trim _) as [|c r] eqn:Ht; [constructor|].
  repeat constructor; simpl; [done|]. rewrite <- Ht. apply trim_idemp.
Qed.

Lemma collectText_ok (next : list jsstring → list Cue) (start end_ : float)
    (lines : list jsstring) : ∀ textLines,
  (∀ lines', (length lines' < length lines)%nat → Forall cueTextOk (next lines')) →
  Forall cueTextOk (collectText next start end_ textLines lines).
Proof.
  induction lines as [|l lines IH]; intros textLines Hnext; simpl.
  - apply pushCue_ok.
  - destruct (trim l) as [|c t].
    + apply Forall_app_2; [apply pushCue_ok|]. apply Hnext. simpl. lia.
    + apply IH. intros lines' Hlen. apply Hnext. simpl. lia.
Qed.

Lemma parseCues_ok (lines : list jsstring) : Forall cueTextOk (parseCues lines).
Proof.
  induction lines as [lines IH] using (induction_ltof1 _ (@length jsstring)).
  unfold ltof in IH. destruct lines as [|timeLine lines]; simpl; [constructor|].
  destruct (matchTime timeLine) as [[start end_]|].
  - apply collectText_ok. intros lines' Hlen. apply IH. simpl. lia.
  - apply IH. simpl. lia.
Qed.

(** The two digits of a number below 100, and the three of one below 1000. *)
Definition digits2_of (n : Z) : jsstring := [48 + n / 10; 48 + n mod 10].
Definition digits3_of (n : Z) : jsstring :=
  [48 + n / 100; 48 + n / 10 mod 10; 48 + n mod 10].

(** A timestamp as it is written: [hh:mm:ss.ttt], or [mm:ss.ttt]. *)
Definition stamp (h : option Z) (m s ms : Z) : jsstring :=
  match h with Some h => digits2_of h ++ [58] | None => [] end
  ++ digits2_of m ++ [58] ++ digits2_of s ++ [46] ++ digits3_of ms.

Definition stampOk (h : option Z) (m s ms : Z) : Prop :=
  match h with Some h => 0 ≤ h < 100 | None => True end
  ∧ 0 ≤ m < 100 ∧ 0 ≤ s < 100 ∧ 0 ≤ ms < 1000.

(** The seconds that a timestamp stands for, in binary64 arithmetic. *)
Definition stampSeconds (h : option Z) (m s ms : Z) : float :=
  (match h with Some h => float_of_Z h * 3600 | None => 0 end
   + float_of_Z m * 60 + float_of_Z s + float_of_Z ms / 1000)%float.

(** [timeLine] starts with two timestamps around an arrow, white space
    allowed on either side of the arrow, and [start] and [end_] are the
    seconds of the first and of the second. *)
Definition timingOf (timeLine : jsstring) (start end_ : float) : Prop :=
  ∃ h1 m1 s1 ms1 gap1 gap2 h2 m2 s2 ms2 rest,
    timeLine = stamp h1 m1 s1 ms1 ++ gap1 ++ lit "-->" ++ gap2
               ++ stamp h2 m2 s2 ms2 ++ rest
    ∧ stampOk h1 m1 s1 ms1 ∧ stampOk h2 m2 s2 ms2
    ∧ Forall (fun c => is_ws c = true) gap1 ∧ Forall (fun c => is_ws c = true) gap2
    ∧ start = stampSeconds h1 m1 s1 ms1 ∧ end_ = stampSeconds h2 m2 s2 ms2.

Lemma expect_Some (c : Z) (s s' : jsstring) : expect c s = Some s' → s = c :: s'.
Proof.
  destruct s as [|x s]; [done|]. unfold expect.
  destruct (Z.eqb_spec x c) as [->|_]; [|done]. by intros [= ->].
Qed.

Lemma is_digit_range (c : Z) : is_digit c = true → 48 ≤ c ≤ 57.
Proof. unfold is_digit. lia. Qed.

Lemma digits2_Some (s : jsstring) (n : Z) (s' : jsstring) :
  digits2 s = Some (n, s') → 0 ≤ n < 100 ∧ s = digits2_of n ++ s'.
Proof.
  destruct s as [|a [|b r]]; [done..|]. unfold digits2.
  destruct (is_digit a) eqn:Ha; [|done]. destruct (is_digit b) eqn:Hb; [|done].
  apply is_digit_range in Ha, Hb. cbn [andb]. intros [= <- <-].
  split; [lia|]. unfold digits2_of.
  rewrite <- (Z.div_unique ((a - 48) * 10 + (b - 48)) 10 (a - 48) (b - 48)) by lia.
  rewrite <- (Z.mod_unique ((a - 48) * 10 + (b - 48)) 10 (a - 48) (b - 48)) by lia.
  cbn [app]. f_equal; [lia|]. f_equal. lia.
Qed.

Lemma digits3_Some (s : jsstring) (n : Z) (s' : jsstring) :
  digits3 s = Some (n, s') → 0 ≤ n < 1000 ∧ s = digits3_of n ++ s'.
Proof.
  destruct s as [|a [|b [|c r]]]; [done..|]. unfold digits3.
  destruct (is_digit a) eqn:Ha; [|done]. destruct (is_digit b) eqn:Hb; [|done].
  destruct (is_digit c) eqn:Hc; [|done].
  apply is_digit_range in Ha, Hb, Hc. cbn [andb]. intros [= <- <-].
  split; [lia|]. unfold digits3_of.
  set (n := (a - 48) * 100 + (b - 48) * 10 + (c - 48)).
  rewrite <- (Z.div_unique n 100 (a - 48) ((b - 48) * 10 + (c - 48))) by (unfold n; lia).
  rewrite <- (Z.div_unique n 10 ((a - 48) * 10 + (b - 48)) (c - 48)) by (unfold n; lia).
  rewrite <- (Z.mod_unique ((a - 48) * 10 + (b - 48)) 10 (a - 48) (b - 48)) by lia.
  rewrite <- (Z.mod_unique n 10 ((a - 48) * 10 + (b - 48)) (c - 48)) by (unfold n; lia).
  cbn [app]. f_equal; [lia|]. f_equal; [lia|]. f_equal. lia.
Qed.

Lemma minSecMs_Some (h h' : option Z) (s : jsstring) (m sec ms : Z) (rest : jsstring) :
  minSecMs h s = Some (h', m, sec, ms, rest) →
  h' = h ∧ 0 ≤ m < 100 ∧ 0 ≤ sec < 100 ∧ 0 ≤ ms < 1000
  ∧ s = digits2_of m ++ [58] ++ digits2_of sec ++ [46] ++ digits3_of ms ++ rest.
Proof.
  unfold minSecMs.
  destruct (digits2 s) as [[m0 r0]|] eqn:Hm; [|done]. cbn [mbind option_bind].
  destruct (expect 58 r0) as [r1|] eqn:Hc; [|done]. cbn [mbind option_bind].
  destruct (digits2 r1) as [[sec0 r2]|] eqn:Hs; [|done]. cbn [mbind option_bind].
  destruct (expect 46 r2) as [r3|] eqn:Hd; [|done]. cbn [mbind option_bind].
  destruct (digits3 r3) as [[ms0 r4]|] eqn:Hms; [|done]. cbn [mbind option_bind].
  intros [= <- <- <- <- <-].
  apply digits2_Some in Hm as [? ->]. apply expect_Some in Hc as ->.
  apply digits2_Some in Hs as [? ->]. apply expect_Some in Hd as ->.
  apply digits3_Some in Hms as [? ->].
  by rewrite <- ?app_assoc.
Qed.

(** What [timestamp] matches is a timestamp as written. *)
Lemma timestamp_Some (s : jsstring) (h : option Z) (m sec ms : Z) (rest : jsstring) :
  timestamp s = Some (h, m, sec, ms, rest) →
  stampOk h m sec ms ∧ s = stamp h m sec ms ++ rest.
Proof.
  unfold timestamp, stampOk, stamp.
  destruct (digits2 s) as [[h0 r0]|] eqn:Hh; cbn [mbind option_bind].
  - destruct (expect 58 r0) as [r1|] eqn:Hc; cbn [mbind option_bind].
    + destruct (minSecMs (Some h0) r1) as [r|] eqn:Hrest.
      * intros [= ->]. apply minSecMs_Some in Hrest as (-> & ? & ? & ? & ->).
        apply digits2_Some in Hh as [? ->]. apply expect_Some in Hc as ->.
        split; [done|]. by rewrite <- ?app_assoc.
      * intros (-> & ? & ? & ? & ->)%minSecMs_Some. by rewrite <- ?app_assoc.
    + intros (-> & ? & ? & ? & ->)%minSecMs_Some. by rewrite <- ?app_assoc.
  - intros (-> & ? & ? & ? & ->)%minSecMs_Some. by rewrite <- ?app_assoc.
Qed.

Lemma trimStart_gap (s : jsstring) :
  ∃ gap, s = gap ++ trimStart s ∧ Forall (fun c => is_ws c = true) gap.
Proof.
  induction s as [|c s (gap & Hs & Hgap)]; [by exists []|].
  cbn [trimStart]. destruct (is_ws c) eqn:Hc.
  - exists (c :: gap). split; [by rewrite Hs at 1|by constructor].
  - by exists [].
Qed.

(** What [timeRegex] matches is a timing line, and the two numbers are the
    seconds of its two timestamps. *)
Lemma matchTime_Some (timeLine : jsstring) (start end_ : float) :
  matchTime timeLine = Some (start, end_) → timingOf timeLine start end_.
Proof.
  unfold matchTime.
  destruct (timestamp timeLine) as [[[[[h1 m1] s1] ms1] r0]|] eqn:H1; [|done].
  cbn [mbind option_bind].
  destruct (expect 45 (trimStart r0)) as [r1|] eqn:Ha; [|done]. cbn [mbind option_bind].
  destruct (expect 45 r1) as [r2|] eqn:Hb; [|done]. cbn [mbind option_bind].
  destruct (expect 62 r2) as [r3|] eqn:Hc; [|done]. cbn [mbind option_bind].
  destruct (timestamp (trimStart r3)) as [[[[[h2 m2] s2] ms2] r4]|] eqn:H2; [|done].
  cbn [mbind option_bind]. intros [= <- <-].
  apply timestamp_Some in H1 as [Hok1 ->]. apply timestamp_Some in H2 as [Hok2 H2].
  apply expect_Some in Ha, Hb, Hc. subst r1 r2.
  destruct (trimStart_gap r0) as (gap1 & Hr0 & Hgap1).
  destruct (trimStart_gap r3) as (gap2 & Hr3 & Hgap2).
  exists h1, m1, s1, ms1, gap1, gap2, h2, m2, s2, ms2, r4.
  split_and!; try done.
  rewrite Hr0, Ha, Hr3, H2. done.
Qed.

Lemma digits2_written (n : Z) (rest : jsstring) :
  0 ≤ n < 100 → digits2 (digits2_of n ++ rest) = Some (n, rest).
Proof.
  intros Hn. unfold digits2_of, digits2, is_digit. cbn [app].
  assert (0 ≤ n / 10 ≤ 9 ∧ 0 ≤ n mod 10 ≤ 9 ∧ n = 10 * (n / 10) + n mod 10)
    as (Hq & Hr & Hqr) by (Z.to_euclidean_division_equations; lia).
  rewrite !(proj2 (Z.leb_le _ _)) by lia. cbn [andb]. do 2 f_equal. lia.
Qed.

Lemma digits3_written (n : Z) (rest : jsstring) :
  0 ≤ n < 1000 → digits3 (digits3_of n ++ rest) = Some (n, rest).
Proof.
  intros Hn. unfold digits3_of, digits3, is_digit. cbn [app].
  assert (0 ≤ n / 100 ≤ 9 ∧ 0 ≤ n / 10 mod 10 ≤ 9 ∧ 0 ≤ n mod 10 ≤ 9
          ∧ n = 100 * (n / 100) + 10 * (n / 10 mod 10) + n mod 10)
    as (Hq & Hr & Hu & Hqr) by (Z.to_euclidean_division_equations; lia).
  rewrite !(proj2 (Z.leb_le _ _)) by lia. cbn [andb]. do 2 f_equal. lia.
Qed.

Lemma expect_written (c : Z) (s : jsstring) : expect c ([c] ++ s) = Some s.
Proof. cbn [app expect]. by rewrite Z.eqb_refl. Qed.

Lemma minSecMs_written (h : option Z) (m s ms : Z) (rest : jsstring) :
  0 ≤ m < 100 → 0 ≤ s < 100 → 0 ≤ ms < 1000 →
  minSecMs h (digits2_of m ++ [58] ++ digits2_of s ++ [46] ++ digits3_of ms ++ rest)
  = Some (h, m, s, ms, rest).
Proof.
  intros Hm Hs Hms. unfold minSecMs.
  rewrite digits2_written by done. cbn [mbind option_bind].
  rewrite expect_written. cbn [mbind option_bind].
  rewrite digits2_written by done. cbn [mbind option_bind].
  rewrite expect_written. cbn [mbind option_bind].
  by rewrite digits3_written by done.
Qed.

Lemma timestamp_written (h : option Z) (m s ms : Z) (rest : jsstring) :
  stampOk h m s ms → timestamp (stamp h m s ms ++ rest) = Some (h, m, s, ms, rest).
Proof.
  intros (Hh & Hm & Hs & Hms). unfold timestamp, stamp. destruct h as [h|].
  - rewrite <- !app_assoc. rewrite digits2_written by done. cbn [mbind option_bind].
    rewrite expect_written. cbn [mbind option_bind].
    by rewrite minSecMs_written.
  - rewrite app_nil_l, <- !app_assoc. rewrite digits2_written by done.
    cbn [mbind option_bind]. rewrite expect_written. cbn [mbind option_bind].
    replace (minSecMs (Some m) _) with (@None (option Z * Z * Z * Z * jsstring)).
    + by rewrite (minSecMs_written None).
    + unfold minSecMs. by rewrite digits2_written.
Qed.

Lemma trimStart_written (gap s : jsstring) (c : Z) :
  Forall (fun c => is_ws c = true) gap → is_ws c = false →
  trimStart (gap ++ c :: s) = c :: s.
Proof.
  intros Hgap Hc. induction Hgap as [|d gap Hd _ IH]; cbn [app trimStart].
  - by rewrite Hc.
  - by rewrite Hd.
Qed.

(** And [timeRegex] matches every timing line. *)
Lemma matchTime_written (timeLine : jsstring) (start end_ : float) :
  timingOf timeLine start end_ → matchTime timeLine = Some (start, end_).
Proof.
  intros (h1 & m1 & s1 & ms1 & gap1 & gap2 & h2 & m2 & s2 & ms2 & rest
          & -> & Hok1 & Hok2 & Hgap1 & Hgap2 & -> & ->).
  unfold matchTime. rewrite timestamp_written by done. cbn [mbind option_bind].
  change (lit "-->") with [45; 45; 62]. cbn [app].
  rewrite trimStart_written by done. cbn [mbind option_bind expect Z.eqb Pos.eqb].
  destruct Hok2 as (Hh2 & Hm2 & Hs2 & Hms2).
  assert (Hhead : ∃ c r, stamp h2 m2 s2 ms2 ++ rest = c :: r ∧ is_ws c = false).
  { unfold stamp, digits2_of. destruct h2 as [h2|]; cbn [app]; eexists _, _;
      (split; [done|]); unfold is_ws.
    - assert (0 ≤ h2 / 10 ≤ 9) by (Z.to_euclidean_division_equations; lia). lia.
    - assert (0 ≤ m2 / 10 ≤ 9) by (Z.to_euclidean_division_equations; lia). lia. }
  destruct Hhead as (c & r & Hcr & Hc).
  rewrite Hcr, trimStart_written, <- Hcr by done.
  by rewrite timestamp_written.
Qed.

Lemma pushCue_times (P : Cue → Prop) (start end_ : float) (textLines : list jsstring) :
  (∀ text, P {| start := start; end_ := end_; text := text |}) →
  Forall P (pushCue start end_ textLines).
Proof. intros HP. unfold pushCue. destruct (trim _); by repeat constructor. Qed.

Lemma collectText_from_lines (P : Cue → Prop) (next : list jsstring → list Cue)
    (start end_ : float) (lines : list jsstring) : ∀ textLines,
  (∀ textLines, Forall P (pushCue start end_ textLines)) →
  (∀ lines', lines' ⊆ lines → (length lines' < length lines)%nat →
             Forall P (next lines')) →
  Forall P (collectText next start end_ textLines lines).
Proof.
  induction lines as [|l lines IH]; intros textLines Hpush Hnext; cbn [collectText].
  - apply Hpush.
  - destruct (trim l) as [|c t].
    + apply Forall_app_2; [apply Hpush|]. apply Hnext; [|simpl; lia].
      intros x Hx. by right.
    + apply IH; [done|]. intros lines' Hsub Hlen. apply Hnext; [|simpl; lia].
      intros x Hx. right. by apply Hsub.
Qed.

(** The times of every cue are those of a timing line among the lines. *)
Lemma parseCues_timing (lines : list jsstring) :
  Forall (fun cue => ∃ timeLine, timeLine ∈ lines
                                 ∧ timingOf timeLine (start cue) (end_ cue))
         (parseCues lines).
Proof.
  induction lines as [lines IH] using (induction_ltof1 _ (@length jsstring)).
  unfold ltof in IH. destruct lines as [|timeLine lines]; cbn [parseCues]; [constructor|].
  destruct (matchTime timeLine) as [[start end_]|] eqn:Hm.
  - apply collectText_from_lines.
    + intros textLines. apply pushCue_times. intros text. exists timeLine.
      split; [by left|]. by apply matchTime_Some.
    + intros lines' Hsub Hlen. eapply Forall_impl; [apply IH; simpl; lia|].
      intros cue (l & Hl & Ht). exists l. split; [|done]. right. by apply Hsub.
  - eapply Forall_impl; [apply IH; simpl; lia|].
    intros cue (l & Hl & Ht). exists l. split; [by right|done].
Qed.

Lemma skipHeader_subseteq (lines : list jsstring) : skipHeader lines ⊆ lines.
Proof.
  induction lines as [|l lines IH]; [done|]. cbn [skipHeader].
  destruct (testTime l); [done|]. intros x Hx. right. by apply IH.
Qed.

(** C9, as amended. Every cue that [parseVTT] returns has a text that is not
    empty and is already trimmed; and its [start] and [end] are the seconds
    of the two timestamps that begin one line of the file, the first and the
    second as they are written, with nothing that orders them. *)
Theorem parseVTT_cue_text_not_empty (vttContent : jsstring) :
  Forall (fun cue =>
            text cue ≠ [] ∧ trim (text cue) = text cue
            ∧ ∃ timeLine, timeLine ∈ split_lines vttContent
                          ∧ timingOf timeLine (start cue) (end_ cue))
         (parseVTT vttContent).
Proof.
  unfold parseVTT. apply Forall_forall. intros cue Hcue.
  pose proof (parseCues_ok (skipHeader (split_lines vttContent))) as Hok.
  pose proof (parseCues_timing (skipHeader (split_lines vttContent))) as Htime.
  rewrite Forall_forall in Hok, Htime.
  destruct (Hok cue Hcue) as [Hne Htrim].
  destruct (Htime cue Hcue) as (timeLine & Hline & Ht).
  split_and!; [done..|]. exists timeLine. split; [|done].
  by apply skipHeader_subseteq.
Qed.

(** C9 fails as stated: the parser keeps a cue that ends before it starts. *)
Lemma parseVTT_keeps_cue_with_end_before_start :
  parseVTT backwardCue = [{| start := 5%float; end_ := 1%float; text := lit "Hello" |}]
  ∧ PrimFloat.ltb 5%float 1%float = false.
Proof. split; vm_compute; reflexivity. Qed.

(** The timestamp grammar: hours are optional on either side. *)
Example matchTime_grammar :
  matchTime (lit "01:02.500  -->01:00:03.250 rest")
  = Some (62.5%float, 3603.25%float)
  ∧ matchTime (lit "1:02.500 --> 01:03.250") = None.
Proof. split; vm_compute; reflexivity. Qed.

End VTTFacts.

(** ** The segmenter *)

Module TitlingFacts.
Import Titling.

(** The characters of a segment: the length of its lines joined. *)
Definition segChars (s : Segment) : nat := length (join_empty (lines s)).

(** The duration given to a segment of [n] characters out of [total]. *)
Definition share (duration : float) (n total : nat) : float :=
  (duration * (float_of_nat n / float_of_nat total))%float.

(** A cue of 10 seconds that wraps into six lines: three segments. *)
Definition longCue : VTT.Cue :=
  {| VTT.start := 0%float; VTT.end_ := 10%float;
     VTT.text := replicate 4 97 ++ [32] ++ replicate 38 98 ++ [32] ++ replicate 37 99
                 ++ [32] ++ replicate 2 100 ++ [32] ++ replicate 38 101 ++ [32; 102] |}.

Lemma wrapStep_lengths (maxChars : nat) (st : jsstring * list jsstring) (word : jsstring) :
  (length st.1 ≤ maxChars)%nat ∧ Forall (fun l => (length l ≤ maxChars)%nat) st.2 →
  (length (wrapStep maxChars st word).1 ≤ maxChars)%nat
  ∧ Forall (fun l => (length l ≤ maxChars)%nat) (wrapStep maxChars st word).2.
Proof.
  destruct st as [line result]. simpl. intros [Hline Hres].
  case_bool_decide as Hnext; simpl; [done|]. split.
  - case_bool_decide; [done|]. rewrite length_take. lia.
  - destruct line; [done|]. apply Forall_app_2; [done|]. by repeat constructor.
Qed.

Lemma wrapLines_lengths (text : jsstring) (maxChars : nat) :
  Forall (fun l => (length l ≤ maxChars)%nat) (wrapLines text maxChars).
Proof.
  unfold wrapLines.
  assert (Hinv : ∀ ws st,
            (length st.1 ≤ maxChars)%nat ∧ Forall (fun l => (length l ≤ maxChars)%nat) st.2 →
            (length (foldl (wrapStep maxChars) st ws).1 ≤ maxChars)%nat
            ∧ Forall (fun l => (length l ≤ maxChars)%nat) (foldl (wrapStep maxChars) st ws).2).
  { induction ws as [|w ws IH]; intros st Hst; [done|].
    simpl. apply IH. by apply wrapStep_lengths. }
  destruct (Hinv (words text) ([], [])) as [Hline Hres].
  { simpl. split; [lia|constructor]. }
  destruct (foldl _ _ _) as [line result]. simpl in *.
  destruct line; [done|]. apply Forall_app_2; [done|]. by repeat constructor.
Qed.

Lemma map_id_Forall {A} (f : A → A) (l : list A) :
  Forall (fun x => f x = x) l → map f l = l.
Proof. induction 1 as [|x l Hx _ IH]; simpl; [done|]. by rewrite Hx, IH. Qed.

(** The chunks of two lines, put end to end, are the lines. *)
Lemma concat_slices {A} (n : nat) : ∀ l : list A,
  (length l ≤ 2 * n)%nat →
  concat (map (fun k => slice (k * 2) (k * 2 + 2) l) (seq 0 n)) = l.
Proof.
  induction n as [|n IH]; intros l Hlen.
  - destruct l; [done|]. simpl in Hlen. lia.
  - cbn [seq map concat]. rewrite <- seq_shift, map_map.
    rewrite (map_ext _ (fun k => slice (k * 2) (k * 2 + 2) (drop 2 l))).
    + rewrite IH by (rewrite length_drop; lia).
      unfold slice. simpl. rewrite drop_0. apply (take_drop 2).
    + intros k. unfold slice.
      replace (S k * 2 + 2 - S k * 2)%nat with 2%nat by lia.
      replace (k * 2 + 2 - k * 2)%nat with 2%nat by lia.
      rewrite drop_drop. f_equal.
Qed.

Lemma chunkLines_concat (allLines : list jsstring) :
  Forall (fun l => (length l ≤ CHARS_PER_LINE)%nat) allLines →
  concat (chunkLines allLines) = allLines.
Proof.
  intros Hlen. unfold chunkLines, MAX_LINES.
  rewrite (map_ext_in _ (fun k => slice (k * 2) (k * 2 + 2) allLines)).
  - apply concat_slices.
    pose proof (Nat.div_mod_eq (length allLines + 1) 2).
    pose proof (Nat.mod_upper_bound (length allLines + 1) 2). lia.
  - intros k _. unfold slice.
    apply map_id_Forall. apply Forall_take, Forall_drop.
    eapply Forall_impl; [exact Hlen|]. intros l Hl. by apply take_ge.
Qed.

Lemma layOut_lookup (duration : float) (total : nat) (chunks : list (list jsstring)) :
  ∀ elapsed i s,
    layOut duration total elapsed chunks !! i = Some s →
    chunks !! i = Some (lines s)
    ∧ end_ s = (start s + share duration (segChars s) total)%float.
Proof.
  induction chunks as [|chunk chunks IH]; intros elapsed i s Hs; [done|].
  destruct i as [|i]; simpl in Hs.
  - by injection Hs as <-.
  - by apply IH in Hs.
Qed.

Lemma layOut_head (duration : float) (total : nat) (chunks : list (list jsstring))
    (elapsed : float) (s : Segment) :
  layOut duration total elapsed chunks !! 0%nat = Some s → start s = elapsed.
Proof. destruct chunks; [done|]. simpl. by intros [= <-]. Qed.

Lemma layOut_next (duration : float) (total : nat) (chunks : list (list jsstring)) :
  ∀ elapsed i s s',
    layOut duration total elapsed chunks !! i = Some s →
    layOut duration total elapsed chunks !! S i = Some s' →
    start s' = end_ s.
Proof.
  induction chunks as [|chunk chunks IH]; intros elapsed i s s' Hs Hs'; [done|].
  destruct i as [|i]; simpl in Hs, Hs'.
  - injection Hs as <-. simpl. by apply layOut_head in Hs'.
  - by eapply IH.
Qed.

Lemma layOut_lines (duration : float) (total : nat) (chunks : list (list jsstring)) :
  ∀ elapsed, map lines (layOut duration total elapsed chunks) = chunks.
Proof. induction chunks as [|chunk chunks IH]; intros elapsed; simpl; [done|]. by rewrite IH. Qed.

Lemma map_lines_alter (f : Segment → Segment) (segments : list Segment) :
  (∀ s, lines (f s) = lines s) →
  ∀ i, map lines (alter f i segments) = map lines segments.
Proof.
  intros Hf. induction segments as [|s segments IH]; intros [|i]; simpl; [done..| |].
  - by rewrite Hf.
  - f_equal. apply IH.
Qed.

Lemma cueToSegments_lines (cue : VTT.Cue) :
  map lines (cueToSegments cue) = chunkLines (wrapLines (VTT.text cue) CHARS_PER_LINE).
Proof.
  unfold cueToSegments.
  destruct (chunkLines _) as [|c1 [|c2 rest]] eqn:Hch; [done..|].
  rewrite map_lines_alter by done. apply layOut_lines.
Qed.

Lemma sum_segChars (segments : list Segment) :
  sum_list (map segChars segments) = length (concat (concat (map lines segments))).
Proof.
  induction segments as [|s segments IH]; simpl; [done|].
  rewrite concat_app, length_app, IH. done.
Qed.

(** C5. The segments of a cue start at [cue.start], each segment but the last
    ends at its start plus [duration * (segChars / totalChars)] and the next
    one starts where it ends, the last segment ends at [cue.end], and a single
    segment has the start and the end of the cue. The characters of the
    segments add up to [totalChars]. *)
Theorem cueToSegments_timing (cue : VTT.Cue) :
  let segments := cueToSegments cue in
  let duration := (VTT.end_ cue - VTT.start cue)%float in
  let totalChars := length (join_empty (wrapLines (VTT.text cue) CHARS_PER_LINE)) in
  (∀ s, head segments = Some s → start s = VTT.start cue)
  ∧ (∀ s, last segments = Some s → end_ s = VTT.end_ cue)
  ∧ (∀ s, segments = [s] → start s = VTT.start cue ∧ end_ s = VTT.end_ cue)
  ∧ (∀ i s s', segments !! i = Some s → segments !! S i = Some s' →
       end_ s = (start s + share duration (segChars s) totalChars)%float
       ∧ start s' = end_ s)
  ∧ sum_list (map segChars segments) = totalChars.
Proof.
  intros segments duration totalChars.
  assert (Hsum : sum_list (map segChars segments) = totalChars).
  { subst segments totalChars. rewrite sum_segChars, cueToSegments_lines.
    by rewrite chunkLines_concat by apply wrapLines_lengths. }
  assert (Hmain :
    (∀ s, head segments = Some s → start s = VTT.start cue)
    ∧ (∀ s, last segments = Some s → end_ s = VTT.end_ cue)
    ∧ (∀ i s s', segments !! i = Some s → segments !! S i = Some s' →
         end_ s = (start s + share duration (segChars s) totalChars)%float
         ∧ start s' = end_ s)).
  { subst segments. unfold cueToSegments. fold duration. fold totalChars.
    destruct (chunkLines _) as [|c1 [|c2 rest]] eqn:Hch.
    - done.
    - split; [by intros s [= <-]|]. split; [by intros s [= <-]|]. by intros [|i] s s' Hs Hs'.
    - set (segs := layOut duration totalChars (VTT.start cue) (c1 :: c2 :: rest)).
      set (f := fun s => {| start := start s; end_ := VTT.end_ cue; lines := lines s |}).
      assert (Hn : length segs = S (S (length rest))).
      { rewrite <- (length_map lines). subst segs. by rewrite layOut_lines. }
      assert (Hstart : ∀ i s, alter f (length segs - 1)%nat segs !! i = Some s →
                ∃ s0, segs !! i = Some s0 ∧ start s = start s0
                      ∧ (i ≠ (length segs - 1)%nat → s = s0)
                      ∧ (i = (length segs - 1)%nat → end_ s = VTT.end_ cue)).
      { intros i s Hs. destruct (decide (i = (length segs - 1)%nat)) as [->|Hne].
        - rewrite list_lookup_alter_eq in Hs.
          destruct (segs !! _) as [s0|]; [|done]. injection Hs as <-. by exists s0.
        - rewrite list_lookup_alter_ne in Hs by done. by exists s. }
      split; [|split].
      + intros s Hs. rewrite head_lookup in Hs.
        apply Hstart in Hs as (s0 & Hs0 & -> & _). by apply layOut_head in Hs0.
      + intros s Hs. rewrite last_lookup, length_alter in Hs.
        apply Hstart in Hs as (s0 & _ & _ & _ & Hend). apply Hend. lia.
      + intros i s s' Hs Hs'.
        assert (S i < length segs)%nat as Hlt.
        { apply lookup_lt_Some in Hs'. by rewrite length_alter in Hs'. }
        apply Hstart in Hs as (s0 & Hs0 & _ & Heq & _). rewrite (Heq ltac:(lia)).
        apply Hstart in Hs' as (s1 & Hs1 & -> & _).
        split; [by apply layOut_lookup in Hs0 as [_ ?]|].
        by apply (layOut_next _ _ _ _ _ _ _ Hs0 Hs1). }
  destruct Hmain as (Hhead & Hlast & Hnext).
  split; [done|]. split; [done|]. split; [|done].
  intros s Hs. split; [apply Hhead|apply Hlast]; by rewrite Hs.
Qed.

Example cueToSegments_longCue :
  map (fun s => (start s, end_ s, segChars s)) (cueToSegments longCue)
  = [(0%float, 3.5%float, 42%nat); (3.5%float, 6.75%float, 39%nat);
     (6.75%float, 10%float, 39%nat)].
Proof. vm_compute. reflexivity. Qed.

End TitlingFacts.

(** ** The scheduler *)

Module SchedulerFacts.
Import Server.

(** [t] lies inside the segment: [start <= t < end]. *)
Definition inside (t : float) (s : Titling.Segment) : Prop :=
  PrimFloat.leb (Titling.start s) t = true ∧ PrimFloat.ltb t (Titling.end_ s) = true.

(** The gap to the next segment start: the start of the first segment that
    starts after [t], less [t]; infinity when there is none. *)
Definition gapToNext (t : float) (segs : list Titling.Segment) : float :=
  match head (filter (fun s => PrimFloat.ltb t (Titling.start s) = true) segs) with
  | Some s => (Titling.start s - t)%float
  | None => infinity
  end.

(** The single cue [{0, 2, "Hello"}] of the first scheduler scenario. *)
Definition helloState (lastShown : Z) : State :=
  {| segments := [{| Titling.start := 0%float; Titling.end_ := 2%float;
                     Titling.lines := [lit "Hello"] |}];
     lastShownSegmentIndex := lastShown; tickTimer := true; timeMode := "osc";
     autonomousStartAt := 0%float; autonomousStartWall := 0%float |}.

Definition worldAt (t : option float) : World :=
  {| now := 0%float; oscTime := t; readFile := fun _ => Throws "ENOENT" |}.

Lemma findCurrent_outside (t : float) (segs : list Titling.Segment) : ∀ i,
  (∀ s, s ∈ segs → ¬ inside t s) → findCurrent t i segs = -1.
Proof.
  induction segs as [|s segs IH]; intros i Hout; simpl; [done|].
  destruct (PrimFloat.leb _ _ && PrimFloat.ltb _ _) eqn:Hin.
  - apply andb_true_iff in Hin. destruct (Hout s); [by left|done].
  - apply IH. intros s' Hs'. apply Hout. by right.
Qed.

Lemma nextSegmentStart_head (t : float) (segs : list Titling.Segment) :
  nextSegmentStart t segs
  = Titling.start <$> head (filter (fun s => PrimFloat.ltb t (Titling.start s) = true) segs).
Proof.
  induction segs as [|s segs IH]; simpl; [done|].
  rewrite filter_cons. destruct (PrimFloat.ltb t (Titling.start s)) eqn:Hlt.
  - by rewrite decide_True.
  - by rewrite decide_False by done.
Qed.

(** C6. A tick whose time source gives [null] dispatches nothing. A tick at a
    time [t] inside no segment clears the title and resets the index to -1
    when the index is at least 0 and the gap to the next segment start is
    more than 2 seconds; otherwise it dispatches nothing and leaves the state
    as it is. *)
Theorem tick_outside_every_segment (st : State) (w : World) :
  (getCurrentTime st w = None → tick st w = (st, []))
  ∧ (∀ t, getCurrentTime st w = Some t →
          (∀ s, s ∈ segments st → ¬ inside t s) →
          tick st w
          = if bool_decide (0 ≤ lastShownSegmentIndex st)
               && PrimFloat.ltb 2%float (gapToNext t (segments st))
            then (setLastShown st (-1), [clearTitle])
            else (st, [])).
Proof.
  unfold tick. split.
  - by intros ->.
  - intros t -> Hout. unfold gapToNext.
    destruct (segments st) as [|s segs] eqn:Hsegs.
    + cbn [filter list_filter head]. change (PrimFloat.ltb 2 infinity) with true.
      by rewrite andb_true_r.
    + rewrite (findCurrent_outside t (s :: segs) 0) by done.
      rewrite bool_decide_eq_false_2 by lia.
      rewrite nextSegmentStart_head. unfold GAP_BEFORE_CLEAR_S.
      destruct (head _) as [s'|]; cbn [fmap option_fmap option_map];
        by case_bool_decide.
Qed.

Lemma tick_outside_witness :
  tick (helloState 0) (worldAt (Some 2.5%float)) = (helloState (-1), [clearTitle])
  ∧ tick (helloState 0) (worldAt None) = (helloState 0, []).
Proof.
  destruct (tick_outside_every_segment (helloState 0) (worldAt (Some 2.5%float)))
    as [_ Hout].
  destruct (tick_outside_every_segment (helloState 0) (worldAt None)) as [Hnull _].
  split.
  - rewrite (Hout 2.5%float); [reflexivity|reflexivity|].
    intros s Hs [_ Hlt]. apply list_elem_of_singleton in Hs as ->.
    vm_compute in Hlt. discriminate.
  - apply Hnull. reflexivity.
Defined.

(** The scenarios of the specification: one cue, then two cues with a gap
    shorter than the hold window. *)
Example scenario_single_cue :
  tick (helloState (-1)) (worldAt (Some 0.0625%float))
  = (helloState 0, [sendTitle [lit "Hello"]])
  ∧ tick (helloState 0) (worldAt (Some 2.0625%float)) = (helloState (-1), [clearTitle]).
Proof. split; vm_compute; reflexivity. Qed.

End SchedulerFacts.

(** ** The HTTP handler *)

Module HandlerFacts.
Import Server.

(** A property of the body, [undefined] also when the body is no object. *)
Definition field (key : jsstring) (data : json) : option json :=
  match data with
  | JObj fields => lookupField key fields
  | _ => None
  end.

(** The path that the request names: [vttPath], or [path] when [vttPath] is
    absent or null, if that is a string and not the empty one. *)
Definition requestedPath (data : json) : option jsstring :=
  match nullish (field (lit "vttPath") data) (field (lit "path") data) with
  | Some (JStr (c :: p)) => Some (c :: p)
  | _ => None
  end.

(** [timeMode] is absent, "osc" or "autonomous". *)
Definition timeModeAccepted (data : json) : bool :=
  match field (lit "timeMode") data with
  | None => true
  | Some (JStr s) => bool_decide (s = lit "osc") || bool_decide (s = lit "autonomous")
  | Some _ => false
  end.

(** A request to start titling is refused when the JSON is invalid, when it
    names no path, when its [timeMode] is not accepted, and when the file
    cannot be read. *)
Definition refused (w : World) (parsedBody : option json) : bool :=
  match parsedBody with
  | None => true
  | Some data =>
      match requestedPath data with
      | None => true
      | Some p =>
          negb (timeModeAccepted data)
          || match readFile w p with Throws _ => true | Ok _ => false end
      end
  end.

(** The document of a successful start: the counts of cues and segments of
    the file, the mode, and [startAt] in autonomous mode only. *)
Definition loadedOf (content : jsstring) (data : json) : Loaded :=
  let cues := VTT.parseVTT content in
  let autonomous := isString (lit "autonomous") (field (lit "timeMode") data) in
  {| loaded_cues := length cues;
     loaded_segments := length (Titling.cuesToSegments cues);
     loaded_timeMode := if autonomous then "autonomous" else "osc";
     loaded_startAt :=
       if autonomous
       then Some (match field (lit "startAt") data with
                  | Some (JNum x) => x
                  | _ => 0%float
                  end)
       else None |}.

(** A request in the specification's words: a path and "external" as mode. *)
Definition externalRequest : Request :=
  {| method := "POST"; pathname := "/titling";
     parsedBody := Some (JObj [(lit "vttPath", JStr (lit "a.vtt"));
                              (lit "timeMode", JStr (lit "external"))]) |}.

Definition oscRequest : Request :=
  {| method := "POST"; pathname := "/titling";
     parsedBody := Some (JObj [(lit "vttPath", JStr (lit "a.vtt"));
                              (lit "timeMode", JStr (lit "osc"))]) |}.

(** A world whose every file holds one cue. *)
Definition oneCueWorld : World :=
  {| now := 0%float; oscTime := None;
     readFile := fun _ => Ok (lit "00:00.000 --> 00:02.000" ++ [10] ++ lit "Hello") |}.

Lemma getProp_field (key : jsstring) (data : json) :
  data ≠ JNull → getProp key data = Ok (field key data).
Proof. by destruct data. Qed.

(** C8, as amended. A POST to /titling whose body is valid JSON other than
    null gets a response. Its status is 400 when the request is refused:
    the JSON is invalid, or [vttPath] (or [path]) is missing or not a
    non-empty string, or [timeMode] is present and neither "osc" nor
    "autonomous", or the file cannot be read. Otherwise it is 200, with the
    counts of cues and segments, the mode and, in autonomous mode, [startAt]. *)
Theorem post_titling_response (st : State) (w : World) (req : Request) :
  method req = "POST"%string →
  pathname req = "/titling"%string ∨ pathname req = "/titling/"%string →
  parsedBody req ≠ Some JNull →
  ∃ resp,
    (handle st w req).2 = Ok resp
    ∧ statusCode resp = (if refused w (parsedBody req) then 400 else 200)
    ∧ (refused w (parsedBody req) = false →
       ∃ data p content,
         parsedBody req = Some data ∧ requestedPath data = Some p
         ∧ timeModeAccepted data = true
         ∧ readFile w p = Ok content
         ∧ body resp = LoadedBody (loadedOf content data)).
Proof.
  intros Hmethod Hpath Hnull. unfold handle.
  rewrite Hmethod, bool_decide_eq_true_2 by done.
  assert (Hp : bool_decide (pathname req = "/titling"%string)
               || bool_decide (pathname req = "/titling/"%string) = true).
  { destruct Hpath as [->| ->]; done. }
  rewrite Hp. cbn [andb]. clear Hmethod Hpath Hp.
  unfold refused, requestedPath, timeModeAccepted, loadedOf, loadVTT.
  destruct (parsedBody req) as [data|]; [|by eexists].
  assert (data ≠ JNull) as Hdata by congruence.
  rewrite !getProp_field by done.
  destruct (nullish _ _) as [[| | |[|c p]| |]|] eqn:Hpath; try (by eexists).
  destruct (field (lit "timeMode") data) as [[| | |s| |]|] eqn:Htm; try (by eexists).
  - cbn [isUndefined isString negb andb].
    destruct (decide (s = lit "autonomous")) as [->|Hauto].
    + rewrite (bool_decide_eq_false_2 (lit "autonomous" = lit "osc")) by discriminate.
      rewrite (bool_decide_eq_true_2 (lit "autonomous" = lit "autonomous")) by done.
      cbn [negb andb orb].
      destruct (readFile w (c :: p)) as [content|message] eqn:Hread; cbn [bind];
        [|by eexists].
      eexists. split; [done|]. split; [done|]. intros _.
      exists data, (c :: p), content. rewrite Htm, Hpath. cbn [isString].
      rewrite (bool_decide_eq_true_2 (lit "autonomous" = lit "autonomous")) by done.
      split_and!; try done. cbn [body]. do 2 f_equal.
      rewrite !bool_decide_eq_true_2 by done.
      by destruct (field (lit "startAt") data) as [[]|].
    + rewrite (bool_decide_eq_false_2 (s = lit "autonomous")) by done.
      destruct (decide (s = lit "osc")) as [->|Hosc].
      * rewrite (bool_decide_eq_true_2 (lit "osc" = lit "osc")) by done.
        cbn [negb andb orb].
        destruct (readFile w (c :: p)) as [content|message] eqn:Hread; cbn [bind];
          [|by eexists].
        eexists. split; [done|]. split; [done|]. intros _.
        exists data, (c :: p), content. rewrite Htm, Hpath. cbn [isString].
        by rewrite (bool_decide_eq_false_2 (lit "osc" = lit "autonomous")) by discriminate.
      * rewrite (bool_decide_eq_false_2 (s = lit "osc")) by done.
        by eexists.
  - cbn [isUndefined isString negb andb orb].
    destruct (readFile w (c :: p)) as [content|message] eqn:Hread; cbn [bind];
      [|by eexists].
    eexists. split; [done|]. split; [done|]. intros _.
    exists data, (c :: p), content. by rewrite Htm, Hpath.
Qed.

(** C8 fails as stated: "external" is not a mode of the server, which answers
    400 although the path is valid and the file readable. *)
Lemma post_titling_external_is_refused :
  (handle initial oneCueWorld externalRequest).2
  = Ok {| statusCode := 400; body := ErrorBody timeModeError |}.
Proof. vm_compute. reflexivity. Qed.

Lemma post_titling_witness :
  ∃ resp,
    (handle initial oneCueWorld oscRequest).2 = Ok resp
    ∧ statusCode resp = 200
    ∧ body resp = LoadedBody {| loaded_cues := 1; loaded_segments := 1;
                                loaded_timeMode := "osc"; loaded_startAt := None |}.
Proof.
  destruct (post_titling_response initial oneCueWorld oscRequest)
    as (resp & Hresp & Hstatus & Hbody).
  - reflexivity.
  - by left.
  - discriminate.
  - exists resp. split; [exact Hresp|]. split; [exact Hstatus|].
    destruct Hbody as (data & p & content & Hdata & Hp & _ & Hread & ->); [reflexivity|].
    injection Hdata as <-. injection Hp as <-. injection Hread as <-.
    vm_compute. reflexivity.
Defined.

(** A body that is the JSON [null] makes the handler throw: no response. *)
Example post_titling_null_body_throws :
  (handle initial oneCueWorld
     {| method := "POST"; pathname := "/titling"; parsedBody := Some JNull |}).2
  = Throws "TypeError: Cannot read properties of null".
Proof. reflexivity. Qed.

End HandlerFacts.

(** * More of the encoders *)

Module X26More.
Import X26 X26Facts.

(** X1. The packed value has 18 bits and gives back the three fields: the
    address in bits 0-5, the mode in bits 6-10, the data in bits 11-17, each
    cut to its width. *)
Theorem packEnhancement_unpacks (mode address data : Z) :
  let v := packEnhancement mode address data in
  0 ≤ v < 2 ^ 18
  ∧ Z.land v 0x3F = Z.land address 0x3F
  ∧ Z.land (Z.shiftr v 6) 0x1F = Z.land mode 0x1F
  ∧ Z.shiftr v 11 = Z.land data 0x7F.
Proof.
  intros v. subst v. rewrite packEnhancement_sum.
  pose proof (land_mask_range address 6 ltac:(lia)) as Ha.
  pose proof (land_mask_range mode 5 ltac:(lia)) as Hm.
  pose proof (land_mask_range data 7 ltac:(lia)) as Hd.
  change (bitmask 6) with 0x3F in *. change (bitmask 5) with 0x1F in *.
  change (bitmask 7) with 0x7F in *.
  set (a := Z.land address 0x3F) in *. set (m := Z.land mode 0x1F) in *.
  set (d := Z.land data 0x7F) in *. clearbody a m d.
  rewrite !Z.shiftr_div_pow2 by lia.
  change 0x3F with (Z.ones 6). change 0x1F with (Z.ones 5).
  rewrite !Z.land_ones by lia.
  change (2 ^ 18) with 262144. change (2 ^ 6) with 64 in *.
  change (2 ^ 5) with 32 in *. change (2 ^ 7) with 128 in *.
  change (2 ^ 11) with 2048.
  repeat split; try lia; Z.div_mod_to_equations; lia.
Qed.

(** The fields of a triplet fit their widths: 5, 6 and 7 bits. *)
Definition fitsWidths (t : Triplet) : Prop :=
  0 ≤ mode t < 32 ∧ 0 ≤ address t < 64 ∧ 0 ≤ data t < 128.

Lemma charTriplet_fits (opts : Opts) ch e (c : nat) :
  czechTable opts !! ch = Some e → (c < 64)%nat → fitsWidths (charTriplet e c).
Proof.
  intros (u & b & _ & _ & Hb & Hrange & Hidx & Hd)%buildCzechMap_entry Hc.
  pose proof (land_mask_range b 7 ltac:(lia)) as Hland.
  unfold fitsWidths, charTriplet, diacriticIndexOf, Mode_DiacriticBase,
    Mode_G2Character in *.
  change (bitmask 7) with 127 in Hland. change (2 ^ 7) with 128 in Hland.
  rewrite Hb. cbn [charCodeAt0_and_7f].
  destruct (useCompose e); [cbn [mode address data]; lia|].
  destruct (g2 e) as [code|]; cbn [mode address data]; [|lia].
  pose proof (land_mask_range code 7 ltac:(lia)) as Hcode.
  change (bitmask 7) with 127 in Hcode. change (2 ^ 7) with 128 in Hcode. lia.
Qed.

(** X2. For a row of at most 64 characters and a row location in 1..24, every
    triplet that [encodeRow] pushes has a mode below 32, an address below 64
    and a data value below 128, whatever caron options the encoder was built
    with: packing it cuts nothing off. *)
Theorem encodeRow_triplets_fit_their_widths
    (opts : Opts) (this : X26Encoder) (str : jsstring) (rowLocation : Z) :
  buildCzechMap opts = Ok (czechMap this) →
  1 ≤ rowLocation ≤ 24 →
  (length (Array_from str) ≤ 64)%nat →
  ∃ pushed,
    enhancements (encodeRow this str rowLocation).1 = enhancements this ++ pushed
    ∧ Forall fitsWidths pushed.
Proof.
  intros Hmap%buildCzechMap_Ok Hrow Hlen. unfold encodeRow.
  pose proof (encodeRow_loop_enhancements (czechMap this) rowLocation
                (Array_from str) 0 true (enhancements this)) as Hl.
  destruct (encodeRow_loop _ _ _ _ _ _) as [row enh]. cbn [fst snd enhancements] in *.
  eexists. split; [exact Hl|]. apply Forall_app_2.
  - destruct (mappedFrom _ _ _); [constructor|]. constructor; [|constructor].
    unfold fitsWidths, setActivePosition. cbn [mode address data].
    case_bool_decide; lia.
  - apply Forall_map, Forall_forall. intros [c e] Hce. cbn [fst snd].
    apply elem_of_mappedFrom in Hce as (ch & _ & Hc & He).
    rewrite Hmap in He. eapply charTriplet_fits; [exact He|].
    apply lookup_lt_Some in Hc. lia.
Qed.

Lemma encodeRow_triplets_fit_witness :
  ∃ this pushed,
    new_X26Encoder no_opts = Ok this
    ∧ enhancements (encodeRow this sampleBoxedRow 19).1 = pushed
    ∧ Forall fitsWidths pushed.
Proof.
  destruct (encodeRow_triplets_fit_their_widths no_opts (builtEncoder no_opts)
              sampleBoxedRow 19) as (pushed & Hp & Hfit).
  - reflexivity.
  - lia.
  - vm_compute. lia.
  - exists (builtEncoder no_opts), pushed.
    split; [reflexivity|]. split; [exact Hp|exact Hfit].
Defined.


(** X3 support: what [encodeRow] does to one character. *)
Lemma rowCell_of_character (opts : Opts) (m : gmap jsstring Entry) (ch : jsstring) :
  m = czechTable opts →
  (∃ c, ch = [c]) ∨ (∃ h l, ch = [h; l] ∧ is_high_surrogate h = true
                             ∧ is_low_surrogate l = true) →
  match m !! ch with Some e => rowCell e | None => ch end
  = map (WSTFacts.x26Byte m) ch
  ∧ m !! map (WSTFacts.x26Byte m) ch = None.
Proof.
  intros -> Hch. unfold WSTFacts.x26Byte.
  assert (Hkey : ∀ c, ¬ (0xC1 ≤ c ≤ 0x17E) → czechTable opts !! [c] = None).
  { intros c Hc. destruct (czechTable opts !! [c]) as [e|] eqn:He; [|done].
    apply buildCzechMap_entry in He as (u & b & [= ->] & ? & _). done. }
  assert (Hpair : ∀ h l, czechTable opts !! [h; l] = None).
  { intros h l. destruct (czechTable opts !! [h; l]) as [e|] eqn:He; [|done].
    by apply buildCzechMap_entry in He as (u & b & [=] & _). }
  destruct Hch as [[c ->]|(h & l & -> & Hh & Hl)].
  - cbn [map]. destruct (czechTable opts !! [c]) as [e|] eqn:He; [|done].
    apply buildCzechMap_entry in He as (u & b & _ & _ & Hb & ? & _).
    unfold rowCell. destruct (g2 e).
    + change (lit " ") with [32]. split; [done|]. apply Hkey. simpl. lia.
    + rewrite Hb. split; [done|]. apply Hkey. simpl. lia.
  - rewrite Hpair. cbn [map]. unfold is_high_surrogate, is_low_surrogate in *.
    rewrite !Hkey by lia. done.
Qed.

Lemma x26Byte_keeps_surrogates (opts : Opts) (c : Z) :
  is_high_surrogate (WSTFacts.x26Byte (czechTable opts) c) = is_high_surrogate c
  ∧ is_low_surrogate (WSTFacts.x26Byte (czechTable opts) c) = is_low_surrogate c.
Proof.
  unfold WSTFacts.x26Byte.
  destruct (czechTable opts !! [c]) as [e|] eqn:He; [|done].
  apply buildCzechMap_entry in He as (u & b & [= ->] & ? & Hb & ? & _).
  unfold rowCell, is_high_surrogate, is_low_surrogate.
  change (lit " ") with [32].
  destruct (g2 e); rewrite ?Hb; cbn [hd];
    repeat match goal with |- context [Z.leb ?x ?y] => destruct (Z.leb_spec x y) end;
    simpl in *; try done; lia.
Qed.

(** X3. The row that [encodeRow] returns has the length of the given one: each
    code unit that is a table letter is replaced by one ASCII code unit, the
    others are kept. No character of the returned row is in the table, so
    encoding it once more would push nothing. *)
Theorem encodeRow_row_has_no_table_letter
    (opts : Opts) (this : X26Encoder) (str : jsstring) (rowLocation : Z) :
  buildCzechMap opts = Ok (czechMap this) →
  let out := (encodeRow this str rowLocation).2 in
  out = map (WSTFacts.x26Byte (czechMap this)) str
  ∧ length out = length str
  ∧ Forall (fun ch => czechMap this !! ch = None) (Array_from out).
Proof.
  intros Hmap%buildCzechMap_Ok out.
  assert (Hcells : Forall (fun ch =>
            match czechMap this !! ch with Some e => rowCell e | None => ch end
            = map (WSTFacts.x26Byte (czechMap this)) ch
            ∧ czechMap this !! map (WSTFacts.x26Byte (czechMap this)) ch = None)
            (Array_from str)).
  { eapply Forall_impl; [apply Array_from_elements|].
    intros ch Hch. by apply (rowCell_of_character opts). }
  assert (Hout : out = map (WSTFacts.x26Byte (czechMap this)) str).
  { subst out. unfold encodeRow.
    pose proof (encodeRow_loop_row (czechMap this) rowLocation (Array_from str) 0 true
                  (enhancements this)) as Hrow.
    destruct (encodeRow_loop _ _ _ _ _ _) as [row enh]. cbn [fst snd] in *. subst row.
    unfold join_empty.
    rewrite <- (concat_Array_from str) at 2. rewrite <- concat_map_map. f_equal.
    induction Hcells as [|ch chs [Hch _] _ IH]; [done|]. cbn [map]. by rewrite Hch, IH. }
  split; [done|]. split; [by rewrite Hout, length_map|].
  rewrite Hout, Hmap, Array_from_map by apply x26Byte_keeps_surrogates.
  rewrite <- Hmap. apply Forall_map. eapply Forall_impl; [exact Hcells|]. by intros ch [_ ?].
Qed.

Lemma encodeRow_row_witness :
  ∃ this,
    new_X26Encoder no_opts = Ok this
    ∧ (encodeRow this sampleBoxedRow 19).2 = [0x0b; 0x0b] ++ lit "Lod ceri"
    ∧ length (encodeRow this sampleBoxedRow 19).2 = length sampleBoxedRow.
Proof.
  destruct (encodeRow_row_has_no_table_letter no_opts (builtEncoder no_opts)
              sampleBoxedRow 19) as (Hout & Hlen & _).
  - reflexivity.
  - exists (builtEncoder no_opts). split; [reflexivity|].
    split; [|exact Hlen]. rewrite Hout. vm_compute. reflexivity.
Defined.

Section WithCodec.
Context `{ParityCodec}.

(** X4. The packets of the getter are built from consecutive chunks of 13
    triplets which, put end to end, are the accumulated list: no triplet is
    left out or sent twice, and the packets are numbered from 0. *)
Theorem enhancementPackets_chunks_cover_the_list
    (enh : list Triplet) (m : gmap jsstring Entry) :
  let ps := (enhancementPackets {| enhancements := enh; packets := None; czechMap := m |}).2 in
  let chunks := map (fun i => slice (i * 13) ((i + 1) * 13) enh) (seq 0 (length ps)) in
  concat chunks = enh
  ∧ ps = zip_with encodeX26Packet (seq 0 (length ps)) chunks.
Proof.
  cbv zeta. unfold enhancementPackets. cbn [packets enhancements snd].
  rewrite (foldl_push_map (fun i => encodeX26Packet i (slice (i * 13) ((i + 1) * 13) enh))).
  rewrite app_nil_l, length_map, length_seq.
  set (n := ((length enh + 12) / 13)%nat).
  assert (Hn : (length enh ≤ 13 * n)%nat).
  { subst n. pose proof (Nat.div_mod_eq (length enh + 12) 13).
    pose proof (Nat.mod_upper_bound (length enh + 12) 13). lia. }
  clearbody n. split.
  - apply concat_slices_of; lia.
  - by rewrite zip_with_seq_map.
Qed.

(** X5. The packets are built at the first reading of the getter and kept:
    rows encoded afterwards add to the enhancement list but not to the
    packets, which a second reading gives back unchanged. *)
Theorem enhancementPackets_ignores_later_rows
    (this : X26Encoder) (str : jsstring) (rowLocation : Z) :
  let this1 := (enhancementPackets this).1 in
  let ps := (enhancementPackets this).2 in
  let this2 := (encodeRow this1 str rowLocation).1 in
  enhancementPackets this2 = (this2, ps)
  ∧ packets this2 = Some ps.
Proof.
  cbv zeta.
  assert (Hps : packets (enhancementPackets this).1 = Some (enhancementPackets this).2).
  { unfold enhancementPackets. by destruct (packets this) eqn:Hp. }
  assert (Hrow : packets (encodeRow (enhancementPackets this).1 str rowLocation).1
                 = Some (enhancementPackets this).2).
  { unfold encodeRow. by destruct (encodeRow_loop _ _ _ _ _ _). }
  split; [|done]. unfold enhancementPackets at 1. by rewrite Hrow.
Qed.

End WithCodec.

End X26More.

(** ** The Czech table in G2 mode *)

Module X26Tables.
Import X26 X26Facts.

(** The caron options as [buildCzechMap] reads them. *)
Definition caronEncodingOf (opts : Opts) : string :=
  default "compose"%string (opts_caronEncoding opts).
Definition g2SetOf (opts : Opts) : G2Set :=
  default G2_default (G2_CARON_SETS !! default "default"%string (opts_g2Variant opts)).

(** The entry that the two caron loops set for [letter]. *)
Definition caronEntry (opts : Opts) (bases : gmap jsstring jsstring) (letter : jsstring)
  : Entry :=
  {| base := default [] (bases !! letter);
     diacritic := DiacriticIndex_Caron;
     g2 := if bool_decide (caronEncodingOf opts = "g2"%string)
           then caronG2 (g2SetOf opts) letter else None;
     useCompose := bool_decide (caronEncodingOf opts = "compose"%string);
     caronDiacriticIndex :=
       Some (Z.max 1 (Z.min 15 (default 15 (opts_caronDiacriticIndex opts)))) |}.

Ltac lookup_inserted :=
  repeat first [ rewrite lookup_insert_eq | rewrite lookup_insert_ne by discriminate ].

Lemma buildCzechMap_caron_lower (opts : Opts) (i : nat) (letter : jsstring) :
  CARON_LETTERS !! i = Some letter →
  czechTable opts !! letter = Some (caronEntry opts caronBase letter).
Proof.
  intros Hl. unfold czechTable, czechMapWith, caronEntry, caronEncodingOf, g2SetOf. cbv zeta.
  cbv [setCarons foldl acuteRing CARON_LETTERS CARON_LETTERS_UC] in *.
  do 8 (destruct i as [|i]; [injection Hl as <-; by lookup_inserted|]).
  done.
Qed.

Lemma buildCzechMap_caron_upper (opts : Opts) (i : nat) (letter : jsstring) :
  CARON_LETTERS_UC !! i = Some letter →
  czechTable opts !! letter = Some (caronEntry opts caronBaseUC letter).
Proof.
  intros Hl. unfold czechTable, czechMapWith, caronEntry, caronEncodingOf, g2SetOf. cbv zeta.
  cbv [setCarons foldl acuteRing CARON_LETTERS CARON_LETTERS_UC] in *.
  do 8 (destruct i as [|i]; [injection Hl as <-; by lookup_inserted|]).
  done.
Qed.

Lemma caronG2_lower (gs : G2Set) (i : nat) (letter : jsstring) :
  CARON_LETTERS !! i = Some letter → caronG2 gs letter = lower gs !! i.
Proof.
  intros Hl. cbv [CARON_LETTERS] in Hl.
  do 8 (destruct i as [|i]; [injection Hl as <-; reflexivity|]).
  done.
Qed.

Lemma caronG2_upper (gs : G2Set) (i : nat) (letter : jsstring) :
  CARON_LETTERS_UC !! i = Some letter → caronG2 gs letter = upper gs !! i.
Proof.
  intros Hl. cbv [CARON_LETTERS_UC] in Hl.
  do 8 (destruct i as [|i]; [injection Hl as <-; reflexivity|]).
  done.
Qed.

(** Each of the four code sets has eight 7-bit codes in either case; an
    unknown variant gives the default set. *)
Lemma g2SetOf_codes (opts : Opts) :
  length (lower (g2SetOf opts)) = 8%nat
  ∧ length (upper (g2SetOf opts)) = 8%nat
  ∧ Forall (fun code => 0 ≤ code < 128) (lower (g2SetOf opts) ++ upper (g2SetOf opts)).
Proof.
  unfold g2SetOf. generalize (default "default"%string (opts_g2Variant opts)). intros v.
  assert (Hok : ∀ lo up : list Z,
            forallb (fun c => (0 <=? c) && (c <? 128)) (lo ++ up) = true →
            Forall (fun code => 0 ≤ code < 128) (lo ++ up)).
  { intros lo up Hb. apply Forall_forall. intros c Hc.
    rewrite forallb_forall in Hb. apply list_elem_of_In in Hc.
    specialize (Hb c Hc). lia. }
  destruct (G2_CARON_SETS !! v) as [gs|] eqn:Hv; cbn [default].
  - unfold G2_CARON_SETS in Hv.
    repeat (apply lookup_insert_Some in Hv as [[_ <-]|[_ Hv]];
            [split; [done|]; split; [done|]; by apply Hok|]).
    by rewrite lookup_empty in Hv.
  - split; [done|]. split; [done|]. by apply Hok.
Qed.

Lemma caron_letter_entry (opts : Opts) (i : nat) (letter : jsstring) :
  opts_caronEncoding opts = Some "g2"%string →
  (CARON_LETTERS ++ CARON_LETTERS_UC) !! i = Some letter →
  ∃ e code,
    (lower (g2SetOf opts) ++ upper (g2SetOf opts)) !! i = Some code
    ∧ 0 ≤ code < 128
    ∧ czechTable opts !! letter = Some e
    ∧ rowCell e = lit " "
    ∧ ∀ col, charTriplet e col
             = {| mode := 0x0F; address := Z.of_nat col; data := code |}.
Proof.
  intros Henc Hl.
  destruct (g2SetOf_codes opts) as (Hlo & Hup & Hcodes).
  assert (Hi : (i < 16)%nat) by (by apply lookup_lt_Some in Hl).
  assert (∃ code, (lower (g2SetOf opts) ++ upper (g2SetOf opts)) !! i = Some code)
    as [code Hcode].
  { apply lookup_lt_is_Some. rewrite length_app. lia. }
  assert (Hrange : 0 ≤ code < 128).
  { rewrite Forall_forall in Hcodes. apply Hcodes. by eapply list_elem_of_lookup_2. }
  assert (He : ∃ bases, czechTable opts !! letter = Some (caronEntry opts bases letter)
                        ∧ caronG2 (g2SetOf opts) letter = Some code).
  { destruct (decide (i < 8)%nat) as [Hlt|Hge].
    - rewrite lookup_app_l in Hl by (simpl; lia).
      rewrite lookup_app_l in Hcode by lia.
      exists caronBase. split; [by eapply buildCzechMap_caron_lower|].
      by rewrite (caronG2_lower _ i).
    - rewrite lookup_app_r in Hl by (simpl; lia).
      rewrite lookup_app_r in Hcode by lia.
      replace (length CARON_LETTERS) with 8%nat in Hl by done. rewrite Hlo in Hcode.
      exists caronBaseUC. split; [by eapply buildCzechMap_caron_upper|].
      by rewrite (caronG2_upper _ (i - 8)). }
  destruct He as (bases & He & Hg2).
  exists (caronEntry opts bases letter), code.
  split; [done|]. split; [done|]. split; [done|].
  unfold rowCell, charTriplet, caronEntry, caronEncodingOf.
  rewrite Henc. cbn [default g2 useCompose].
  rewrite (bool_decide_eq_true_2 ("g2"%string = "g2"%string)) by done.
  rewrite (bool_decide_eq_false_2 ("g2"%string = "compose"%string)) by discriminate.
  rewrite Hg2. split; [done|]. intros col. unfold Mode_G2Character. f_equal.
  change 127 with (Z.ones 7). rewrite Z.land_ones by lia.
  change (2 ^ 7) with 128. by apply Z.mod_small.
Qed.

(** X6. With [caronEncoding = "g2"], [buildCzechMap] throws exactly when
    [g2Variant] is a name that every object inherits ("constructor",
    "toString", ...). Otherwise each of the sixteen caron letters is in the
    table it returns, with the code of its position in the chosen set (the
    default set when the variant is absent or names nothing): [encodeRow]
    leaves a space in the row for it and pushes a triplet of mode 0x0F whose
    data is that code, at the column of the letter. *)
Theorem caron_letter_in_g2_mode (opts : Opts) :
  opts_caronEncoding opts = Some "g2"%string →
  match buildCzechMap opts with
  | Throws _ => (default "default"%string (opts_g2Variant opts) ∈ Object_prototype_keys)
  | Ok czechMap =>
      (default "default"%string (opts_g2Variant opts) ∉ Object_prototype_keys)
      ∧ ∀ i letter,
          (CARON_LETTERS ++ CARON_LETTERS_UC) !! i = Some letter →
          ∃ e code,
            (lower (g2SetOf opts) ++ upper (g2SetOf opts)) !! i = Some code
            ∧ 0 ≤ code < 128
            ∧ czechMap !! letter = Some e
            ∧ rowCell e = lit " "
            ∧ ∀ col, charTriplet e col
                     = {| mode := 0x0F; address := Z.of_nat col; data := code |}
  end.
Proof.
  intros Henc.
  destruct (buildCzechMap_cases opts) as [[[_ Hin] ->]|[Hok ->]]; [done|].
  split.
  - intros Hin. apply Hok. split; [by rewrite Henc|done].
  - intros i letter Hl. by apply caron_letter_entry.
Qed.

(** "ž" with the alt2 set: code 0x7E. *)
Lemma caron_letter_in_g2_mode_witness :
  ∃ czechMap e,
    buildCzechMap {| opts_caronEncoding := Some "g2"%string;
                     opts_caronDiacriticIndex := None;
                     opts_g2Variant := Some "alt2"%string |} = Ok czechMap
    ∧ czechMap !! [0x17E] = Some e
    ∧ charTriplet e 5 = {| mode := 0x0F; address := 5; data := 0x7E |}.
Proof.
  pose proof (caron_letter_in_g2_mode
                {| opts_caronEncoding := Some "g2"%string;
                   opts_caronDiacriticIndex := None;
                   opts_g2Variant := Some "alt2"%string |} eq_refl) as Hcase.
  destruct (buildCzechMap _) as [czechMap|error] eqn:Hmap; [|discriminate Hmap].
  destruct Hcase as [_ Hletters].
  assert (Hl : (CARON_LETTERS ++ CARON_LETTERS_UC) !! 7%nat = Some [0x17E])
    by reflexivity.
  destruct (Hletters 7%nat [0x17E] Hl) as (e & code & Hcode & _ & He & _ & Ht).
  exists czechMap, e. split; [done|]. split; [exact He|]. rewrite Ht.
  vm_compute in Hcode. injection Hcode as <-. reflexivity.
Defined.

(** The inherited name "constructor" with the carons in G2: no table. *)
Example buildCzechMap_constructor_variant :
  buildCzechMap {| opts_caronEncoding := Some "g2"%string;
                   opts_caronDiacriticIndex := None;
                   opts_g2Variant := Some "constructor"%string |}
  = Throws "TypeError: Cannot read properties of undefined"
  ∧ buildCzechMap {| opts_caronEncoding := None;
                     opts_caronDiacriticIndex := None;
                     opts_g2Variant := Some "constructor"%string |}
    = Ok (czechTable no_opts).
Proof. split; vm_compute; reflexivity. Qed.

End X26Tables.

(** ** Packet prefix and page header *)

Module WSTMore.
Import WST.

(** A packet as it goes out: the clock run-in and framing code first, and
    every element a byte. *)
Definition wellFramed (packet : list Z) : Prop :=
  take 3 packet = [0x55; 0x55; 0x27] ∧ Forall (fun b => 0 ≤ b < 256) packet.

Lemma Uint8Array_from_bytes (l : list Z) : Forall (fun b => 0 ≤ b < 256) (Uint8Array_from l).
Proof.
  unfold Uint8Array_from. apply Forall_map, Forall_forall. intros x _.
  by apply Z.mod_pos_bound.
Qed.

Lemma Uint8Array_from_app (l1 l2 : list Z) :
  Uint8Array_from (l1 ++ l2) = Uint8Array_from l1 ++ Uint8Array_from l2.
Proof. unfold Uint8Array_from. apply map_app. Qed.

Lemma Uint8Array_from_idemp (l : list Z) :
  Uint8Array_from (Uint8Array_from l) = Uint8Array_from l.
Proof.
  unfold Uint8Array_from. rewrite map_map. apply map_ext. intros x.
  by rewrite Z.mod_mod.
Qed.

(** The sub-code bits that a header carries: bits 0-6 and 8-13. *)
Lemma subcode_bits (x : Z) :
  Z.land x 0xF + 16 * Z.land (Z.shiftr x 4) 0x7 + 256 * Z.land (Z.shiftr x 8) 0xF
  + 4096 * Z.land (Z.shiftr x 12) 0x3
  = Z.land x 0x3F7F.
Proof.
  pose proof (land_mask_range x 4 ltac:(lia)) as H1.
  pose proof (land_mask_range (Z.shiftr x 4) 3 ltac:(lia)) as H2.
  pose proof (land_mask_range (Z.shiftr x 8) 4 ltac:(lia)) as H3.
  pose proof (land_mask_range (Z.shiftr x 12) 2 ltac:(lia)) as H4.
  change (bitmask 4) with 0xF in *. change (bitmask 3) with 0x7 in *.
  change (bitmask 2) with 0x3 in *.
  change (2 ^ 4) with 16 in *. change (2 ^ 3) with 8 in *. change (2 ^ 2) with 4 in *.
  transitivity
    (Z.lor (Z.lor (Z.lor (Z.land x 0xF) (Z.shiftl (Z.land (Z.shiftr x 4) 0x7) 4))
                  (Z.shiftl (Z.land (Z.shiftr x 8) 0xF) 8))
           (Z.shiftl (Z.land (Z.shiftr x 12) 0x3) 12)).
  { rewrite (lor_shiftl_add (Z.land x 0xF) _ 4) by (change (2 ^ 4) with 16; lia).
    rewrite (lor_shiftl_add _ (Z.land (Z.shiftr x 8) 0xF) 8) by (change (2 ^ 8) with 256; lia).
    rewrite (lor_shiftl_add _ (Z.land (Z.shiftr x 12) 0x3) 12)
      by (change (2 ^ 12) with 4096; lia).
    change (2 ^ 4) with 16. change (2 ^ 8) with 256. change (2 ^ 12) with 4096. lia. }
  change 0x3F7F with (Z.lor (Z.ones 7) (Z.shiftl (Z.ones 6) 8)).
  set (mask := Z.lor (Z.ones 7) (Z.shiftl (Z.ones 6) 8)).
  change 0x3 with (Z.ones 2). change 0x7 with (Z.ones 3). change 0xF with (Z.ones 4).
  subst mask. apply Z.bits_inj'. intros n Hn.
  rewrite !Z.lor_spec, !Z.land_spec, !Z.shiftl_spec, !Z.land_spec, !Z.lor_spec by lia.
  rewrite !Z.shiftl_spec by lia.
  destruct (Z.lt_ge_cases n 4); [|destruct (Z.lt_ge_cases n 8);
    [|destruct (Z.lt_ge_cases n 12)]].
  - rewrite !(Z.testbit_neg_r _ (n - _)) by lia.
    rewrite !Z.testbit_ones_nonneg by lia.
    repeat match goal with |- context [Z.ltb ?a ?b] => destruct (Z.ltb_spec a b) end;
      try lia; by destruct (Z.testbit x n).
  - rewrite !(Z.testbit_neg_r _ (n - 8)), !(Z.testbit_neg_r _ (n - 12)) by lia.
    rewrite !Z.shiftr_spec by lia. replace (n - 4 + 4) with n by lia.
    rewrite !Z.testbit_ones_nonneg by lia.
    repeat match goal with |- context [Z.ltb ?a ?b] => destruct (Z.ltb_spec a b) end;
      try lia; by destruct (Z.testbit x n).
  - rewrite !(Z.testbit_neg_r _ (n - 12)) by lia.
    rewrite !Z.shiftr_spec by lia.
    replace (n - 4 + 4) with n by lia. replace (n - 8 + 8) with n by lia.
    rewrite !Z.testbit_ones_nonneg by lia.
    repeat match goal with |- context [Z.ltb ?a ?b] => destruct (Z.ltb_spec a b) end;
      try lia; by destruct (Z.testbit x n).
  - rewrite !Z.shiftr_spec by lia.
    replace (n - 4 + 4) with n by lia. replace (n - 8 + 8) with n by lia.
    replace (n - 12 + 12) with n by lia.
    rewrite !Z.testbit_ones_nonneg by lia.
    repeat match goal with |- context [Z.ltb ?a ?b] => destruct (Z.ltb_spec a b) end;
      try lia; by destruct (Z.testbit x n).
Qed.

Section WithCodec.
Context `{ParityCodec}.

Lemma encodePrefix_bytes (magazine packet : Z) :
  Uint8Array_from (encodePrefix magazine packet) = encodePrefix magazine packet
  ∧ length (encodePrefix magazine packet) = 5%nat
  ∧ take 3 (encodePrefix magazine packet) = [0x55; 0x55; 0x27].
Proof.
  unfold encodePrefix. by rewrite Uint8Array_from_idemp.
Qed.

Lemma wellFramed_prefixed (magazine packet : Z) (rest : list Z) :
  wellFramed (Uint8Array_from (encodePrefix magazine packet ++ rest)).
Proof.
  split; [|apply Uint8Array_from_bytes].
  destruct (encodePrefix_bytes magazine packet) as (Hid & Hlen & Htake).
  rewrite Uint8Array_from_app, Hid, take_app_le by lia. done.
Qed.

(** X7. The two address bytes of a prefix are the Hamming 8/4 code words of
    two nibbles from which the magazine (3 bits) and the packet number
    (5 bits) are read back: the magazine is the low three bits of the first,
    the packet number its fourth bit plus twice the second. *)
Theorem encodePrefix_address_nibbles (magazine packet : Z) :
  ∃ n1 n2,
    encodePrefix magazine packet
    = [0x55; 0x55; 0x27; hammingEncodeNybble n1 `mod` 256; hammingEncodeNybble n2 `mod` 256]
    ∧ 0 ≤ n1 < 16 ∧ 0 ≤ n2 < 16
    ∧ Z.land n1 0x07 = Z.land magazine 0x07
    ∧ Z.shiftr n1 3 + 2 * n2 = Z.land packet 0x1F.
Proof.
  eexists _, _. split; [reflexivity|].
  change 0x07 with (Z.ones 3). change 0x1F with (Z.ones 5).
  change (Z.land (Z.land packet (Z.ones 5)) 1)
    with (Z.land (Z.land packet (Z.ones 5)) (Z.ones 1)).
  rewrite !Z.land_ones by lia.
  rewrite !Z.shiftr_div_pow2, Z.shiftl_mul_pow2 by lia.
  change (2 ^ 3) with 8. change (2 ^ 5) with 32. change (2 ^ 1) with 2.
  repeat split; Z.div_mod_to_equations; lia.
Qed.


(** X8. A header packet is the prefix of packet 0, eight Hamming 8/4 code
    words and 32 spaces, 45 bytes. The first two nibbles give back the low
    8 bits of the page number, the next four the sub-code bits 0-6 and 8-13;
    bit 3 of the fourth nibble is the erase flag and bit 3 of the sixth is
    always set (subtitle); the last two nibbles are 3 and 0. *)
Theorem encodeHeaderPacket_nibbles (magazine page pageSubCode : Z) (erase : bool) :
  ∃ pu pt s1 s2 s3 s4,
    encodeHeaderPacket magazine page pageSubCode erase
    = encodePrefix magazine 0
      ++ map (fun n => hammingEncodeNybble n `mod` 256) [pu; pt; s1; s2; s3; s4; 3; 0]
      ++ replicate 32 0x20
    ∧ length (encodeHeaderPacket magazine page pageSubCode erase) = 45%nat
    ∧ Forall (fun n => 0 ≤ n < 16) [pu; pt; s1; s2; s3; s4]
    ∧ pu + 16 * pt = Z.land page 0xFF
    ∧ s1 + 16 * Z.land s2 0x7 + 256 * s3 + 4096 * Z.land s4 0x3
      = Z.land pageSubCode 0x3F7F
    ∧ Z.testbit s2 3 = erase
    ∧ Z.testbit s4 3 = true.
Proof.
  pose proof (land_mask_range page 4 ltac:(lia)) as Hpu.
  pose proof (land_mask_range (Z.shiftr page 4) 4 ltac:(lia)) as Hpt.
  pose proof (land_mask_range pageSubCode 4 ltac:(lia)) as H1.
  pose proof (land_mask_range (Z.shiftr pageSubCode 4) 3 ltac:(lia)) as H2.
  pose proof (land_mask_range (Z.shiftr pageSubCode 8) 4 ltac:(lia)) as H3.
  pose proof (land_mask_range (Z.shiftr pageSubCode 12) 2 ltac:(lia)) as H4.
  change (bitmask 4) with 0xF in *. change (bitmask 3) with 0x7 in *.
  change (bitmask 2) with 0x3 in *.
  change (2 ^ 4) with 16 in *. change (2 ^ 3) with 8 in *. change (2 ^ 2) with 4 in *.
  assert (Hbit : ∀ a, 0 ≤ a < 8 →
            Z.lor a (Z.shiftl 1 3) = a + 8 ∧ Z.land (a + 8) 0x7 = a
            ∧ Z.testbit (a + 8) 3 = true ∧ Z.testbit a 3 = false).
  { intros a Ha. split; [rewrite lor_shiftl_add; change (2 ^ 3) with 8; lia|].
    assert (a ∈ seqZ 0 8) as Hin by (apply elem_of_seqZ; lia).
    vm_compute in Hin. clear Ha.
    repeat (apply elem_of_cons in Hin as [->|Hin]; [done|]). by apply elem_of_nil in Hin. }
  assert (Hnib : ∀ a, 0 ≤ a < 16 → Z.land a 0xF = a).
  { intros a Ha. change 0xF with (Z.ones 4). rewrite Z.land_ones by lia.
    apply Z.mod_small. change (2 ^ 4) with 16. lia. }
  destruct (Hbit _ H2) as (Hs2 & Hs2l & Hs2t & Hs2f).
  destruct (Hbit (Z.land (Z.shiftr pageSubCode 12) 0x3) ltac:(lia)) as (Hs4 & Hs4l & Hs4t & _).
  exists (Z.land page 0xF), (Z.land (Z.shiftr page 4) 0xF), (Z.land pageSubCode 0xF),
    (if erase then Z.land (Z.shiftr pageSubCode 4) 0x7 + 8
     else Z.land (Z.shiftr pageSubCode 4) 0x7),
    (Z.land (Z.shiftr pageSubCode 8) 0xF), (Z.land (Z.shiftr pageSubCode 12) 0x3 + 8).
  assert (Heq : encodeHeaderPacket magazine page pageSubCode erase
    = encodePrefix magazine 0
      ++ map (fun n => hammingEncodeNybble n `mod` 256)
           [Z.land page 0xF; Z.land (Z.shiftr page 4) 0xF; Z.land pageSubCode 0xF;
            if erase then Z.land (Z.shiftr pageSubCode 4) 0x7 + 8
            else Z.land (Z.shiftr pageSubCode 4) 0x7;
            Z.land (Z.shiftr pageSubCode 8) 0xF;
            Z.land (Z.shiftr pageSubCode 12) 0x3 + 8; 3; 0]
      ++ replicate 32 0x20).
  { unfold encodeHeaderPacket. cbv zeta.
    destruct (encodePrefix_bytes magazine 0) as (Hid & _ & _).
    rewrite !Uint8Array_from_app, Hid, !Uint8Array_from_idemp. f_equal. f_equal.
    unfold Uint8Array_from. rewrite map_map. cbn [map].
    rewrite Hs4.
    rewrite (Hnib (Z.land page 0xF)), (Hnib (Z.land (Z.shiftr page 4) 0xF)),
      (Hnib (Z.land pageSubCode 0xF)), (Hnib (Z.land (Z.shiftr pageSubCode 8) 0xF)),
      (Hnib (Z.land (Z.shiftr pageSubCode 12) 0x3 + 8)) by lia.
    destruct erase.
    - by rewrite Hs2, (Hnib (Z.land (Z.shiftr pageSubCode 4) 0x7 + 8)) by lia.
    - by rewrite (Hnib (Z.land (Z.shiftr pageSubCode 4) 0x7)) by lia. }
  split; [exact Heq|]. split.
  { rewrite Heq. destruct (encodePrefix_bytes magazine 0) as (_ & Hlen & _).
    rewrite !length_app, Hlen, length_map, length_replicate. done. }
  split; [repeat constructor; try destruct erase; lia|].
  split.
  { change 0xFF with (Z.ones 8). change 0xF with (Z.ones 4).
    rewrite !Z.land_ones, Z.shiftr_div_pow2 by lia.
    change (2 ^ 4) with 16. change (2 ^ 8) with 256. Z.div_mod_to_equations. lia. }
  split.
  { assert (Hs4m : Z.land (Z.land (Z.shiftr pageSubCode 12) 0x3 + 8) 0x3
                   = Z.land (Z.shiftr pageSubCode 12) 0x3).
    { generalize dependent (Z.land (Z.shiftr pageSubCode 12) 0x3). intros a Ha _ _ _.
      assert (a ∈ seqZ 0 4) as Hin by (apply elem_of_seqZ; lia).
      vm_compute in Hin. clear Ha.
      repeat (apply elem_of_cons in Hin as [->|Hin]; [done|]). by apply elem_of_nil in Hin. }
    assert (Hs2m : Z.land (Z.land (Z.shiftr pageSubCode 4) 0x7) 0x7
                   = Z.land (Z.shiftr pageSubCode 4) 0x7).
    { by rewrite <- Z.land_assoc. }
    rewrite Hs4m. rewrite <- subcode_bits. destruct erase; by rewrite ?Hs2l, ?Hs2m. }
  split; [by destruct erase|done].
Qed.

(** The packets of a result: every one well framed. *)
Lemma map_result_Forall {A B} (P : B → Prop) (f : nat → A → result B) (l : list A) :
  ∀ i ys,
    (∀ j x y, f j x = Ok y → P y) →
    map_result f i l = Ok ys → Forall P ys ∧ length ys = length l.
Proof.
  induction l as [|x l IH]; intros i ys Hf Hmap; simpl in Hmap.
  - injection Hmap as <-. by split.
  - destruct (f i x) as [y|] eqn:Hy; [|done]. simpl in Hmap.
    destruct (map_result f (S i) l) as [ys'|] eqn:Hys; [|done]. simpl in Hmap.
    injection Hmap as <-. destruct (IH (S i) ys' Hf Hys) as [Hall Hlen].
    split; [constructor; eauto|simpl; lia].
Qed.

Lemma x26RowPackets_framed (this : WSTEncoder) (startRow : Z) (rows : list jsstring) :
  ∀ i x26encoder x26encoder' ps,
    x26RowPackets this startRow i rows x26encoder = Ok (x26encoder', ps) →
    Forall wellFramed ps ∧ length ps = length rows.
Proof.
  induction rows as [|text rows IH]; intros i x26 x26' ps Hrows; cbn [x26RowPackets] in Hrows.
  - injection Hrows as <- <-. by split.
  - destruct (x26TextBytes _ _ _) as [[x1 textBytes]|]; [|done]. cbn [bind] in Hrows.
    destruct (x26RowPackets this startRow (S i) rows x1) as [[x2 ps']|] eqn:Hrest; [|done].
    cbn [bind] in Hrows. injection Hrows as <- <-.
    destruct (IH _ _ _ _ Hrest) as [Hall Hlen].
    split; [constructor; [apply wellFramed_prefixed|done]|simpl; lia].
Qed.

(** X9. Every packet that [encodeSubtitle] or [encodeDummy] returns starts
    with the clock run-in and the framing code, 0x55 0x55 0x27, and is made
    of bytes (0..255), whatever the parity functions return. *)
Theorem packets_are_well_framed
    (this : WSTEncoder) (rows : option (list jsstring)) (startRowOpt : option Z) :
  Forall wellFramed (encodeDummy this)
  ∧ ∀ ps, encodeSubtitle this rows startRowOpt = Ok ps → Forall wellFramed ps.
Proof.
  assert (Hheader : ∀ m p s e, wellFramed (encodeHeaderPacket m p s e)).
  { intros. unfold encodeHeaderPacket. cbv zeta. apply wellFramed_prefixed. }
  split; [unfold encodeDummy; by constructor|].
  intros ps Hps. unfold encodeSubtitle in Hps.
  destruct rows as [[|text rows]|]; try (injection Hps as <-; by constructor).
  destruct (encodeDisplayRows _ _ _) as [rowPackets|] eqn:Hrows;
    cbn [bind] in Hps; [|done].
  injection Hps as <-. constructor; [apply Hheader|].
  unfold encodeDisplayRows in Hrows. case_bool_decide.
  - eapply (map_result_Forall wellFramed) in Hrows as [Hall _]; [done|].
    intros j x y Hy. cbv zeta in Hy.
    destruct (latin2TextBytes x); cbn [bind] in Hy; [|done].
    injection Hy as <-. apply wellFramed_prefixed.
  - destruct (X26.new_X26Encoder _) as [x26encoder|]; cbn [bind] in Hrows; [|done].
    destruct (x26RowPackets _ _ _ _ _) as [[x26 rowps]|] eqn:Hx;
      cbn [bind] in Hrows; [|done].
    injection Hrows as <-. apply Forall_app_2.
    + apply Forall_map, Forall_forall. intros p _. apply wellFramed_prefixed.
    + by eapply x26RowPackets_framed.
Qed.

End WithCodec.
End WSTMore.

(** ** Whole pages *)

Module PageFacts.
Import WST WSTFacts WSTMore.

(** A row of ASCII code units. *)
Definition plainRow (text : jsstring) : Prop := Forall (fun c => c < 0x80) text.

(** The encoder with another diacritics mode. *)
Definition withEncoding (this : WSTEncoder) (enc : string) : WSTEncoder :=
  {| magazine := magazine this; page := page this; startRow := startRow this;
     doubleHeight := doubleHeight this; diacriticsEncoding := enc;
     x26Opts := x26Opts this |}.

(** The page of the row "Loď če" under [plainCodec]. *)
Definition samplePage : list (list Z) :=
  Eval vm_compute in
    match @encodeSubtitle plainCodec default_WSTEncoder (Some [sampleRow]) None with
    | Ok ps => ps
    | Throws _ => []
    end.

Lemma plainRow_no_surrogate (s : jsstring) :
  plainRow s → Forall (fun c => is_high_surrogate c = false) s.
Proof.
  intros Hs. eapply Forall_impl; [exact Hs|]. intros c Hc. unfold is_high_surrogate.
  simpl in Hc. destruct (Z.leb_spec 0xD800 c); [lia|done].
Qed.

Lemma toBaseLetters_plain (s : jsstring) : plainRow s → toBaseLetters s = s.
Proof.
  intros Hs. unfold toBaseLetters, join_empty.
  rewrite Array_from_no_surrogate by by apply plainRow_no_surrogate.
  induction Hs as [|c s Hc Hs IH]; [done|]. cbn [map concat]. rewrite IH.
  destruct (CZECH_TO_BASE !! [c]) as [b|] eqn:Hb.
  - apply CZECH_TO_BASE_entry in Hb as (u & ? & [= ->] & ? & _). simpl in Hc. lia.
  - cbn [codePointAt0]. by destruct (Z.leb_spec c 0x7F); [|simpl in Hc; lia].
Qed.

Lemma encodeRow_loop_plain (m : gmap jsstring X26.Entry) (rl : Z) (row : list jsstring) :
  ∀ col first enh,
    Forall (fun ch => m !! ch = None) row →
    X26.encodeRow_loop m rl col row first enh = (row, enh).
Proof.
  induction row as [|ch row IH]; intros col first enh Hrow; [done|].
  apply Forall_cons in Hrow as [Hch Hrow]. cbn [X26.encodeRow_loop].
  by rewrite Hch, IH.
Qed.

Lemma encodeRow_plain (opts : X26.Opts) (this : X26.X26Encoder) (s : jsstring) (rl : Z) :
  X26.czechMap this = X26Facts.czechTable opts → plainRow s →
  X26.encodeRow this s rl = (this, s).
Proof.
  intros Hmap Hs. unfold X26.encodeRow.
  rewrite Array_from_no_surrogate by by apply plainRow_no_surrogate.
  rewrite encodeRow_loop_plain.
  - destruct this. f_equal. unfold join_empty. clear. induction s as [|c s IH]; [done|].
    simpl. by rewrite IH.
  - apply Forall_map. eapply Forall_impl; [exact Hs|]. intros c Hc. cbn beta.
    rewrite Hmap. destruct (X26Facts.czechTable opts !! [c]) as [e|] eqn:He; [|done].
    apply X26Facts.buildCzechMap_entry in He as (u & b & [= ->] & ? & _).
    simpl in Hc. lia.
Qed.

Lemma boxedText_plain (text boxed : jsstring) :
  plainRow text → boxedText text = Ok boxed → plainRow boxed.
Proof.
  intros Ht Hb. destruct (decide (length text ≤ 40)%nat) as [Hlen|Hlen].
  - rewrite boxedText_short in Hb by done.
    replace boxed with (take 40 ([0x0b; 0x0b] ++ text ++ [0x0a; 0x0a]
                                   ++ replicate (40 - length text) 0x20)) by congruence.
    apply Forall_take. by apply Forall_framed.
  - by rewrite boxedText_long in Hb by lia.
Qed.

Lemma x26TextBytes_plain (opts : X26.Opts) (x26encoder : X26.X26Encoder)
    (text : jsstring) (rl : Z) :
  X26.czechMap x26encoder = X26Facts.czechTable opts → plainRow text →
  x26TextBytes x26encoder text rl
  = bind (latin2TextBytes text) (fun textBytes => Ok (x26encoder, textBytes)).
Proof.
  intros Hmap Ht. unfold x26TextBytes, latin2TextBytes.
  destruct (boxedText text) as [boxed|] eqn:Hb; [|done]. cbn [bind].
  pose proof (boxedText_plain _ _ Ht Hb) as Hboxed.
  by rewrite (encodeRow_plain opts), toBaseLetters_plain.
Qed.

Section WithCodec.
Context `{ParityCodec}.

(** The packet of row [i] in latin2 mode. *)
Definition latin2RowPacket (this : WSTEncoder) (startRow : Z) (i : nat) (text : jsstring)
  : result (list Z) :=
  bind (latin2TextBytes text)
       (fun textBytes =>
          Ok (Uint8Array_from (encodePrefix (magazine this) (startRow + Z.of_nat i)
                               ++ applyParity textBytes))).

Lemma x26RowPackets_plain (opts : X26.Opts) (this : WSTEncoder) (startRow : Z)
    (rows : list jsstring) :
  ∀ i x26encoder,
    X26.czechMap x26encoder = X26Facts.czechTable opts → Forall plainRow rows →
    x26RowPackets this startRow i rows x26encoder
    = bind (map_result (latin2RowPacket this startRow) i rows)
           (fun packets => Ok (x26encoder, packets)).
Proof.
  induction rows as [|text rows IH]; intros i x26encoder Hmap Hrows; [done|].
  apply Forall_cons in Hrows as [Ht Hrows]. cbn [x26RowPackets map_result].
  rewrite (x26TextBytes_plain opts) by done. unfold latin2RowPacket at 1.
  destruct (latin2TextBytes text) as [textBytes|]; [|done]. cbn [bind].
  rewrite IH by done.
  by destruct (map_result _ _ _).
Qed.

(** X10. For rows of ASCII code units, and an encoder whose caron options
    [new X26Encoder] accepts, the diacritics mode makes no difference: in x26
    mode [encodeSubtitle] returns what it returns in latin2 mode, the same
    packets or the same exception, and no X/26 packet. *)
Theorem encodeSubtitle_ascii_rows_same_in_both_modes
    (this : WSTEncoder) (rows : list jsstring) (startRowOpt : option Z) :
  optionsAccepted this →
  Forall plainRow rows →
  encodeSubtitle this (Some rows) startRowOpt
  = encodeSubtitle (withEncoding this "latin2") (Some rows) startRowOpt.
Proof.
  intros Hopts Hrows. unfold encodeSubtitle.
  destruct rows as [|text rows]; [done|].
  change (magazine (withEncoding this "latin2")) with (magazine this).
  change (page (withEncoding this "latin2")) with (page this).
  change (startRow (withEncoding this "latin2")) with (startRow this).
  f_equal.
  destruct (decide (diacriticsEncoding this = "latin2"%string)) as [Hmode|Hmode].
  { unfold encodeDisplayRows.
    change (diacriticsEncoding (withEncoding this "latin2")) with "latin2"%string.
    by rewrite Hmode. }
  destruct Hopts as [?|[czechMap Hmap]]; [done|].
  rewrite (encodeDisplayRows_x26 _ _ _ czechMap) by done.
  unfold encodeDisplayRows.
  change (diacriticsEncoding (withEncoding this "latin2")) with "latin2"%string.
  change (magazine (withEncoding this "latin2")) with (magazine this).
  rewrite (bool_decide_eq_true_2 ("latin2"%string = "latin2"%string)) by done.
  rewrite (x26RowPackets_plain (x26Opts this))
    by (by try apply X26Facts.buildCzechMap_Ok).
  change (map_result (latin2RowPacket this _) 0 (text :: rows))
    with (map_result
            (fun i text =>
               let prefix := encodePrefix (magazine this)
                               (default (startRow this) startRowOpt + Z.of_nat i) in
               bind (latin2TextBytes text)
                    (fun textBytes =>
                       let payload := applyParity textBytes in
                       Ok (Uint8Array_from (prefix ++ payload))))
            0 (text :: rows)).
  destruct (map_result _ _ _) as [packets|]; [|done]. cbn [bind].
  unfold X26.enhancementPackets. by cbn.
Qed.

Lemma map_result_lookup {A B} (f : nat → A → result B) (l : list A) :
  ∀ i ys,
    map_result f i l = Ok ys →
    length ys = length l
    ∧ ∀ j y, ys !! j = Some y → ∃ x, l !! j = Some x ∧ f (i + j)%nat x = Ok y.
Proof.
  induction l as [|x l IH]; intros i ys Hmap; simpl in Hmap.
  - injection Hmap as <-. by split.
  - destruct (f i x) as [y|] eqn:Hy; simpl in Hmap; [|done].
    destruct (map_result f (S i) l) as [ys'|] eqn:Hys; simpl in Hmap; [|done].
    injection Hmap as <-. destruct (IH (S i) ys' Hys) as [Hlen Hlook].
    split; [simpl; lia|]. intros [|j] y' Hj; simpl in Hj.
    + injection Hj as <-. exists x. by rewrite Nat.add_0_r.
    + destruct (Hlook j y' Hj) as (x' & Hx' & Hf). exists x'. split; [done|].
      by replace (i + S j)%nat with (S i + j)%nat by lia.
Qed.

Lemma take_prefixed (magazine packet : Z) (rest : list Z) :
  take 5 (Uint8Array_from (encodePrefix magazine packet ++ rest))
  = encodePrefix magazine packet.
Proof.
  destruct (encodePrefix_bytes magazine packet) as (Hid & Hlen & _).
  rewrite Uint8Array_from_app, Hid. by rewrite take_app_length' by done.
Qed.

Lemma x26RowPackets_lookup (this : WSTEncoder) (startRow : Z) (rows : list jsstring) :
  ∀ i x26encoder x26encoder' ps,
    x26RowPackets this startRow i rows x26encoder = Ok (x26encoder', ps) →
    length ps = length rows
    ∧ ∀ j p, ps !! j = Some p →
        take 5 p = encodePrefix (magazine this) (startRow + Z.of_nat (i + j)).
Proof.
  induction rows as [|text rows IH]; intros i x26 x26' ps Hrows; cbn [x26RowPackets] in Hrows.
  - injection Hrows as <- <-. by split.
  - destruct (x26TextBytes _ _ _) as [[x1 textBytes]|]; cbn [bind] in Hrows; [|done].
    destruct (x26RowPackets this startRow (S i) rows x1) as [[x2 ps']|] eqn:Hrest;
      cbn [bind] in Hrows; [|done].
    injection Hrows as <- <-. destruct (IH _ _ _ _ Hrest) as [Hlen Hlook].
    split; [simpl; lia|]. intros [|j] p Hj; simpl in Hj.
    + injection Hj as <-. rewrite Nat.add_0_r. apply take_prefixed.
    + rewrite (Hlook j p Hj). by replace (i + S j)%nat with (S i + j)%nat by lia.
Qed.

(** X11. The page that [encodeSubtitle] returns for rows is laid out as: the
    erase header, then the X/26 packets (none in latin2 mode), each addressed
    as packet 26, then one packet per row in the order of the rows, row [i]
    addressed as packet [startRow + i]. *)
Theorem encodeSubtitle_page_layout
    (this : WSTEncoder) (rows : list jsstring) (startRowOpt : option Z)
    (ps : list (list Z)) :
  encodeSubtitle this (Some rows) startRowOpt = Ok ps →
  ∃ x26Packets rowPackets,
    ps = encodeHeaderPacket (magazine this) (page this) 0 true :: x26Packets ++ rowPackets
    ∧ length rowPackets = length rows
    ∧ Forall (fun p => take 5 p = encodePrefix (magazine this) 26) x26Packets
    ∧ (∀ i p, rowPackets !! i = Some p →
         take 5 p = encodePrefix (magazine this)
                      (default (startRow this) startRowOpt + Z.of_nat i))
    ∧ (diacriticsEncoding this = "latin2"%string → x26Packets = []).
Proof.
  intros Hps. unfold encodeSubtitle in Hps.
  destruct rows as [|text rows].
  { injection Hps as <-. exists [], []. by repeat split. }
  destruct (encodeDisplayRows _ _ _) as [rowPackets|] eqn:Hrows;
    cbn [bind] in Hps; [|done].
  injection Hps as <-. unfold encodeDisplayRows in Hrows. case_bool_decide as Henc.
  - apply map_result_lookup in Hrows as [Hlen Hlook].
    exists [], rowPackets. split; [done|]. split; [done|]. split; [constructor|].
    split; [|done]. intros i p Hp.
    destruct (Hlook i p Hp) as (x & _ & Hx). cbv zeta in Hx.
    destruct (latin2TextBytes x); cbn [bind] in Hx; [|done].
    injection Hx as <-. apply take_prefixed.
  - destruct (X26.new_X26Encoder _) as [x26encoder|]; cbn [bind] in Hrows; [|done].
    destruct (x26RowPackets _ _ _ _ _) as [[x26 rowps]|] eqn:Hx;
      cbn [bind] in Hrows; [|done].
    injection Hrows as <-. apply x26RowPackets_lookup in Hx as [Hlen Hlook].
    eexists _, rowps. split; [reflexivity|]. split; [done|].
    split; [|split; [exact Hlook|done]].
    apply Forall_map, Forall_forall. intros p _. apply take_prefixed.
Qed.

End WithCodec.

Lemma encodeSubtitle_ascii_rows_witness :
  @encodeSubtitle plainCodec default_WSTEncoder (Some [lit "Hello"; lit "world"]) None
  = @encodeSubtitle plainCodec (withEncoding default_WSTEncoder "latin2")
      (Some [lit "Hello"; lit "world"]) None.
Proof.
  apply (@encodeSubtitle_ascii_rows_same_in_both_modes plainCodec default_WSTEncoder
           [lit "Hello"; lit "world"] None).
  - right. eexists. reflexivity.
  - repeat constructor.
Defined.

Lemma encodeSubtitle_page_layout_witness :
  ∃ x26Packets rowPackets,
    samplePage
    = @encodeHeaderPacket plainCodec 0 1 0 true :: x26Packets ++ rowPackets
    ∧ length rowPackets = 1%nat
    ∧ Forall (fun p => take 5 p = @encodePrefix plainCodec 0 26) x26Packets.
Proof.
  destruct (@encodeSubtitle_page_layout plainCodec default_WSTEncoder [sampleRow] None
              samplePage) as (x26Packets & rowPackets & Hps & Hlen & Hx26 & _).
  - vm_compute. reflexivity.
  - exists x26Packets, rowPackets. split; [exact Hps|]. split; [exact Hlen|exact Hx26].
Defined.

End PageFacts.

(** ** More of the segmenter *)

Module TitlingMore.
Import Re Titling TitlingFacts.

(** The pieces that [wrapLines] has so far: the lines pushed, then the line
    being filled when it is not empty. *)
Definition pieces (st : jsstring * list jsstring) : list jsstring :=
  st.2 ++ match st.1 with [] => [] | line => [line] end.

(** A segment that fits the two rows of a title. *)
Definition fitsTitle (s : Segment) : Prop :=
  (1 ≤ length (lines s) ≤ MAX_LINES)%nat
  ∧ Forall (fun l => (1 ≤ length l ≤ CHARS_PER_LINE)%nat) (lines s).

Definition twoWordCue : VTT.Cue :=
  {| VTT.start := 1%float; VTT.end_ := 2%float;
     VTT.text := lit "  Hello   " ++ replicate 40 0x78 ++ lit " world " |}.

Lemma words_not_empty (text : jsstring) : Forall (fun w => w ≠ []) (words text).
Proof.
  unfold words. apply Forall_forall. intros w Hw.
  by apply list_elem_of_filter in Hw as [? _].
Qed.

Lemma wrapLines_pieces (text : jsstring) (maxChars : nat) :
  wrapLines text maxChars = pieces (foldl (wrapStep maxChars) ([], []) (words text)).
Proof.
  unfold wrapLines, pieces.
  destruct (foldl _ _ _) as [[|c line] result]; cbn [fst snd]; by rewrite ?app_nil_r.
Qed.

Lemma join_space_cons (x : jsstring) (l : list jsstring) :
  l ≠ [] → join_space (x :: l) = x ++ 0x20 :: join_space l.
Proof. by destruct l. Qed.

(** Joining two neighbours with a space first changes nothing. *)
Lemma join_space_glue (a b : jsstring) (ys : list jsstring) : ∀ xs,
  join_space (xs ++ (a ++ 0x20 :: b) :: ys) = join_space (xs ++ a :: b :: ys).
Proof.
  induction xs as [|x xs IH].
  - destruct ys as [|y ys]; [done|].
    cbn [app]. rewrite !join_space_cons by done. by rewrite <- app_assoc.
  - cbn [app]. rewrite !join_space_cons by (by destruct xs). by rewrite IH.
Qed.

Lemma wrapStep_pieces (maxChars : nat) (st : jsstring * list jsstring) (word : jsstring)
    (rest : list jsstring) :
  (0 < maxChars)%nat → word ≠ [] →
  join_space (pieces (wrapStep maxChars st word) ++ rest)
  = join_space (pieces st ++ take maxChars word :: rest).
Proof.
  intros Hmax Hword. destruct st as [line result]. unfold wrapStep, pieces.
  assert (Htake : take maxChars word ≠ []).
  { destruct word, maxChars; simpl; [done|done|lia|done]. }
  case_bool_decide as Hfit; cbn [fst snd].
  - destruct line as [|c line].
    + rewrite take_ge by done. rewrite app_nil_r.
      destruct word; [done|]. by rewrite <- app_assoc.
    + rewrite take_ge by (rewrite !length_app in Hfit; simpl in Hfit; lia).
      change ((c :: line) ++ [32] ++ word) with ((c :: line) ++ 32 :: word).
      destruct ((c :: line) ++ 32 :: word) as [|d next] eqn:Hnext; [done|].
      rewrite <- Hnext, <- !app_assoc. apply (join_space_glue (c :: line) word rest result).
  - assert (Hline : (if bool_decide (length word ≤ maxChars)%nat then word
                     else take maxChars word) = take maxChars word).
    { case_bool_decide; [by rewrite take_ge|done]. }
    rewrite Hline. destruct (take maxChars word) as [|d w'] eqn:Hw; [done|].
    destruct line; by rewrite <- ?app_assoc, ?app_nil_r.
Qed.

Lemma foldl_wrapStep_pieces (maxChars : nat) (ws : list jsstring) : ∀ st,
  (0 < maxChars)%nat → Forall (fun w => w ≠ []) ws →
  join_space (pieces (foldl (wrapStep maxChars) st ws))
  = join_space (pieces st ++ map (take maxChars) ws).
Proof.
  induction ws as [|w ws IH] using rev_ind; intros st Hmax Hws.
  - by rewrite app_nil_r.
  - apply Forall_app in Hws as [Hws [Hw _]%Forall_cons].
    rewrite foldl_app. cbn [foldl].
    rewrite <- (app_nil_r (pieces (wrapStep _ _ _))), wrapStep_pieces by done.
    rewrite map_app. cbn [map].
    assert (Hgen : ∀ rest st,
              join_space (pieces (foldl (wrapStep maxChars) st ws) ++ rest)
              = join_space ((pieces st ++ map (take maxChars) ws) ++ rest)).
    { clear -Hmax Hws. induction ws as [|v ws IH']; intros rest st.
      - by rewrite app_nil_r.
      - apply Forall_cons in Hws as [Hv Hws]. cbn [foldl map].
        rewrite IH' by done. rewrite <- !app_assoc.
        rewrite (app_assoc (pieces (wrapStep _ _ _))).
        cbn [app].
        change (take maxChars v :: map (take maxChars) ws ++ rest)
          with (take maxChars v :: (map (take maxChars) ws ++ rest)).
        rewrite <- wrapStep_pieces by done. by rewrite <- app_assoc. }
    by rewrite Hgen, app_assoc.
Qed.

(** The line being filled is not empty once a word has been read. *)
Lemma foldl_wrapStep_line (maxChars : nat) (ws : list jsstring) : ∀ st,
  (0 < maxChars)%nat → Forall (fun w => w ≠ []) ws →
  (st.1 ≠ [] ∨ ws ≠ []) → (foldl (wrapStep maxChars) st ws).1 ≠ [].
Proof.
  induction ws as [|w ws IH]; intros st Hmax Hws Hne.
  - by destruct Hne.
  - apply Forall_cons in Hws as [Hw Hws]. cbn [foldl]. apply IH; [done..|]. left.
    destruct st as [line result]. unfold wrapStep.
    case_bool_decide; cbn [fst].
    + destruct line; [done|]. done.
    + case_bool_decide; [done|]. destruct w, maxChars; simpl; [done|done|lia|done].
Qed.

Lemma foldl_wrapStep_result (maxChars : nat) (ws : list jsstring) : ∀ st,
  Forall (fun l => l ≠ []) st.2 →
  Forall (fun l => l ≠ []) (foldl (wrapStep maxChars) st ws).2.
Proof.
  induction ws as [|w ws IH]; intros st Hst; [done|].
  cbn [foldl]. apply IH. destruct st as [line result]. unfold wrapStep.
  case_bool_decide; cbn [snd] in *; [done|].
  destruct line; [done|]. apply Forall_app_2; [done|]. by repeat constructor.
Qed.

(** No line of [wrapLines] is empty. *)
Lemma wrapLines_not_empty (text : jsstring) (maxChars : nat) :
  Forall (fun l => l ≠ []) (wrapLines text maxChars).
Proof.
  rewrite wrapLines_pieces. unfold pieces.
  pose proof (foldl_wrapStep_result maxChars (words text) ([], []) ltac:(constructor)) as Hres.
  destruct (foldl _ _ _) as [line result]. cbn [fst snd] in *.
  apply Forall_app_2; [done|]. destruct line; by repeat constructor.
Qed.

(** Wrapping loses no word and keeps their order: for a positive width, the
    lines joined by spaces are the words joined by spaces, each word cut to
    the width. *)
Lemma wrapLines_join (text : jsstring) (maxChars : nat) :
  (0 < maxChars)%nat →
  join_space (wrapLines text maxChars) = join_space (map (take maxChars) (words text)).
Proof.
  intros Hmax. rewrite wrapLines_pieces.
  by rewrite foldl_wrapStep_pieces by (done || apply words_not_empty).
Qed.

Lemma wrapLines_nil (text : jsstring) (maxChars : nat) :
  (0 < maxChars)%nat → wrapLines text maxChars = [] ↔ words text = [].
Proof.
  intros Hmax. rewrite wrapLines_pieces. unfold pieces. split.
  - intros Hnil. destruct (words text) as [|w ws] eqn:Hw; [done|]. exfalso.
    assert (Hline : (foldl (wrapStep maxChars) ([], []) (w :: ws)).1 ≠ []).
    { apply foldl_wrapStep_line; [done| |by right].
      rewrite <- Hw. apply words_not_empty. }
    destruct (foldl _ _ _) as [line result]. cbn [fst snd] in *.
    apply app_eq_nil in Hnil as [_ Hnil]. by destruct line.
  - by intros ->.
Qed.

Lemma chunkLines_nil (allLines : list jsstring) : chunkLines allLines = [] ↔ allLines = [].
Proof.
  unfold chunkLines. split.
  - intros Hnil. apply (f_equal length) in Hnil.
    rewrite length_map, length_seq in Hnil.
    destruct allLines as [|l ls]; [done|]. exfalso.
    cbn [length] in Hnil.
    pose proof (Nat.div_mod_eq (S (length ls) + 1) 2).
    pose proof (Nat.mod_upper_bound (S (length ls) + 1) 2).
    set (q := ((S (length ls) + 1) / 2)%nat) in *. lia.
  - by intros ->.
Qed.

Lemma chunkLines_fit (allLines : list jsstring) :
  Forall (fun l => (1 ≤ length l ≤ CHARS_PER_LINE)%nat) allLines →
  Forall (fun chunk => (1 ≤ length chunk ≤ MAX_LINES)%nat
                       ∧ Forall (fun l => (1 ≤ length l ≤ CHARS_PER_LINE)%nat) chunk)
         (chunkLines allLines).
Proof.
  intros Hlines. unfold chunkLines. apply Forall_map, Forall_forall. intros k Hk.
  apply elem_of_seq in Hk as [_ Hk]. cbn [Nat.add] in Hk.
  assert (2 * k < length allLines)%nat as Hlt.
  { pose proof (Nat.div_mod_eq (length allLines + 1) 2).
    pose proof (Nat.mod_upper_bound (length allLines + 1) 2). lia. }
  unfold slice, MAX_LINES in *. split.
  - rewrite length_map, length_take, length_drop. lia.
  - apply Forall_map. apply Forall_take, Forall_drop.
    eapply Forall_impl; [exact Hlines|]. intros l Hl. cbn beta.
    rewrite length_take. unfold CHARS_PER_LINE in *. lia.
Qed.

Lemma wrapLines_fit (text : jsstring) :
  Forall (fun l => (1 ≤ length l ≤ CHARS_PER_LINE)%nat) (wrapLines text CHARS_PER_LINE).
Proof.
  pose proof (wrapLines_lengths text CHARS_PER_LINE) as Hle.
  pose proof (wrapLines_not_empty text CHARS_PER_LINE) as Hne.
  apply Forall_forall. intros l Hl.
  rewrite Forall_forall in Hle, Hne. specialize (Hle l Hl). specialize (Hne l Hl).
  destruct l; [done|]. simpl in *. lia.
Qed.

Lemma cueToSegments_fit (cue : VTT.Cue) : Forall fitsTitle (cueToSegments cue).
Proof.
  pose proof (chunkLines_fit _ (wrapLines_fit (VTT.text cue))) as Hfit.
  rewrite <- cueToSegments_lines in Hfit. by apply Forall_map in Hfit.
Qed.

Lemma cuesToSegments_concat (cues : list VTT.Cue) :
  cuesToSegments cues = concat (map cueToSegments cues).
Proof. unfold cuesToSegments. by rewrite foldl_push_concat. Qed.

(** X12. Every segment that [cuesToSegments] gives has one or two lines, and
    each line has between 1 and 38 code units. *)
Theorem cuesToSegments_segments_fit_a_title (cues : list VTT.Cue) :
  Forall fitsTitle (cuesToSegments cues).
Proof.
  rewrite cuesToSegments_concat. apply Forall_concat, Forall_map, Forall_forall.
  intros cue _. apply cueToSegments_fit.
Qed.

(** X13. The lines of the segments of a cue, read in order and joined by
    spaces, are the words of the cue text joined by spaces, each word cut to
    38 code units: segmenting drops no word and adds none. *)
Theorem cueToSegments_keeps_the_words (cue : VTT.Cue) :
  join_space (concat (map lines (cueToSegments cue)))
  = join_space (map (take CHARS_PER_LINE) (words (VTT.text cue))).
Proof.
  rewrite cueToSegments_lines, chunkLines_concat by apply wrapLines_lengths.
  apply wrapLines_join. unfold CHARS_PER_LINE. lia.
Qed.

Lemma cueToSegments_nil (cue : VTT.Cue) :
  cueToSegments cue = [] ↔ wrapLines (VTT.text cue) CHARS_PER_LINE = [].
Proof.
  rewrite <- chunkLines_nil, <- cueToSegments_lines.
  split; [by intros ->|]. by destruct (cueToSegments cue).
Qed.

(** X14. A cue gives no segment exactly when its text has no word. *)
Theorem cueToSegments_empty_iff_no_word (cue : VTT.Cue) :
  cueToSegments cue = [] ↔ words (VTT.text cue) = [].
Proof.
  rewrite cueToSegments_nil. apply wrapLines_nil. unfold CHARS_PER_LINE. lia.
Qed.

(** A word of 40 code units is cut to 38 and put on a line of its own. *)
Example cueToSegments_twoWordCue :
  map lines (cueToSegments twoWordCue)
  = [[lit "Hello"; replicate 38 0x78]; [lit "world"]].
Proof. vm_compute. reflexivity. Qed.

End TitlingMore.

(** ** More of the parser *)

Module VTTMore.
Import Re VTT VTTFacts.

(** A string in which every run of white space is one space. *)
Definition collapsed (s : jsstring) : Prop := replace_ws_runs false s = s.

(** The lines that hold a timing. *)
Definition timingLines (lines : list jsstring) : list jsstring :=
  filter (fun l => is_Some (matchTime l)) lines.

(** Two timing lines with no blank line between the text and the second. *)
Definition crowdedFile : jsstring :=
  lit "WEBVTT" ++ [10; 10] ++ lit "00:01.000 --> 00:02.000" ++ [13; 10]
  ++ lit " Hello," ++ [9] ++ lit " world " ++ [10]
  ++ lit "00:03.000 --> 00:04.000" ++ [10] ++ lit "again".

Lemma expect_colon_or_dot (s : jsstring) : expect 58 s = None ∨ expect 46 s = None.
Proof.
  destruct s as [|x s]; [by left|]. unfold expect.
  destruct (Z.eqb_spec x 58) as [->|_]; [by right|by left].
Qed.

(** The two timestamp expressions match the same prefixes. *)
Lemma timestampTest_timestamp (s : jsstring) :
  timestampTest s = (fun r => r.2) <$> timestamp s.
Proof.
  unfold timestampTest, timestamp, minSecMs.
  destruct (digits2 s) as [[h s0]|]; [|done]. cbn [mbind option_bind].
  destruct (expect 58 s0) as [s1|]; [|done]. cbn [mbind option_bind].
  destruct (digits2 s1) as [[m s2]|]; [|done]. cbn [mbind option_bind].
  destruct (expect_colon_or_dot s2) as [Hc|Hd].
  - rewrite Hc. cbn [mbind option_bind].
    destruct (expect 46 s2) as [s3|]; [|done]. cbn [mbind option_bind].
    by destruct (digits3 s3) as [[ms s4]|].
  - rewrite Hd. cbn [mbind option_bind].
    destruct (expect 58 s2) as [s3|]; [|done]. cbn [mbind option_bind].
    destruct (digits2 s3) as [[sec s4]|]; [|done]. cbn [mbind option_bind].
    destruct (expect 46 s4) as [s5|]; [|done]. cbn [mbind option_bind].
    by destruct (digits3 s5) as [[ms s6]|].
Qed.

Lemma testTime_matchTime (line : jsstring) :
  testTime line = true ↔ is_Some (matchTime line).
Proof.
  unfold testTime, matchTime. rewrite bool_decide_eq_true, !timestampTest_timestamp.
  destruct (timestamp line) as [[[[[h1 m1] s1] ms1] s]|]; cbn [fmap option_fmap option_map
    mbind option_bind snd]; [|done].
  destruct (expect 45 (trimStart s)) as [r1|]; cbn [mbind option_bind]; [|done].
  destruct (expect 45 r1) as [r2|]; cbn [mbind option_bind]; [|done].
  destruct (expect 62 r2) as [r3|]; cbn [mbind option_bind]; [|done].
  rewrite timestampTest_timestamp.
  destruct (timestamp (trimStart r3)) as [[[[[h2 m2] s2] ms2] r4]|];
    cbn [fmap option_fmap option_map mbind option_bind snd].
  - split; intros _; by eexists.
  - split; by intros [? ?].
Qed.

Lemma parseCues_skipHeader (lines : list jsstring) :
  parseCues (skipHeader lines) = parseCues lines.
Proof.
  induction lines as [|l lines IH]; [done|]. cbn [skipHeader].
  destruct (testTime l) eqn:Ht; [done|]. rewrite IH. cbn [parseCues].
  destruct (matchTime l) as [r|] eqn:Hm; [|done].
  assert (testTime l = true) by (apply testTime_matchTime; by rewrite Hm). congruence.
Qed.

(** X15. The test that skips the header accepts exactly the lines that the
    cue loop accepts as timing lines, so skipping the header changes nothing:
    [parseVTT] is the cue loop run on all the lines. *)
Theorem parseVTT_header_skip_is_redundant (vttContent : jsstring) :
  (∀ line, testTime line = true ↔ is_Some (matchTime line))
  ∧ parseVTT vttContent = parseCues (split_lines vttContent).
Proof. split; [apply testTime_matchTime|apply parseCues_skipHeader]. Qed.

Lemma length_pushCue (start end_ : float) (textLines : list jsstring) :
  (length (pushCue start end_ textLines) ≤ 1)%nat.
Proof. unfold pushCue. destruct (trim _); simpl; lia. Qed.

Lemma length_collectText (next : list jsstring → list Cue) (start end_ : float)
    (lines : list jsstring) : ∀ textLines,
  (∀ lines', (length lines' < length lines)%nat →
     (length (next lines') ≤ length (timingLines lines'))%nat) →
  (length (collectText next start end_ textLines lines)
   ≤ 1 + length (timingLines lines))%nat.
Proof.
  induction lines as [|l lines IH]; intros textLines Hnext; cbn [collectText].
  - pose proof (length_pushCue start end_ textLines). lia.
  - assert (Hmono : (length (timingLines lines) ≤ length (timingLines (l :: lines)))%nat).
    { unfold timingLines. rewrite filter_cons. destruct (decide _); simpl; lia. }
    destruct (trim l) as [|c t].
    + rewrite length_app. pose proof (length_pushCue start end_ textLines).
      pose proof (Hnext lines ltac:(simpl; lia)). lia.
    + etrans; [apply IH|lia]. intros lines' Hlen. apply Hnext. simpl. lia.
Qed.

(** X16. There are at most as many cues as timing lines: a timing line gives
    one cue or none, and a timing line met while the text of a cue is being
    gathered gives none. *)
Theorem parseVTT_at_most_one_cue_per_timing_line (vttContent : jsstring) :
  (length (parseVTT vttContent) ≤ length (timingLines (split_lines vttContent)))%nat.
Proof.
  unfold parseVTT. rewrite parseCues_skipHeader.
  generalize (split_lines vttContent). intros lines.
  induction lines as [lines IH] using (induction_ltof1 _ (@length jsstring)).
  unfold ltof in IH. destruct lines as [|timeLine lines]; [done|].
  cbn [parseCues]. unfold timingLines. rewrite filter_cons.
  destruct (matchTime timeLine) as [[start end_]|] eqn:Hm.
  - destruct (decide _) as [_|Hno]; [|by destruct Hno].
    cbn [length]. etrans; [apply length_collectText|done].
    intros lines' Hlen. apply IH. simpl. lia.
  - destruct (decide _) as [Hyes|_]; [by destruct Hyes|].
    apply IH. simpl. lia.
Qed.

Lemma length_replace_ws_runs (s : jsstring) : ∀ b,
  (length (replace_ws_runs b s) ≤ length s)%nat.
Proof.
  induction s as [|c s IH]; intros b; simpl; [done|].
  pose proof (IH true). pose proof (IH false).
  destruct (is_ws c); [destruct b|]; simpl; lia.
Qed.

Lemma replace_ws_runs_idemp (s : jsstring) :
  (∀ b, replace_ws_runs false (replace_ws_runs b s) = replace_ws_runs b s)
  ∧ replace_ws_runs true (replace_ws_runs true s) = replace_ws_runs true s.
Proof.
  induction s as [|c s [IH1 IH2]]; [done|]. cbn [replace_ws_runs].
  destruct (is_ws c) eqn:Hc.
  - split; [|done]. intros [|]; [apply IH1|].
    cbn [replace_ws_runs]. change (is_ws 32) with true. cbv iota. by rewrite IH2.
  - split; [intros b|]; cbn [replace_ws_runs]; rewrite Hc; by rewrite IH1.
Qed.

(** A string that [replace_ws_runs true] leaves alone does not start with
    white space. *)
Lemma replace_ws_runs_true_fixed (s : jsstring) :
  replace_ws_runs true s = s →
  s = [] ∨ ∃ d s', s = d :: s' ∧ is_ws d = false ∧ collapsed s' ∧ collapsed s.
Proof.
  destruct s as [|d s']; [by left|]. intros Hs. right. exists d, s'.
  unfold collapsed. cbn [replace_ws_runs] in *. destruct (is_ws d) eqn:Hd.
  - pose proof (length_replace_ws_runs s' true) as Hlen.
    rewrite Hs in Hlen. simpl in Hlen. lia.
  - injection Hs as Hs. by rewrite Hs.
Qed.

Lemma collapsed_cons (c : Z) (s : jsstring) :
  collapsed (c :: s) →
  if is_ws c then c = 32 ∧ replace_ws_runs true s = s else collapsed s.
Proof.
  unfold collapsed. cbn [replace_ws_runs]. destruct (is_ws c).
  - by intros [= <- ?].
  - by intros [= ?].
Qed.

Lemma collapsed_trimStart (s : jsstring) : collapsed s → collapsed (trimStart s).
Proof.
  destruct s as [|c s]; [done|]. intros Hs. pose proof (collapsed_cons c s Hs) as Hc.
  cbn [trimStart]. destruct (is_ws c) eqn:Hws; [|done]. destruct Hc as [_ Hc].
  apply replace_ws_runs_true_fixed in Hc as [->|(d & s' & -> & Hd & _ & Hds)]; [done|].
  cbn [trimStart]. by rewrite Hd.
Qed.

Lemma replace_ws_runs_space (s : jsstring) :
  replace_ws_runs false (32 :: s) = 32 :: replace_ws_runs true s.
Proof. done. Qed.

Lemma replace_ws_runs_other (c : Z) (s : jsstring) (b : bool) :
  is_ws c = false → replace_ws_runs b (c :: s) = c :: replace_ws_runs false s.
Proof. intros Hc. cbn [replace_ws_runs]. by rewrite Hc. Qed.

Lemma collapsed_trimEnd (s : jsstring) : ∀ b,
  replace_ws_runs b s = s → replace_ws_runs b (trimEnd s) = trimEnd s.
Proof.
  induction s as [|c s IH]; intros b Hs; [done|].
  rewrite trimEnd_cons. cbn [replace_ws_runs] in Hs. destruct (is_ws c) eqn:Hc.
  - destruct b.
    { pose proof (length_replace_ws_runs s true) as Hlen.
      rewrite Hs in Hlen. simpl in Hlen. lia. }
    injection Hs as <- Hs. specialize (IH true Hs).
    destruct (trimEnd s) as [|d acc]; [done|].
    by rewrite replace_ws_runs_space, IH.
  - injection Hs as Hs. specialize (IH false Hs).
    destruct (trimEnd s) as [|d acc]; rewrite replace_ws_runs_other by done; [done|].
    by rewrite IH.
Qed.

Lemma collapsed_white_space (s : jsstring) :
  collapsed s → Forall (fun c => is_ws c = true → c = 32) s.
Proof.
  induction s as [|c s IH]; intros Hs; [constructor|].
  apply collapsed_cons in Hs. destruct (is_ws c) eqn:Hc.
  - destruct Hs as [-> Hs]. constructor; [done|]. apply IH.
    by apply replace_ws_runs_true_fixed in Hs as [->|(d & s' & -> & _ & _ & ?)].
  - constructor; [by rewrite Hc|]. by apply IH.
Qed.

Lemma pushCue_collapsed (start end_ : float) (textLines : list jsstring) :
  Forall (fun cue => collapsed (text cue)) (pushCue start end_ textLines).
Proof.
  unfold pushCue. destruct (trim _) as [|c r] eqn:Ht; [constructor|].
  repeat constructor. cbn [text]. rewrite <- Ht. unfold trim.
  apply (collapsed_trimEnd _ false), collapsed_trimStart.
  apply (replace_ws_runs_idemp (join_space textLines)).
Qed.

(** What holds of every cue that is pushed holds of every cue returned. *)
Lemma collectText_Forall (P : Cue → Prop) (next : list jsstring → list Cue)
    (start end_ : float) (lines : list jsstring) : ∀ textLines,
  (∀ s e tl, Forall P (pushCue s e tl)) →
  (∀ lines', (length lines' < length lines)%nat → Forall P (next lines')) →
  Forall P (collectText next start end_ textLines lines).
Proof.
  induction lines as [|l lines IH]; intros textLines Hpush Hnext; simpl.
  - apply Hpush.
  - destruct (trim l) as [|c t].
    + apply Forall_app_2; [apply Hpush|]. apply Hnext. simpl. lia.
    + apply IH; [done|]. intros lines' Hlen. apply Hnext. simpl. lia.
Qed.

Lemma parseCues_Forall (P : Cue → Prop) (lines : list jsstring) :
  (∀ s e tl, Forall P (pushCue s e tl)) → Forall P (parseCues lines).
Proof.
  intros Hpush.
  induction lines as [lines IH] using (induction_ltof1 _ (@length jsstring)).
  unfold ltof in IH. destruct lines as [|timeLine lines]; simpl; [constructor|].
  destruct (matchTime timeLine) as [[start end_]|].
  - apply collectText_Forall; [done|]. intros lines' Hlen. apply IH. simpl. lia.
  - apply IH. simpl. lia.
Qed.

Lemma trim_fixed (s : jsstring) :
  trim s = s →
  trimEnd s = s ∧ match s with c :: _ => is_ws c = false | [] => True end.
Proof.
  unfold trim. intros Hs.
  destruct (trimStart_head s) as [Hnil|(c & r & Hcr & Hc)].
  - rewrite Hnil in Hs. by subst s.
  - rewrite Hcr in Hs. destruct (trimEnd_head c r Hc) as (r' & Hr').
    rewrite Hr' in Hs. subst s. split; [|done].
    rewrite <- Hr'. apply trimEnd_idemp.
Qed.

(** X17. The text of a cue is white-space normalised: replacing the runs of
    white space by a space leaves it as it is, its only white-space code unit
    is the space (32), it neither starts nor ends with one, and no two spaces
    are next to each other. *)
Theorem parseVTT_cue_text_is_normalised (vttContent : jsstring) :
  Forall (fun cue =>
            collapsed (text cue)
            ∧ Forall (fun c => is_ws c = true → c = 32) (text cue)
            ∧ hd 0 (text cue) ≠ 32 ∧ last (text cue) ≠ Some 32
            ∧ ∀ i, text cue !! i = Some 32 → text cue !! S i ≠ Some 32)
         (parseVTT vttContent).
Proof.
  unfold parseVTT.
  pose proof (parseCues_ok (skipHeader (split_lines vttContent))) as Hok.
  pose proof (parseCues_Forall (fun cue => collapsed (text cue))
                (skipHeader (split_lines vttContent)) pushCue_collapsed) as Hcol.
  apply Forall_forall. intros cue Hcue.
  rewrite Forall_forall in Hok, Hcol.
  destruct (Hok cue Hcue) as [Hne Htrim]. specialize (Hcol cue Hcue).
  apply trim_fixed in Htrim as [Hend Hhead].
  split; [done|]. split; [by apply collapsed_white_space|]. split; [|split].
  - destruct (text cue) as [|c r]; [done|]. cbn [hd]. by intros ->.
  - destruct (last (text cue)) as [c|] eqn:Hlast; [|done]. intros [= ->].
    apply last_Some in Hlast as [l' Hl']. rewrite Hl' in Hend.
    assert (Hws : ∀ l : jsstring, trimEnd (l ++ [32]) = trimEnd l).
    { induction l as [|x l IHl]; [done|]. cbn [app]. by rewrite !trimEnd_cons, IHl. }
    rewrite Hws in Hend.
    assert (Hlen : ∀ l : jsstring, (length (trimEnd l) ≤ length l)%nat).
    { induction l as [|x l IHl]; [done|]. rewrite trimEnd_cons.
      destruct (trimEnd l); [destruct (is_ws x)|]; simpl in *; lia. }
    specialize (Hlen l'). rewrite Hend, length_app in Hlen. simpl in Hlen. lia.
  - intros i Hi Hsi. revert Hcol Hi Hsi. generalize (text cue). clear.
    intros s. revert s. induction i as [|i IH]; intros s Hcol Hi Hsi.
    + destruct s as [|a [|b s]]; [done..|]. injection Hi as ->. injection Hsi as ->.
      apply collapsed_cons in Hcol. change (is_ws 32) with true in Hcol.
      destruct Hcol as [_ Hcol].
      apply replace_ws_runs_true_fixed in Hcol as [?|(d & s' & [= <- <-] & Hd & _)]; done.
    + destruct s as [|a s]; [done|]. apply (IH s); [|done..].
      apply collapsed_cons in Hcol. destruct (is_ws a); [|done].
      destruct Hcol as [_ Hcol].
      by apply replace_ws_runs_true_fixed in Hcol as [->|(d & s' & -> & _ & _ & ?)].
Qed.

End VTTMore.

(** ** From the file to the segments *)

Module PipelineFacts.
Import Re.
Import TitlingFacts TitlingMore VTTFacts VTTMore.

(** A file with one cue of two lines of text. *)
Definition helloFile : jsstring :=
  lit "WEBVTT" ++ [10; 10] ++ lit "00:01.000 --> 00:02.000" ++ [13; 10]
  ++ lit " Hello," ++ [9] ++ lit " world " ++ [10] ++ lit "again".

Lemma split_ws_join (s : jsstring) : ∀ cur,
  collapsed s → trimEnd s = s →
  (cur ≠ [] ∨ match s with c :: _ => is_ws c = false | [] => True end) →
  join_space (filter (fun w => w ≠ []) (split_ws_from cur false s)) = cur ++ s.
Proof.
  induction s as [|c s IH]; intros cur Hcol Hend Hside.
  - cbn [split_ws_from]. rewrite app_nil_r, filter_cons, filter_nil.
    destruct (decide (cur ≠ [])) as [_|Hcur]; [done|].
    destruct cur; [done|]. by destruct Hcur.
  - cbn [split_ws_from]. pose proof (collapsed_cons c s Hcol) as Hc.
    rewrite trimEnd_cons in Hend. destruct (is_ws c) eqn:Hws.
    + destruct Hc as [-> Hs]. destruct Hside as [Hcur|Hbad]; [|done].
      apply replace_ws_runs_true_fixed in Hs as [->|(d & s' & -> & Hd & Hs' & Hds)];
        [done|].
      assert (Hend' : trimEnd (d :: s') = d :: s').
      { destruct (trimEnd (d :: s')); [done|]. congruence. }
      specialize (IH [] Hds Hend' (or_intror Hd)).
      cbn [split_ws_from] in IH |- *. rewrite Hd in IH |- *.
      rewrite filter_cons_True by done. rewrite join_space_cons.
      * by rewrite IH.
      * intros Hnil. by rewrite Hnil in IH.
    + assert (Hend' : trimEnd s = s).
      { destruct (trimEnd s); congruence. }
      rewrite IH; [by rewrite <- app_assoc|done..|]. left. by destruct cur.
Qed.

(** A normalised text is its words joined by single spaces. *)
Lemma words_join (s : jsstring) :
  collapsed s → trim s = s → join_space (Titling.words s) = s.
Proof.
  intros Hcol [Hend Hhead]%trim_fixed. unfold Titling.words, split_ws.
  rewrite split_ws_join; [done..|by right].
Qed.

Lemma parsed_cue_normal (vttContent : jsstring) :
  Forall (fun cue => VTT.text cue ≠ [] ∧ trim (VTT.text cue) = VTT.text cue
                     ∧ collapsed (VTT.text cue))
         (VTT.parseVTT vttContent).
Proof.
  unfold VTT.parseVTT.
  pose proof (parseCues_ok (VTT.skipHeader (split_lines vttContent))) as Hok.
  pose proof (parseCues_Forall (fun cue => collapsed (VTT.text cue))
                (VTT.skipHeader (split_lines vttContent)) pushCue_collapsed) as Hcol.
  apply Forall_forall. intros cue Hcue. rewrite Forall_forall in Hok, Hcol.
  destruct (Hok cue Hcue) as [Hne Htrim]. by specialize (Hcol cue Hcue).
Qed.

(** X18. Splitting the text of a parsed cue into words and joining them with
    single spaces gives the text back: [words] loses nothing of a cue. *)
Theorem parsed_cue_text_is_its_words (vttContent : jsstring) :
  Forall (fun cue => join_space (Titling.words (VTT.text cue)) = VTT.text cue)
         (VTT.parseVTT vttContent).
Proof.
  eapply Forall_impl; [apply parsed_cue_normal|].
  intros cue (_ & Htrim & Hcol). by apply words_join.
Qed.

(** X19. From the file to the screen: when no word of a parsed cue has more
    than 38 code units, the lines of its segments, read in order and joined
    by spaces, are the text of the cue. *)
Theorem segments_of_parsed_cue_spell_its_text (vttContent : jsstring) :
  Forall (fun cue =>
            Forall (fun w => (length w ≤ Titling.CHARS_PER_LINE)%nat)
                   (Titling.words (VTT.text cue)) →
            join_space (concat (map Titling.lines (Titling.cueToSegments cue)))
            = VTT.text cue)
         (VTT.parseVTT vttContent).
Proof.
  eapply Forall_impl; [apply parsed_cue_normal|].
  intros cue (_ & Htrim & Hcol) Hwords.
  rewrite cueToSegments_lines, chunkLines_concat by apply wrapLines_lengths.
  rewrite wrapLines_join by (unfold Titling.CHARS_PER_LINE; lia).
  rewrite map_id_Forall; [by apply words_join|].
  eapply Forall_impl; [exact Hwords|]. intros w Hw. by apply take_ge.
Qed.

Lemma parsed_cue_has_segment (vttContent : jsstring) :
  Forall (fun cue => Titling.cueToSegments cue ≠ []) (VTT.parseVTT vttContent).
Proof.
  eapply Forall_impl; [apply parsed_cue_normal|].
  intros cue (Hne & Htrim & Hcol). rewrite cueToSegments_nil, wrapLines_nil
    by (unfold Titling.CHARS_PER_LINE; lia).
  intros Hnil. apply Hne. by rewrite <- (words_join _ Hcol Htrim), Hnil.
Qed.

Lemma length_concat_not_empty {A} (ls : list (list A)) :
  Forall (fun l => l ≠ []) ls → (length ls ≤ length (concat ls))%nat.
Proof.
  induction 1 as [|l ls Hl _ IH]; [done|].
  cbn [concat length]. rewrite length_app. destruct l; [done|]. simpl. lia.
Qed.

Lemma parsed_cues_segments (vttContent : jsstring) :
  (length (VTT.parseVTT vttContent)
   ≤ length (Titling.cuesToSegments (VTT.parseVTT vttContent)))%nat.
Proof.
  rewrite cuesToSegments_concat.
  rewrite <- (length_map Titling.cueToSegments) at 1.
  apply length_concat_not_empty, Forall_map, parsed_cue_has_segment.
Qed.

(** X20. Every parsed cue is shown: it gives at least one segment, so there
    are at least as many segments as cues. *)
Theorem every_parsed_cue_gives_a_segment (vttContent : jsstring) :
  Forall (fun cue => Titling.cueToSegments cue ≠ []) (VTT.parseVTT vttContent)
  ∧ (length (VTT.parseVTT vttContent)
     ≤ length (Titling.cuesToSegments (VTT.parseVTT vttContent)))%nat.
Proof. split; [apply parsed_cue_has_segment|apply parsed_cues_segments]. Qed.

Example parse_and_segment_helloFile :
  map (fun cue => (VTT.text cue, map Titling.lines (Titling.cueToSegments cue)))
      (VTT.parseVTT helloFile)
  = [(lit "Hello, world again", [[lit "Hello, world again"]])].
Proof. vm_compute. reflexivity. Qed.

End PipelineFacts.

(** ** More of the scheduler *)

Module SchedulerMore.
Import Server SchedulerFacts.

(** Two segments, the second starting where the first ends. *)
Definition twoSegments (lastShown : Z) : State :=
  {| segments := [{| Titling.start := 0%float; Titling.end_ := 2%float;
                     Titling.lines := [lit "Hello"] |};
                  {| Titling.start := 2%float; Titling.end_ := 4%float;
                     Titling.lines := [lit "world"] |}];
     lastShownSegmentIndex := lastShown; tickTimer := true; timeMode := "osc";
     autonomousStartAt := 0%float; autonomousStartWall := 0%float |}.

(** The index is -1 or that of a segment. *)
Definition indexInRange (st : State) : Prop :=
  -1 ≤ lastShownSegmentIndex st < Z.of_nat (length (segments st)).

Lemma findCurrent_first (t : float) (segs : list Titling.Segment) :
  ∀ i k seg,
    segs !! k = Some seg → inside t seg →
    (∀ j seg', (j < k)%nat → segs !! j = Some seg' → ¬ inside t seg') →
    findCurrent t i segs = i + Z.of_nat k.
Proof.
  induction segs as [|s segs IH]; intros i k seg Hk Hin Hbefore; [done|].
  cbn [findCurrent]. destruct k as [|k].
  - injection Hk as ->. destruct Hin as [-> ->]. cbn [andb]. lia.
  - destruct (PrimFloat.leb _ _ && PrimFloat.ltb _ _) eqn:Hs.
    + apply andb_true_iff in Hs. by destruct (Hbefore 0%nat s ltac:(lia) eq_refl).
    + rewrite (IH (i + 1) k seg Hk Hin); [lia|].
      intros j seg' Hj Hseg'. apply (Hbefore (S j)); [lia|done].
Qed.

Lemma findCurrent_found (t : float) (segs : list Titling.Segment) :
  ∀ i, findCurrent t i segs = -1
       ∨ ∃ k seg, findCurrent t i segs = i + Z.of_nat k ∧ segs !! k = Some seg.
Proof.
  induction segs as [|s segs IH]; intros i; [by left|].
  cbn [findCurrent]. destruct (PrimFloat.leb _ _ && PrimFloat.ltb _ _).
  - right. exists 0%nat, s. split; [lia|done].
  - destruct (IH (i + 1)) as [->|(k & seg & -> & Hk)]; [by left|].
    right. exists (S k), seg. split; [lia|done].
Qed.

Lemma setLastShown_same (st : State) : setLastShown st (lastShownSegmentIndex st) = st.
Proof. by destruct st. Qed.

(** What a tick does, in three cases: nothing, a title sent, the title
    cleared. *)
Lemma tick_cases (st : State) (w : World) :
  tick st w = (st, [])
  ∨ (∃ t k seg,
       getCurrentTime st w = Some t
       ∧ findCurrent t 0 (segments st) = Z.of_nat k
       ∧ segments st !! k = Some seg
       ∧ tick st w = (setLastShown st (Z.of_nat k), [sendTitle (Titling.lines seg)]))
  ∨ (∃ t,
       getCurrentTime st w = Some t
       ∧ (segments st = [] ∨ findCurrent t 0 (segments st) = -1)
       ∧ tick st w = (setLastShown st (-1), [clearTitle])).
Proof.
  unfold tick. destruct (getCurrentTime st w) as [t|]; [|by left].
  destruct (segments st) as [|s segs] eqn:Hsegs.
  { case_bool_decide; [|by left]. right. right. exists t. by split; [|split; [left|]]. }
  destruct (findCurrent_found t (s :: segs) 0) as [Hnone|(k & seg & Hk & Hseg)].
  - rewrite Hnone. rewrite (bool_decide_eq_false_2 (0 ≤ -1)) by lia.
    case_bool_decide; [|by left].
    destruct (PrimFloat.ltb _ _); [|by left].
    right. right. exists t. by split; [|split; [right|]].
  - rewrite Hk, Z.add_0_l. rewrite bool_decide_eq_true_2 by lia.
    case_bool_decide; [|by left]. rewrite Nat2Z.id, Hseg.
    right. left. by exists t, k, seg.
Qed.

(** X21. A tick at a time inside a segment shows the first segment that
    holds the time: it sends its lines and records its index, unless that
    index is the one recorded, in which case it does nothing. *)
Theorem tick_inside_a_segment
    (st : State) (w : World) (t : float) (i : nat) (seg : Titling.Segment) :
  getCurrentTime st w = Some t →
  segments st !! i = Some seg → inside t seg →
  (∀ j seg', (j < i)%nat → segments st !! j = Some seg' → ¬ inside t seg') →
  tick st w
  = if bool_decide (Z.of_nat i = lastShownSegmentIndex st) then (st, [])
    else (setLastShown st (Z.of_nat i), [sendTitle (Titling.lines seg)]).
Proof.
  intros Ht Hi Hin Hfirst. unfold tick. rewrite Ht.
  destruct (segments st) as [|s segs] eqn:Hsegs; [done|].
  rewrite (findCurrent_first t (s :: segs) 0 i seg Hi Hin Hfirst), Z.add_0_l.
  rewrite bool_decide_eq_true_2 by lia. rewrite Nat2Z.id, Hi.
  by repeat case_bool_decide.
Qed.

Lemma tick_inside_witness :
  tick (twoSegments 0) (worldAt (Some 2%float))
  = (twoSegments 1, [sendTitle [lit "world"]]).
Proof.
  rewrite (tick_inside_a_segment (twoSegments 0) (worldAt (Some 2%float)) 2%float 1
             {| Titling.start := 2%float; Titling.end_ := 4%float;
                Titling.lines := [lit "world"] |}).
  - reflexivity.
  - reflexivity.
  - reflexivity.
  - split; reflexivity.
  - intros j seg' Hj Hseg' [_ Hlt]. destruct j as [|j]; [|lia].
    injection Hseg' as <-. vm_compute in Hlt. discriminate.
Defined.

(** X22. A second tick at the same moment dispatches nothing: a title is
    sent once, and cleared once. *)
Theorem tick_twice_is_silent (st : State) (w : World) :
  (tick (tick st w).1 w).2 = [].
Proof.
  destruct (tick_cases st w)
    as [Hsame|[(t & k & seg & Ht & Hk & Hseg & Hsent)|(t & Ht & Hout & Hclear)]].
  - rewrite Hsame. cbn [fst]. by rewrite Hsame.
  - rewrite Hsent. cbn [fst]. unfold tick.
    change (getCurrentTime (setLastShown st (Z.of_nat k)) w) with (getCurrentTime st w).
    rewrite Ht. cbn [segments lastShownSegmentIndex setLastShown].
    destruct (segments st) as [|s segs]; [done|].
    rewrite Hk. rewrite bool_decide_eq_true_2 by lia.
    by rewrite bool_decide_eq_false_2 by (intros Hne; by apply Hne).
  - rewrite Hclear. cbn [fst]. unfold tick.
    change (getCurrentTime (setLastShown st (-1)) w) with (getCurrentTime st w).
    rewrite Ht. cbn [segments lastShownSegmentIndex setLastShown].
    destruct (segments st) as [|s segs]; [done|].
    destruct Hout as [?| ->]; [done|].
    by rewrite !(bool_decide_eq_false_2 (0 ≤ -1)) by lia.
Qed.

(** X23. A tick changes nothing but the recorded index, and keeps it in
    range: when it is -1 or the index of a segment before the tick, it is so
    after it. *)
Theorem tick_keeps_the_index_in_range (st : State) (w : World) :
  indexInRange st →
  (tick st w).1 = setLastShown st (lastShownSegmentIndex (tick st w).1)
  ∧ indexInRange (tick st w).1.
Proof.
  intros Hrange. unfold indexInRange in *.
  destruct (tick_cases st w)
    as [Hsame|[(t & k & seg & Ht & Hk & Hseg & Hsent)|(t & Ht & Hout & Hclear)]].
  - rewrite Hsame. cbn [fst]. by rewrite setLastShown_same.
  - rewrite Hsent. cbn [fst segments lastShownSegmentIndex setLastShown].
    split; [done|]. apply lookup_lt_Some in Hseg. lia.
  - rewrite Hclear. cbn [fst segments lastShownSegmentIndex setLastShown].
    split; [done|]. lia.
Qed.

Lemma tick_keeps_the_index_witness :
  indexInRange (tick (twoSegments 0) (worldAt (Some 2%float))).1.
Proof.
  destruct (tick_keeps_the_index_in_range (twoSegments 0) (worldAt (Some 2%float)))
    as [_ Hrange].
  - unfold indexInRange. simpl. lia.
  - exact Hrange.
Defined.

End SchedulerMore.

(** ** More of the HTTP handler *)

Module HandlerMore.
Import Server HandlerFacts.

(** The request is for the route that starts titling. *)
Definition startRoute (req : Request) : bool :=
  bool_decide (method req = "POST"%string)
  && (bool_decide (pathname req = "/titling"%string)
      || bool_decide (pathname req = "/titling/"%string)).

Definition stopRoute (req : Request) : bool :=
  (bool_decide (method req = "POST"%string) || bool_decide (method req = "DELETE"%string))
  && bool_decide (pathname req = "/titling/stop"%string).

(** X24. The handler changes the state and calls the client only when it
    answers 200: with any other status, and when it throws, the state is the
    one before and nothing is dispatched. *)
Theorem handle_changes_nothing_unless_200 (st : State) (w : World) (req : Request) :
  let r := handle st w req in
  match r.2 with
  | Ok resp => statusCode resp = 200 ∨ (r.1.1 = st ∧ r.1.2 = [])
  | Throws _ => r.1.1 = st ∧ r.1.2 = []
  end.
Proof.
  cbv zeta. unfold handle, respond, stopTitling.
  repeat case_match; simplify_eq/=; auto.
Qed.

(** The request with the pathname of its URL, the body not read. *)
Definition routed (req : IncomingMessage) (pathname : string) : Request :=
  {| method := im_method req; pathname := pathname; parsedBody := None |}.

(** The handler throws before it answers: the URL is invalid, or the request
    is to start titling and either its body cannot be read or the body is
    the JSON [null]. *)
Definition unanswered (req : IncomingMessage) : Prop :=
  (∃ error, im_url req = Throws error)
  ∨ ∃ pathname,
      im_url req = Ok pathname ∧ startRoute (routed req pathname) = true
      ∧ ((∃ error, im_readBody req = Throws error)
         ∨ im_readBody req = Ok (Some JNull)).

Lemma handle_statuses (st : State) (w : World) (req : Request) :
  match (handle st w req).2 with
  | Ok resp =>
      (statusCode resp = 200 ∨ statusCode resp = 400 ∨ statusCode resp = 404)
      ∧ (statusCode resp = 404 ↔ startRoute req = false ∧ stopRoute req = false)
      ∧ ¬ (startRoute req = true ∧ parsedBody req = Some JNull)
  | Throws _ =>
      (startRoute req = true ∧ parsedBody req = Some JNull)
      ∧ (handle st w req).1 = (st, [])
  end.
Proof.
  unfold handle, respond, stopTitling, startRoute, stopRoute.
  destruct (parsedBody req) as [[]|] eqn:Hbody; cbn [getProp];
    repeat case_match; simplify_eq/=; try done;
    (split; [auto|split; [split; [first [lia|done]|by intros [? ?]]|by intros [? ?]]]).
Qed.

(** X25. The statuses are 200, 400 and 404; 404 is the answer exactly to the
    requests for neither route; and the handler throws, leaving the request
    unanswered, the state as it was and the client not called, exactly when
    the URL of the request is invalid or a request to start titling has a
    body that cannot be read or is the JSON [null]. *)
Theorem handle_status_by_route (st : State) (w : World) (req : IncomingMessage) :
  match (requestListener st w req).2 with
  | Ok resp =>
      (statusCode resp = 200 ∨ statusCode resp = 400 ∨ statusCode resp = 404)
      ∧ (∃ pathname,
           im_url req = Ok pathname
           ∧ (statusCode resp = 404
              ↔ startRoute (routed req pathname) = false
                ∧ stopRoute (routed req pathname) = false))
      ∧ ¬ unanswered req
  | Throws _ => unanswered req ∧ (requestListener st w req).1 = (st, [])
  end.
Proof.
  unfold requestListener, unanswered.
  destruct (im_url req) as [pathname|error] eqn:Hurl; cbn [snd fst];
    [|split; [left; by eexists|done]].
  assert (Hroute : bool_decide (im_method req = "POST"%string)
                   && (bool_decide (pathname = "/titling"%string)
                       || bool_decide (pathname = "/titling/"%string))
                   = startRoute (routed req pathname)) by done.
  rewrite Hroute. clear Hroute.
  destruct (startRoute (routed req pathname)) eqn:Hstart.
  - destruct (im_readBody req) as [parsedBody|error] eqn:Hread; cbn [snd fst].
    + set (request := {| method := im_method req; pathname := pathname;
                         parsedBody := parsedBody |}).
      pose proof (handle_statuses st w request) as Hcases.
      assert (Hs : startRoute request = true) by exact Hstart.
      assert (Hstop : stopRoute request = stopRoute (routed req pathname)) by done.
      assert (Hbody : Server.parsedBody request = parsedBody) by done.
      rewrite Hs, Hstop, Hbody in Hcases.
      destruct (handle st w request) as [[st' cmds] [resp|message]]; cbn [fst snd] in *.
      * destruct Hcases as (Hstatus & H404 & Hnull). split; [done|].
        split; [exists pathname; split; [done|]; by rewrite Hstart|].
        intros [[? [=]]|(p & [= <-] & _ & [[? [=]]| [= ->]])]. by apply Hnull.
      * destruct Hcases as [[_ ->] Hsame]. split; [|done]. right.
        exists pathname. split; [done|]. split; [done|]. by right.
    + split; [|done]. right. exists pathname. split; [done|]. split; [done|].
      left. by eexists.
  - pose proof (handle_statuses st w (routed req pathname)) as Hcases.
    rewrite Hstart in Hcases. fold (routed req pathname).
    destruct (handle st w (routed req pathname)) as [[st' cmds] [resp|message]];
      cbn [fst snd] in *.
    + destruct Hcases as (Hstatus & H404 & _). split; [done|].
      split; [exists pathname; split; [done|]; by rewrite Hstart|].
      intros [[? [=]]|(p & [= <-] & Hp & _)]. congruence.
    + by destruct Hcases as [[? _] _].
Qed.

(** A request whose URL cannot be parsed, and one with the body [null]. *)
Example requestListener_unanswered (st : State) (w : World) :
  requestListener st w {| im_method := "GET"; im_url := Throws "TypeError: Invalid URL";
                          im_readBody := Ok None |}
  = (st, [], Throws "TypeError: Invalid URL")
  ∧ requestListener st w {| im_method := "POST"; im_url := Ok "/titling"%string;
                            im_readBody := Ok (Some JNull) |}
    = (st, [], Throws "TypeError: Cannot read properties of null").
Proof. split; reflexivity. Qed.

End HandlerMore.

(** ** Loading a file *)

Module LoadFacts.
Import Server HandlerFacts.

(** X26. A successful load leaves the scheduler ready to show the file from
    its first segment: the segments are those of the cues of the file, every
    one fits a title, no segment is recorded as shown, the timer runs, the
    counts returned are those of the state with at least as many segments as
    cues, and the clock is reset in autonomous mode only. *)
Theorem loadVTT_starts_from_the_first_segment
    (st st' : State) (w : World) (vttPath : jsstring) (timeModeOpt : option json)
    (startAtOpt : option float) (loaded : Loaded) :
  loadVTT st w vttPath timeModeOpt startAtOpt = Ok (st', loaded) →
  ∃ content,
    readFile w vttPath = Ok content
    ∧ segments st' = Titling.cuesToSegments (VTT.parseVTT content)
    ∧ Forall TitlingMore.fitsTitle (segments st')
    ∧ lastShownSegmentIndex st' = -1 ∧ tickTimer st' = true
    ∧ loaded_segments loaded = length (segments st')
    ∧ (loaded_cues loaded ≤ loaded_segments loaded)%nat
    ∧ (if isString (lit "autonomous") timeModeOpt
       then timeMode st' = "autonomous"%string
            ∧ autonomousStartAt st' = default 0%float startAtOpt
            ∧ autonomousStartWall st' = now w
       else timeMode st' = "osc"%string
            ∧ autonomousStartAt st' = autonomousStartAt st
            ∧ autonomousStartWall st' = autonomousStartWall st).
Proof.
  unfold loadVTT. intros Hload.
  destruct (readFile w vttPath) as [content|] eqn:Hread; cbn [bind] in Hload; [|done].
  exists content. split; [done|]. cbv zeta in Hload.
  assert (Hfit : Forall TitlingMore.fitsTitle
                   (Titling.cuesToSegments (VTT.parseVTT content))).
  { rewrite TitlingMore.cuesToSegments_concat.
    apply Forall_concat, Forall_map, Forall_forall. intros cue _.
    apply TitlingMore.cueToSegments_fit. }
  pose proof (PipelineFacts.parsed_cues_segments content) as Hcount.
  destruct (isString (lit "autonomous") timeModeOpt).
  - rewrite (bool_decide_eq_true_2 ("autonomous"%string = "autonomous"%string)) in Hload
      by done.
    injection Hload as <- <-. by split_and!.
  - rewrite (bool_decide_eq_false_2 ("osc"%string = "autonomous"%string)) in Hload
      by done.
    injection Hload as <- <-. by split_and!.
Qed.

Lemma loadVTT_witness :
  ∃ st' loaded,
    loadVTT initial oneCueWorld (lit "a.vtt") None None = Ok (st', loaded)
    ∧ map Titling.lines (segments st') = [[lit "Hello"]]
    ∧ lastShownSegmentIndex st' = -1 ∧ tickTimer st' = true.
Proof.
  destruct (loadVTT initial oneCueWorld (lit "a.vtt") None None)
    as [[st' loaded]|] eqn:Hload; [|vm_compute in Hload; discriminate].
  destruct (loadVTT_starts_from_the_first_segment initial st' oneCueWorld (lit "a.vtt")
              None None loaded Hload)
    as (content & Hread & Hsegs & _ & Hlast & Htimer & _).
  exists st', loaded. split; [reflexivity|]. split; [|split; [exact Hlast|exact Htimer]].
  rewrite Hsegs. injection Hread as <-. vm_compute. reflexivity.
Defined.

End LoadFacts.

(** ** The OSC time source *)

Module OSCFacts.
Import OSC.

(** What arrives: a message or a bundle. *)
Inductive Event :=
| Message (msg : list Value)
| Bundle (elements : list Element).

Definition receive (parseFloat : jsstring → float) (src : Source) (events : list Event)
  : Source :=
  foldl (fun src ev =>
           match ev with
           | Message msg => handleMessage parseFloat src msg
           | Bundle elements => handleBundle parseFloat src elements
           end)
        src events.

(** The time is a number. *)
Definition timeIsNumber (src : Source) : Prop :=
  match getTime src with
  | Some x => PrimFloat.is_nan x = false
  | None => True
  end.

Lemma stripSlashes_cons (c : Z) (s : jsstring) :
  stripSlashes (c :: s)
  = match stripSlashes s with
    | [] => if c =? 47 then [] else [c]
    | acc => c :: acc
    end.
Proof. unfold stripSlashes. simpl. by destruct (foldr _ _ _). Qed.

Lemma stripSlashes_slashes (k : nat) : stripSlashes (replicate k 47) = [].
Proof. induction k as [|k IH]; [done|]. cbn [replicate]. by rewrite stripSlashes_cons, IH. Qed.

Lemma stripSlashes_app_slashes (s : jsstring) (k : nat) :
  stripSlashes (s ++ replicate k 47) = stripSlashes s.
Proof.
  induction s as [|c s IH]; [apply stripSlashes_slashes|].
  cbn [app]. by rewrite !stripSlashes_cons, IH.
Qed.

Lemma endsWith_suffix (a b : jsstring) : endsWith a b = true ↔ b `suffix_of` a.
Proof.
  unfold endsWith. rewrite andb_true_iff, !bool_decide_eq_true. split.
  - intros [Hlen Hdrop]. exists (take (length a - length b) a).
    rewrite <- Hdrop at 2. by rewrite take_drop.
  - intros [k ->]. rewrite length_app. split; [lia|].
    replace (length k + length b - length b)%nat with (length k) by lia.
    by rewrite drop_app_length.
Qed.

Lemma handleMessage_keeps (parseFloat : jsstring → float) (src : Source) (msg : list Value) :
  timeIsNumber src → timeIsNumber (handleMessage parseFloat src msg).
Proof.
  intros Hsrc. unfold handleMessage.
  destruct (negb _); [done|]. destruct (msg !! 1%nat) as [arg|]; [|done].
  destruct (parseTimeArg parseFloat arg) as [v|] eqn:Hv; [|done].
  unfold timeIsNumber, getTime. cbn [currentTimeSeconds].
  unfold parseTimeArg in Hv. destruct arg as [x|s|]; [| |done].
  - destruct (PrimFloat.is_nan x) eqn:Hx; [done|]. by injection Hv as <-.
  - cbv zeta in Hv. destruct (PrimFloat.is_nan (parseFloat s)) eqn:Hx; [done|].
    by injection Hv as <-.
Qed.

(** X27. The time that the source gives is never NaN: whatever messages and
    bundles arrive, and whatever [parseFloat] returns, [getTime] is [null] or
    a number that is not NaN. *)
Theorem getTime_is_never_NaN
    (parseFloat : jsstring → float) (timeAddress : jsstring) (events : list Event) :
  timeIsNumber (receive parseFloat (createOSCTimeSource timeAddress) events).
Proof.
  unfold receive.
  assert (Hinit : timeIsNumber (createOSCTimeSource timeAddress)) by done.
  revert Hinit. generalize (createOSCTimeSource timeAddress).
  induction events as [|ev events IH]; intros src Hsrc; [done|].
  cbn [foldl]. apply IH. destruct ev as [msg|elements].
  - by apply handleMessage_keeps.
  - unfold handleBundle. revert src Hsrc.
    induction elements as [|el elements IHel]; intros src Hsrc; [done|].
    cbn [foldl]. apply IHel. destruct el; [| |done]; by apply handleMessage_keeps.
Qed.

(** X28. Which addresses are taken: the empty one never; otherwise, with its
    trailing slashes removed, an address that ends with the configured one,
    and, when the configured address ends with /time, every address that ends
    with /time. The test for equality adds nothing to the suffix tests. *)
Theorem addressMatches_is_a_suffix_test (timeAddress addr : jsstring) :
  let src := createOSCTimeSource timeAddress in
  addressMatches src (VString addr)
  = negb (bool_decide (addr = []))
    && endsWith (stripSlashes addr)
         (if matchBySuffix src then lit "/time" else timeAddressNorm src).
Proof.
  cbv zeta. destruct addr as [|c s]; [done|].
  cbn [addressMatches createOSCTimeSource timeAddressNorm matchBySuffix].
  rewrite (bool_decide_eq_false_2 (c :: s = [])) by done. cbn [negb andb].
  set (a := stripSlashes (c :: s)). set (norm := stripSlashes timeAddress).
  destruct (endsWith norm (lit "/time")) eqn:Hsuffix; cbn [andb].
  - destruct (endsWith a (lit "/time")) eqn:Ha; [by rewrite orb_true_r|].
    rewrite orb_false_r. apply orb_false_iff. split.
    + apply bool_decide_eq_false_2. intros Heq. congruence.
    + apply not_true_is_false. intros Hnorm.
      apply endsWith_suffix in Hnorm, Hsuffix.
      assert (lit "/time" `suffix_of` a) as Hs by (by etrans).
      apply endsWith_suffix in Hs. congruence.
  - rewrite orb_false_r. case_bool_decide as Heq; [|done].
    cbn [orb]. symmetry. apply endsWith_suffix. by rewrite Heq.
Qed.

(** Trailing slashes of a non-empty address do not count. *)
Lemma addressMatches_ignores_trailing_slashes (src : Source) (addr : jsstring) (k : nat) :
  addr ≠ [] →
  addressMatches src (VString (addr ++ replicate k 47))
  = addressMatches src (VString addr).
Proof.
  intros Hne. destruct addr as [|c s]; [done|].
  change ((c :: s) ++ replicate k 47) with (c :: (s ++ replicate k 47)).
  cbn [addressMatches].
  change (c :: (s ++ replicate k 47)) with ((c :: s) ++ replicate k 47).
  by rewrite stripSlashes_app_slashes.
Qed.

Example addressMatches_channel_2 :
  addressMatches (createOSCTimeSource DEFAULT_TIME_ADDRESS)
    (VString (lit "/channel/2/stage/layer/10/file/time" ++ replicate 2 47))
  = true.
Proof.
  rewrite (addressMatches_ignores_trailing_slashes
             (createOSCTimeSource DEFAULT_TIME_ADDRESS)
             (lit "/channel/2/stage/layer/10/file/time") 2).
  - vm_compute. reflexivity.
  - intros Heq. vm_compute in Heq. discriminate.
Qed.

End OSCFacts.

(** ** The client of the playout server *)

Module CasparFacts.
Import Caspar.

(** A client on channel 1, layer 301, with its socket open. *)
Definition openClient : CasparClient :=
  {| channelLayer := lit "1-301"; socket := Some false; env := WSTFacts.no_env |}.

(** A stand-in for base64: two hexadecimal digits per byte. *)
Definition hex (data : list Z) : jsstring :=
  let digit d := if d <? 10 then 48 + d else 55 + d in
  concat (map (fun b => [digit (b / 16); digit (b `mod` 16)]) data).

Section WithCodec.
Context `{ParityCodec}.
Variable base64 : list Z → jsstring.

(** X29. A client without a live socket writes nothing and does not even
    encode; a connected one writes one APPLY line with the packets of
    [encodeSubtitle], and throws when a line has more than 40 code units.
    [clearTitle] is [sendTitle] with no line. *)
Theorem sendTitle_writes_one_line (this : CasparClient) (lines : list jsstring) :
  (connected this = false → sendTitle base64 this lines = Ok None)
  ∧ (connected this = true →
     Forall (fun text => (length text ≤ 40)%nat) lines →
     ∃ packets,
       WST.encodeSubtitle (encoder this) (Some lines) None = Ok packets
       ∧ sendTitle base64 this lines
         = Ok (Some (lit "APPLY " ++ channelLayer this ++ lit " OP47 "
                     ++ Re.join_space (map base64 packets) ++ [13; 10])))
  ∧ (connected this = true →
     Exists (fun text => (40 < length text)%nat) lines →
     sendTitle base64 this lines = Throws "RangeError: Invalid array length")
  ∧ clearTitle base64 this = sendTitle base64 this [].
Proof.
  unfold sendTitle, clearTitle. split; [by intros ->|]. split; [|split; [|done]].
  - intros -> Hshort. cbn [negb].
    destruct (WSTFacts.encodeSubtitle_short_rows (encoder this) lines None
                (WSTFacts.new_WSTEncoder_accepted (env this)) Hshort)
      as (packets & Hpackets).
    exists packets. split; [done|]. by rewrite Hpackets.
  - intros -> Hlong. cbn [negb].
    by rewrite WSTFacts.encodeSubtitle_long_row
      by (done || apply WSTFacts.new_WSTEncoder_accepted).
Qed.

Lemma perform_fits (this : CasparClient) (lines : list jsstring) :
  Forall (fun l => (1 ≤ length l ≤ Titling.CHARS_PER_LINE)%nat) lines →
  ∃ out, sendTitle base64 this lines = Ok out.
Proof.
  intros Hfit. unfold sendTitle. destruct (negb (connected this)); [by eexists|].
  destruct (WSTFacts.encodeSubtitle_short_rows (encoder this) lines None
              (WSTFacts.new_WSTEncoder_accepted (env this)))
    as (packets & ->); [|by eexists].
  eapply Forall_impl; [exact Hfit|]. intros l Hl. cbn beta in *.
  unfold Titling.CHARS_PER_LINE in Hl. lia.
Qed.

(** X30. The scheduler never makes the client throw: when every segment fits
    a title, as the segments of a loaded file do, each call that a tick or a
    stop makes on the client returns. *)
Theorem scheduler_calls_never_throw
    (this : CasparClient) (st : Server.State) (w : Server.World) :
  Forall TitlingMore.fitsTitle (Server.segments st) →
  Forall (fun cmd => ∃ out, perform base64 this cmd = Ok out)
         ((Server.tick st w).2 ++ (Server.stopTitling st).2).
Proof.
  intros Hfit.
  assert (Hclear : ∃ out, perform base64 this Server.clearTitle = Ok out).
  { cbn [perform]. unfold clearTitle. destruct (negb (connected this)); [by eexists|].
    destruct (WSTFacts.encodeSubtitle_short_rows (encoder this) [] None
                (WSTFacts.new_WSTEncoder_accepted (env this)))
      as (packets & ->); [constructor|by eexists]. }
  apply Forall_app_2; [|by repeat constructor].
  destruct (SchedulerMore.tick_cases st w)
    as [->|[(t & k & seg & _ & _ & Hseg & ->)|(t & _ & _ & ->)]]; cbn [snd].
  - constructor.
  - repeat constructor. cbn [perform]. apply perform_fits.
    rewrite Forall_forall in Hfit.
    by destruct (Hfit seg (list_elem_of_lookup_2 _ _ _ Hseg)).
  - by repeat constructor.
Qed.

End WithCodec.

Lemma scheduler_calls_witness :
  Forall (fun cmd => ∃ out, @perform WSTFacts.plainCodec hex openClient cmd = Ok out)
         ((Server.tick (SchedulerFacts.helloState (-1))
             (SchedulerFacts.worldAt (Some 1%float))).2
          ++ (Server.stopTitling (SchedulerFacts.helloState (-1))).2).
Proof.
  apply (@scheduler_calls_never_throw WSTFacts.plainCodec hex openClient
           (SchedulerFacts.helloState (-1)) (SchedulerFacts.worldAt (Some 1%float))).
  repeat constructor; simpl; lia.
Defined.

(** The line that clears the title, with [hex] for base64 and no parity. *)
Example clearTitle_openClient :
  @clearTitle WSTFacts.plainCodec hex openClient
  = Ok (Some (lit "APPLY 1-301 OP47 55552700000100000800080300"
              ++ concat (replicate 32 (lit "20")) ++ [13; 10])).
Proof. vm_compute. reflexivity. Qed.

End CasparFacts.
